(** * hagadias.helpers.DiceBag: dice strings, parsed and evaluated

    A shallow embedding of the class [DiceBag] of [hagadias/helpers.py]
    and the properties of its constructor and of its four evaluation
    methods [average], [minimum], [maximum] and [shake].

    Conventions of the embedding:
    - a Python [str] is a [string]: a sequence of code points below 256.
      On those, the regular expression class [\d] is [0-9], and [\s] and
      the separator set of [str.split()] are the code points 9-13, 28-31,
      32, 133 and 160;
    - a Python [float] is a [Float64.float]: IEEE 754 binary64 with
      round-to-nearest-even, overflow to infinity and NaN.  The sign of
      zero is not kept: the program never divides by a stored value nor
      prints one, so it cannot observe it;
    - a Python [int] is a [Z];
    - a raised exception is the [Raise] case of [result];
    - [random.randrange] reads an entropy source [nat -> Z], one entry per
      draw, and reduces it into the requested range. *)

From Stdlib Require Import ZArith Lia List Bool Ascii String.
From Stdlib Require SpecFloat.
Import ListNotations.

Open Scope string_scope.
Open Scope Z_scope.

(** ** Exceptions and results *)

Inductive exn : Type :=
| InvalidString (dice_string : string)
    (* ValueError: Invalid string for DiceBag (...) - dice string must
       contain only 0-9, +, -, d, or spaces *)
| UnsupportedSegment (segment : string)
    (* ValueError: DiceBag created with segment of unsupported format *)
| EmptyRange
    (* ValueError: empty range for randrange() *)
| IntOfInfinity
    (* OverflowError: cannot convert float infinity to integer *)
| IntOfNaN
    (* ValueError: cannot convert float NaN to integer *)
| FloatLiteralNotModelled (literal : string).
    (* float() applied outside the literals modelled here; the constructor
       never does it, see [DiceBagFacts.init_cases] *)

Inductive result (A : Type) : Type :=
| Return (a : A)
| Raise (e : exn).

Arguments Return {A} a.
Arguments Raise {A} e.

Definition bind {A B : Type} (r : result A) (k : A -> result B) : result B :=
  match r with
  | Return a => k a
  | Raise e => Raise e
  end.

Notation "x <- r ;; k" := (bind r (fun x => k))
  (at level 61, r at next level, right associativity).

(** ** Binary64 floating point *)

Module Float64.

Definition prec : Z := 53.
Definition emax : Z := 1024.
Definition emin : Z := -1074.

(** [Fin m e] is the number [m * 2^e].  The operations below only build
    it in normal form: [m] odd, or [m = 0] and [e = 0]. *)
Inductive float : Type :=
| Fin (m e : Z)
| Inf (neg : bool)
| NaN.

Fixpoint odd_part (p : positive) : positive :=
  match p with
  | xO p' => odd_part p'
  | _ => p
  end.

(** Number of trailing zero bits. *)
Fixpoint ctz (p : positive) : Z :=
  match p with
  | xO p' => Z.succ (ctz p')
  | _ => 0
  end.

(** Normal form of [n * 2^e]. *)
Definition norm (n e : Z) : float :=
  match n with
  | Z0 => Fin 0 0
  | Zpos p => Fin (Zpos (odd_part p)) (e + ctz p)
  | Zneg p => Fin (Zneg (odd_part p)) (e + ctz p)
  end.

(** Bit length of a non-zero integer. *)
Definition bits (n : Z) : Z := Z.log2 (Z.abs n) + 1.

(** Nearest integer to [a / 2^sh], ties to even ([0 <= a], [0 < sh]). *)
Definition round_half_even (a sh : Z) : Z :=
  let q := Z.shiftr a sh in
  match Z.compare (a - Z.shiftl q sh) (2 ^ (sh - 1)) with
  | Lt => q
  | Gt => q + 1
  | Eq => if Z.even q then q else q + 1
  end.

(** The binary64 nearest to [n * 2^e]: at most [prec] significant bits,
    no bit below [2^emin], infinity from [2^emax] on. *)
Definition round (n e : Z) : float :=
  let sh := Z.max (bits n - prec) (emin - e) in
  let a := if 0 <? sh then round_half_even (Z.abs n) sh else Z.abs n in
  let e' := if 0 <? sh then e + sh else e in
  if a =? 0 then Fin 0 0
  else if emax <? bits a + e' then Inf (n <? 0)
  else norm (Z.sgn n * a) e'.

(** The nearest integer of at most [prec] significant bits, ties to
    even: [round] when exponents are not bounded. *)
Definition rint (n : Z) : Z :=
  if bits n <=? prec then n
  else Z.sgn n * round_half_even (Z.abs n) (bits n - prec) * 2 ^ (bits n - prec).

Definition zero : float := Fin 0 0.
Definition one : float := Fin 1 0.

(** Conversion of a Python int, as in [float(n)] and in mixed
    arithmetic such as [x * 1]. *)
Definition of_int (n : Z) : float := round n 0.

Definition add (x y : float) : float :=
  match x, y with
  | NaN, _ | _, NaN => NaN
  | Inf a, Inf b => if Bool.eqb a b then Inf a else NaN
  | Inf a, Fin _ _ => Inf a
  | Fin _ _, Inf b => Inf b
  | Fin m1 e1, Fin m2 e2 =>
      let e := Z.min e1 e2 in
      round (m1 * 2 ^ (e1 - e) + m2 * 2 ^ (e2 - e)) e
  end.

Definition mul (x y : float) : float :=
  match x, y with
  | NaN, _ | _, NaN => NaN
  | Inf a, Inf b => Inf (xorb a b)
  | Inf a, Fin m _ | Fin m _, Inf a =>
      if m =? 0 then NaN else Inf (xorb a (m <? 0))
  | Fin m1 e1, Fin m2 e2 => round (m1 * m2) (e1 + e2)
  end.

(** [x / 2.0], the only division of the program. *)
Definition div_two (x : float) : float :=
  match x with
  | Fin m e => round m (e - 1)
  | _ => x
  end.

(** [x <= y]; false as soon as one side is NaN. *)
Definition leb (x y : float) : bool :=
  match x, y with
  | NaN, _ | _, NaN => false
  | Inf a, Inf b => implb b a
  | Inf a, Fin _ _ => a
  | Fin _ _, Inf b => negb b
  | Fin m1 e1, Fin m2 e2 =>
      let e := Z.min e1 e2 in
      m1 * 2 ^ (e1 - e) <=? m2 * 2 ^ (e2 - e)
  end.

(** [int(x)]: truncation toward zero; raises on infinities and NaN. *)
Definition to_int (x : float) : result Z :=
  match x with
  | Fin m e => Return (if 0 <=? e then m * 2 ^ e else Z.quot m (2 ^ (- e)))
  | Inf _ => Raise IntOfInfinity
  | NaN => Raise IntOfNaN
  end.

(** A binary64 in normal form. *)
Definition representable (x : float) : bool :=
  match x with
  | Fin m e =>
      ((m =? 0) && (e =? 0))
      || (Z.odd m && (bits m <=? prec) && (emin <=? e) && (bits m + e <=? emax))
  | _ => true
  end.

(** Normal form: an odd mantissa, and [Fin 0 0] for zero. *)
Definition normal (x : float) : bool :=
  match x with
  | Fin m e => ((m =? 0) && (e =? 0)) || Z.odd m
  | _ => true
  end.

(** Integer-valued numbers. *)
Definition integral (x : float) : bool :=
  match x with
  | Fin _ e => 0 <=? e
  | _ => false
  end.

Definition finite (x : float) : bool :=
  match x with
  | Fin _ _ => true
  | _ => false
  end.

Definition is_inf (x : float) : bool :=
  match x with
  | Inf _ => true
  | _ => false
  end.

(** [x == 0] *)
Definition is_zero (x : float) : bool :=
  match x with
  | Fin m _ => m =? 0
  | _ => false
  end.

(** The number [h / 2]. *)
Definition half (h : Z) : float := norm h (-1).

(** The same number in the Standard Library's specification of IEEE
    arithmetic, against which the operations above are tested. *)
Definition to_spec (x : float) : SpecFloat.spec_float :=
  match x with
  | Fin m e => SpecFloat.binary_normalize prec emax m e false
  | Inf b => SpecFloat.S754_infinity b
  | NaN => SpecFloat.S754_nan
  end.

Definition same_spec (a b : SpecFloat.spec_float) : bool :=
  match a, b with
  | SpecFloat.S754_nan, SpecFloat.S754_nan => true
  | _, _ => SpecFloat.SFeqb a b
  end.

(** Numbers [n * 2^e] on which rounding is tested: exact ones, ties,
    numbers next to ties, around the overflow threshold [2^1024 - 2^970]
    and among the subnormals. *)
Definition samples : list (Z * Z) :=
  [ (0, 5); (1, 0); (17, 0); (17, -1); (-21, -1); (2 ^ 53, 0);
    (2 ^ 53 + 1, 0); (2 ^ 53 + 2, 0); (2 ^ 53 + 3, 0);
    (5 * 2 ^ 53 + 10, 0); (2 ^ 54 + 2, 0); (2 ^ 54 + 5, 0);
    (2 ^ 54 + 6, 0); (2 ^ 54 + 7, 0); (- (2 ^ 54 + 6), 0);
    (10 ^ 308, 0); (10 ^ 309, 0); (- 10 ^ 309, 0);
    (2 ^ 1024 - 2 ^ 971, 0); (2 ^ 1024 - 2 ^ 970 - 1, 0);
    (2 ^ 1024 - 2 ^ 970, 0); (2 ^ 1024 - 1, 0);
    (2 ^ 53 - 1, 971); (2 ^ 53 - 1, 972); (2 ^ 54 - 1, 970);
    (1, -1074); (1, -1075); (3, -1075); (3, -1076); (5, -1076);
    (2 ^ 52, -1075); (2 ^ 52 + 1, -1075); (2 ^ 53 - 1, -1075);
    (2 ^ 53 + 1, -1074); (2 ^ 53 + 1, -1127); (2 ^ 53 + 3, -1128);
    (2 ^ 54 - 1, -1200); (12345678901234567890123, -30);
    (-12345678901234567890123, -30); (123456789012345678901235, -1090) ].

Definition sample_floats : list float :=
  Inf false :: Inf true :: NaN :: map (fun ne => round (fst ne) (snd ne)) samples.

End Float64.

(** ** Characters and strings *)

(** Python's [ord]. *)
Definition ord (c : ascii) : Z := Z.of_N (N_of_ascii c).

(** [\d] *)
Definition is_digit (c : ascii) : bool := (48 <=? ord c) && (ord c <=? 57).

(** [\s], and the separators of [str.split()] *)
Definition is_space (c : ascii) : bool :=
  ((9 <=? ord c) && (ord c <=? 13))
  || ((28 <=? ord c) && (ord c <=? 32))
  || (ord c =? 133) || (ord c =? 160).

(** [[+-]] *)
Definition is_sign (c : ascii) : bool := (ord c =? 43) || (ord c =? 45).

(** [[^+-]] *)
Definition is_not_sign (c : ascii) : bool := negb (is_sign c).

(** [[\d\sd+-]] *)
Definition is_valid_dice_char (c : ascii) : bool :=
  is_digit c || is_space c || (ord c =? 100) || is_sign c.

(** The longest prefix made of characters of a class, and what follows:
    a greedy [[...]*]. *)
Fixpoint span (p : ascii -> bool) (s : string) : string * string :=
  match s with
  | String c s' =>
      if p c then let (run, rest) := span p s' in (String c run, rest)
      else (EmptyString, s)
  | EmptyString => (EmptyString, EmptyString)
  end.

(** [$] without [re.MULTILINE]: the end of the string, or just before a
    newline that ends it. *)
Definition at_end (s : string) : bool :=
  match s with
  | EmptyString => true
  | String c EmptyString => ord c =? 10
  | String _ (String _ _) => false
  end.

(** [[+-]?] followed by something that rejects a sign: the optional sign
    is taken when there is one (giving it back cannot help). *)
Definition opt_sign (s : string) : string * string :=
  match s with
  | String c s' => if is_sign c then (String c EmptyString, s') else (EmptyString, s)
  | EmptyString => (EmptyString, EmptyString)
  end.

(** [pattern_valid_dice = re.compile(r'[\d\sd+-]+')], method [match]:
    anchored at the start of the string only.  The matched text. *)
Definition pattern_valid_dice_match (s : string) : option string :=
  match span is_valid_dice_char s with
  | (EmptyString, _) => None
  | (run, _) => Some run
  end.

(** [pattern_dice_segment = re.compile(r'[+-]?[^+-]+')] tried at the start
    of [s]: the matched text and what follows it. *)
Definition pattern_dice_segment_at (s : string) : option (string * string) :=
  let (sign, s1) := opt_sign s in
  match span is_not_sign s1 with
  | (EmptyString, _) => None
  | (run, rest) => Some ((sign ++ run)%string, rest)
  end.

(** [pattern_dice_segment.finditer]: the matches from left to right, each
    search resuming where the last match ended, and one character further
    where there is no match.  A match is never empty, so [fuel] bounds
    the characters left. *)
Fixpoint finditer_from (fuel : nat) (s : string) : list string :=
  match fuel with
  | O => []
  | S fuel' =>
      match s with
      | EmptyString => []
      | String _ s' =>
          match pattern_dice_segment_at s with
          | Some (segment, rest) => segment :: finditer_from fuel' rest
          | None => finditer_from fuel' s'
          end
      end
  end.

Definition pattern_dice_segment_finditer (s : string) : list string :=
  finditer_from (String.length s) s.

(** [pattern_die_roll = re.compile(r'^([+-]?\d+)d(\d+)$')], method
    [match]: groups 1 and 2. *)
Definition pattern_die_roll_match (s : string) : option (string * string) :=
  let (sign, s1) := opt_sign s in
  match span is_digit s1 with
  | (EmptyString, _) => None
  | (digits1, String c s2) =>
      if ord c =? 100 then
        match span is_digit s2 with
        | (EmptyString, _) => None
        | (digits2, s3) =>
            if at_end s3 then Some ((sign ++ digits1)%string, digits2) else None
        end
      else None
  | (_, EmptyString) => None
  end.

(** [pattern_die_bonus = re.compile(r'^([+-]?\d+)$')], method [match]:
    group 1. *)
Definition pattern_die_bonus_match (s : string) : option string :=
  let (sign, s1) := opt_sign s in
  match span is_digit s1 with
  | (EmptyString, _) => None
  | (digits1, s2) => if at_end s2 then Some (sign ++ digits1)%string else None
  end.

(** ["".join(s.split())] *)
Fixpoint remove_whitespace (s : string) : string :=
  match s with
  | String c s' =>
      if is_space c then remove_whitespace s' else String c (remove_whitespace s')
  | EmptyString => EmptyString
  end.

(** The number written by a run of decimal digits, after [acc]. *)
Fixpoint digits_value (acc : Z) (s : string) : option Z :=
  match s with
  | String c s' =>
      if is_digit c then digits_value (10 * acc + (ord c - 48)) s' else None
  | EmptyString => Some acc
  end.

(** [float(s)] on the literals [[+-]?\d+], which is all that the two
    segment patterns capture: the nearest binary64. *)
Definition py_float (s : string) : result Float64.float :=
  let (sign, digits) := opt_sign s in
  match digits with
  | EmptyString => Raise (FloatLiteralNotModelled s)
  | String _ _ =>
      match digits_value 0 digits with
      | Some n =>
          Return (Float64.of_int
                    (match sign with
                     | String c _ => if ord c =? 45 then - n else n
                     | EmptyString => n
                     end))
      | None => Raise (FloatLiteralNotModelled s)
      end
  end.

(** ** The class [DiceBag] *)

Module DiceBag.

(** [DiceBag.Die]: one segment of a dice string. *)
Record Die : Type := { quantity : Float64.float; size : Float64.float }.

(** The body of the loop of [__init__], for the segment
    [die.group(0)]: the [Die] that is appended, or the exception. *)
Definition parse_segment (segment : string) : result Die :=
  match pattern_die_roll_match segment with
  | Some (group1, group2) =>
      q <- py_float group1 ;;
      s <- py_float group2 ;;
      Return {| quantity := q; size := s |}
  | None =>
      match pattern_die_bonus_match segment with
      | Some group1 =>
          q <- py_float group1 ;;
          Return {| quantity := q; size := Float64.one |}
      | None => Raise (UnsupportedSegment segment)
      end
  end.

(** [for die in dice_iter: ... self.dice_bag.append(...)] *)
Fixpoint parse_segments (dice_iter : list string) (dice_bag : list Die)
  : result (list Die) :=
  match dice_iter with
  | [] => Return dice_bag
  | die :: dice_iter' =>
      d <- parse_segment die ;;
      parse_segments dice_iter' (dice_bag ++ [d])
  end.

(** [DiceBag.__init__]: the list [self.dice_bag] of the new object. *)
Definition init (dice_string : string) : result (list Die) :=
  match pattern_valid_dice_match dice_string with
  | None => Raise (InvalidString dice_string)
  | Some _ =>
      let dice_string := remove_whitespace dice_string in
      parse_segments (pattern_dice_segment_finditer dice_string) []
  end.

(** One turn of the loop of [average]:
    [val += die.quantity * (1.0 + die.size) / 2.0]. *)
Definition average_step (val : Float64.float) (die : Die) : Float64.float :=
  Float64.add val
    (Float64.div_two
       (Float64.mul (quantity die) (Float64.add Float64.one (size die)))).

(** [val] at the end of the loop of [average]. *)
Definition average_val (dice_bag : list Die) : Float64.float :=
  fold_left average_step dice_bag Float64.zero.

Definition average (dice_bag : list Die) : result Z :=
  Float64.to_int (average_val dice_bag).

Definition minimum_step (val : Float64.float) (die : Die) : Float64.float :=
  if Float64.leb Float64.zero (quantity die)
  then Float64.add val (Float64.mul (quantity die) (Float64.of_int 1))
  else Float64.add val (Float64.mul (quantity die) (size die)).

Definition minimum_val (dice_bag : list Die) : Float64.float :=
  fold_left minimum_step dice_bag Float64.zero.

Definition minimum (dice_bag : list Die) : result Z :=
  Float64.to_int (minimum_val dice_bag).

Definition maximum_step (val : Float64.float) (die : Die) : Float64.float :=
  if Float64.leb Float64.zero (quantity die)
  then Float64.add val (Float64.mul (quantity die) (size die))
  else Float64.add val (Float64.mul (quantity die) (Float64.of_int 1)).

Definition maximum_val (dice_bag : list Die) : Float64.float :=
  fold_left maximum_step dice_bag Float64.zero.

Definition maximum (dice_bag : list Die) : result Z :=
  Float64.to_int (maximum_val dice_bag).

Section Shake.

(** The source of randomness: [entropy i] feeds the draw number [i]. *)
Variable entropy : nat -> Z.

(** [random.randrange(stop)] as draw number [drawn]: some integer
    of [[0, stop)], every one of them for a suitable entropy, and an
    exception when the range is empty. *)
Definition randrange (stop : Z) (drawn : nat) : result (Z * nat) :=
  if stop <=? 0 then Raise EmptyRange
  else Return (entropy drawn mod stop, S drawn).

(** [for i in range(count): val += randrange(s) + 1], and with [-=]
    when [subtract] is set.  The state is [val] and the number of
    draws so far. *)
Fixpoint roll (subtract : bool) (count : nat) (s : Z) (state : Z * nat)
  : result (Z * nat) :=
  match count with
  | O => Return state
  | S count' =>
      r <- randrange s (snd state) ;;
      roll subtract count' s
        (if subtract then fst state - (fst r + 1) else fst state + (fst r + 1),
         snd r)
  end.

(** One turn of the loop of [shake]. *)
Definition shake_step (die : Die) (state : Z * nat) : result (Z * nat) :=
  q <- Float64.to_int (quantity die) ;;
  s <- Float64.to_int (size die) ;;
  if 0 <? q then roll false (Z.to_nat q) s state
  else if q <? 0 then roll true (Z.to_nat (Z.abs q)) s state
  else Return state.

Fixpoint shake_loop (dice_bag : list Die) (state : Z * nat)
  : result (Z * nat) :=
  match dice_bag with
  | [] => Return state
  | die :: dice_bag' =>
      state' <- shake_step die state ;;
      shake_loop dice_bag' state'
  end.

Definition shake (dice_bag : list Die) : result Z :=
  state <- shake_loop dice_bag (0, O) ;;
  Return (fst state).

End Shake.

(** *** Vocabulary of the statements *)

(** The die that the segment [q]d[s] denotes. *)
Definition dice (q s : Z) : Die :=
  {| quantity := Float64.of_int q; size := Float64.of_int s |}.

(** What the constructor builds from a segment. *)
Definition parsed (die : Die) : Prop :=
  exists q s, 0 <= s /\ die = dice q s.

(** What the constructor stores in a field: an integer in normal form,
    or an infinity. *)
Definition stored (x : Float64.float) : bool :=
  Float64.is_inf x || (Float64.integral x && Float64.normal x).

Definition well_formed (die : Die) : bool :=
  stored (quantity die) && stored (size die)
  && Float64.leb Float64.zero (size die).

(** A die that can be rolled: no die at all, or at least one side. *)
Definition rollable (die : Die) : bool :=
  Float64.is_zero (quantity die) || Float64.leb Float64.one (size die).

(** [(|quantity| + 1) * (size + 1)], above every number that the
    evaluation of the die goes through, and above twice its average. *)
Definition weight (die : Die) : Z :=
  match Float64.to_int (quantity die), Float64.to_int (size die) with
  | Return q, Return s => (Z.abs q + 1) * (s + 1)
  | _, _ => 2 ^ 53
  end.

Definition total_weight (dice_bag : list Die) : Z :=
  fold_right (fun die w => weight die + w) 0 dice_bag.

(** Bags of rollable dice on which binary64 arithmetic is exact. *)
Definition exact (dice_bag : list Die) : bool :=
  forallb rollable dice_bag && (total_weight dice_bag <? 2 ^ 53).

End DiceBag.

(** Every character of a string is in a class. *)
Fixpoint all_chars (p : ascii -> bool) (s : string) : bool :=
  match s with
  | String c s' => p c && all_chars p s'
  | EmptyString => true
  end.

(** The end of the string, or a sign: where no segment can go on. *)
Definition at_sign_or_end (s : string) : bool :=
  match s with
  | String c _ => is_sign c
  | EmptyString => true
  end.

(** [n] times the character [c]. *)
Fixpoint replicate (n : nat) (c : ascii) : string :=
  match n with
  | O => EmptyString
  | S n' => String c (replicate n' c)
  end.

(** ** The integers behind a bag *)

Module Ideal.

(** The integer that a field holds ([0] for an infinity or NaN). *)
Definition int_of (x : Float64.float) : Z :=
  match Float64.to_int x with
  | Return n => n
  | Raise _ => 0
  end.

(** What a die adds to the minimum, in integers: [quantity * 1] or
    [quantity * size]. *)
Definition minimum_term (die : DiceBag.Die) : Z :=
  let q := int_of (DiceBag.quantity die) in
  let s := int_of (DiceBag.size die) in
  if 0 <=? q then q else q * s.

Definition maximum_term (die : DiceBag.Die) : Z :=
  let q := int_of (DiceBag.quantity die) in
  let s := int_of (DiceBag.size die) in
  if 0 <=? q then q * s else q.

(** Twice what a die adds to the average: [quantity * (1 + size)]. *)
Definition twice_average_term (die : DiceBag.Die) : Z :=
  int_of (DiceBag.quantity die) * (1 + int_of (DiceBag.size die)).

Definition sum (term : DiceBag.Die -> Z) (dice_bag : list DiceBag.Die) : Z :=
  fold_right (fun die total => term die + total) 0 dice_bag.

(** The number of draws that [shake] makes for a die. *)
Definition draws (die : DiceBag.Die) : nat :=
  Z.to_nat (Z.abs (int_of (DiceBag.quantity die))).

Definition total_draws (dice_bag : list DiceBag.Die) : nat :=
  fold_right (fun die total => (draws die + total)%nat) O dice_bag.

(** An entropy source that reads a list of draws, then zeros. *)
Definition entropy_of (draws : list Z) : nat -> Z :=
  fun i => nth i draws 0.

(** The draws on which every die that is added shows its first side and
    every die that is subtracted its last side, and the other way
    round: an entry [0] makes [randrange(s)] return [0], an entry [-1]
    makes it return [s - 1]. *)
Definition lowest_draws (dice_bag : list DiceBag.Die) : list Z :=
  flat_map
    (fun die =>
       repeat (if 0 <? int_of (DiceBag.quantity die) then 0 else -1) (draws die))
    dice_bag.

Definition highest_draws (dice_bag : list DiceBag.Die) : list Z :=
  flat_map
    (fun die =>
       repeat (if 0 <? int_of (DiceBag.quantity die) then -1 else 0) (draws die))
    dice_bag.

End Ideal.

(** ** Reading segments *)

(** A run of decimal digits that is not empty: [\d+]. *)
Definition is_digits (s : string) : bool :=
  match s with
  | EmptyString => false
  | String _ _ => all_chars is_digit s
  end.

(** The number that a run of decimal digits writes ([0] when it is not
    one). *)
Definition digits_number (s : string) : Z :=
  match digits_value 0 s with
  | Some n => n
  | None => 0
  end.

(** The letter [d]. *)
Definition is_letter_d (c : ascii) : bool := ord c =? 100.

(** An optional sign: [[+-]?]. *)
Definition is_opt_sign (s : string) : bool :=
  match s with
  | EmptyString => true
  | String c EmptyString => is_sign c
  | String _ (String _ _) => false
  end.

(** The number [n] under an optional sign. *)
Definition signed (sign : string) (n : Z) : Z :=
  match sign with
  | String c _ => if ord c =? 45 then - n else n
  | EmptyString => n
  end.

(** ** cp437_to_unicode

    A glyph string is a list of Unicode code points.  The two tables that
    the function reads are parameters of the embedding: [decoding_table]
    is the table of Python's [cp437] codec, which maps each of the 256
    byte values to a code point, and [cp437_conv] is the dictionary that
    the module fills from [IBMGRAPH.TXT] when it is loaded. *)

Module Cp437.

Inductive error : Type :=
| KeyError (key : Z)
    (* cp437_conv[val] without such a key *)
| ValueError.
    (* bytes.fromhex: non-hexadecimal number found in fromhex() arg *)

Inductive outcome (A : Type) : Type :=
| Returned (a : A)
| Raised (e : error).

Arguments Returned {A} a.
Arguments Raised {A} e.

(** One lower-case hexadecimal digit. *)
Definition hex_digit (d : Z) : ascii :=
  ascii_of_N (Z.to_N (if d <? 10 then 48 + d else 87 + d)).

(** The hexadecimal digits of [0 <= n] before [acc], most significant
    first, without leading zeros.  [fuel] bounds their number. *)
Fixpoint hex_from (fuel : nat) (n : Z) (acc : string) : string :=
  match fuel with
  | O => acc
  | S fuel' =>
      let acc' := String (hex_digit (n mod 16)) acc in
      if n <? 16 then acc' else hex_from fuel' (n / 16) acc'
  end.

Definition hex_digits (n : Z) : string :=
  hex_from (S (Z.to_nat (Z.log2 n))) n EmptyString.

(** Python's [hex(n)]. *)
Definition hex (n : Z) : string :=
  if n <? 0 then "-0x" ++ hex_digits (- n) else "0x" ++ hex_digits n.

(** The slice [s[n:]]. *)
Fixpoint slice_from (n : nat) (s : string) : string :=
  match n, s with
  | O, _ => s
  | S n', String _ s' => slice_from n' s'
  | S _, EmptyString => EmptyString
  end.

(** The value of a hexadecimal digit of either case. *)
Definition hex_value (c : ascii) : option Z :=
  if (48 <=? ord c) && (ord c <=? 57) then Some (ord c - 48)
  else if (97 <=? ord c) && (ord c <=? 102) then Some (ord c - 87)
  else if (65 <=? ord c) && (ord c <=? 70) then Some (ord c - 55)
  else None.

(** The whitespace that [bytes.fromhex] skips between bytes. *)
Definition is_ascii_space (c : ascii) : bool :=
  ((9 <=? ord c) && (ord c <=? 13)) || (ord c =? 32).

(** [bytes.fromhex(s)]: two digits a byte, whitespace allowed before a
    byte and at the end. *)
Fixpoint fromhex (s : string) : outcome (list Z) :=
  match s with
  | EmptyString => Returned []
  | String c s' =>
      if is_ascii_space c then fromhex s'
      else
        match s' with
        | EmptyString => Raised ValueError
        | String c' s'' =>
            match hex_value c, hex_value c' with
            | Some high, Some low =>
                match fromhex s'' with
                | Returned bytes => Returned (16 * high + low :: bytes)
                | Raised e => Raised e
                end
            | _, _ => Raised ValueError
            end
        end
  end.

Section Tables.
Variable decoding_table : Z -> Z.
Variable cp437_conv : Z -> option (list Z).

(** [byte.decode(encoding='cp437')]. *)
Definition decode (bytes : list Z) : list Z := map decoding_table bytes.

Definition cp437_to_unicode (val : Z) : outcome (list Z) :=
  if 31 <? val then
    let hex_val := slice_from 2 (hex val) in
    let hex_val :=
      if (String.length hex_val =? 1)%nat then String "0" hex_val else hex_val in
    match fromhex hex_val with
    | Returned byte => Returned (decode byte)
    | Raised e => Raised e
    end
  else
    match cp437_conv val with
    | Some glyph => Returned glyph
    | None => Raised (KeyError val)
    end.
End Tables.

(** The number that a list of bytes writes, most significant first:
    [int.from_bytes(bytes, 'big')], from [a]. *)
Definition from_bytes (a : Z) (bytes : list Z) : Z :=
  fold_left (fun a byte => 256 * a + byte) bytes a.

(** The number that a run of hexadecimal digits writes, from [a]. *)
Fixpoint hex_number (a : Z) (s : string) : option Z :=
  match s with
  | EmptyString => Some a
  | String c s' =>
      match hex_value c with
      | Some d => hex_number (16 * a + d) s'
      | None => None
      end
  end.

End Cp437.

(** * Facts on binary64 *)

Module Float64Facts.
Import Float64.

Lemma ctz_nonneg (p : positive) : 0 <= ctz p.
Proof. induction p; simpl; lia. Qed.

Lemma odd_part_spec (p : positive) :
  Zpos p = Zpos (odd_part p) * 2 ^ ctz p.
Proof.
  induction p as [p IH | p IH |]; simpl ctz; simpl odd_part;
    try (rewrite Z.pow_0_r; lia).
  rewrite Z.pow_succ_r by apply ctz_nonneg.
  rewrite Pos2Z.inj_xO, IH at 1. ring.
Qed.

Lemma odd_part_odd (p : positive) : Z.odd (Zpos (odd_part p)) = true.
Proof. induction p; simpl; auto. Qed.

(** Doubling the mantissa is the same as adding one to the exponent. *)
Lemma norm_double (n e : Z) : norm (2 * n) e = norm n (e + 1).
Proof.
  destruct n as [| p | p]; simpl; try reflexivity; f_equal; lia.
Qed.

Lemma norm_shift (n e k : Z) : 0 <= k -> norm (n * 2 ^ k) e = norm n (e + k).
Proof.
  intros Hk. revert e. pattern k. apply natlike_ind; [| | exact Hk].
  - intros e. rewrite Z.pow_0_r, Z.mul_1_r, Z.add_0_r. reflexivity.
  - intros x Hx IH e. rewrite Z.pow_succ_r by exact Hx.
    replace (n * (2 * 2 ^ x)) with (2 * (n * 2 ^ x)) by ring.
    rewrite norm_double, IH. f_equal. lia.
Qed.

(** The normal form denotes the same number. *)
Lemma norm_inv (n e : Z) :
  e <= 0 ->
  exists m e', norm n e = Fin m e' /\ e <= e' /\ n = m * 2 ^ (e' - e)
               /\ normal (Fin m e') = true.
Proof.
  intros He. destruct n as [| p | p]; simpl norm.
  - exists 0, 0. repeat split; auto; lia.
  - exists (Zpos (odd_part p)), (e + ctz p).
    pose proof (ctz_nonneg p). repeat split; try lia.
    + replace (e + ctz p - e) with (ctz p) by lia. apply odd_part_spec.
    + unfold normal. rewrite odd_part_odd. apply orb_true_r.
  - exists (Zneg (odd_part p)), (e + ctz p).
    pose proof (ctz_nonneg p). repeat split; try lia.
    + replace (e + ctz p - e) with (ctz p) by lia.
      change (Zneg p) with (- Zpos p). rewrite (odd_part_spec p) at 1.
      change (Zneg (odd_part p)) with (- Zpos (odd_part p)). ring.
    + unfold normal. change (Zneg (odd_part p)) with (- Zpos (odd_part p)).
      rewrite Z.odd_opp, odd_part_odd. apply orb_true_r.
Qed.

Lemma norm_of_normal (m e : Z) :
  normal (Fin m e) = true -> norm m e = Fin m e.
Proof.
  unfold normal. intros H.
  apply orb_true_iff in H. destruct H as [H | H].
  - apply andb_true_iff in H. destruct H as [Hm He].
    apply Z.eqb_eq in Hm, He. subst. reflexivity.
  - destruct m as [| p | p]; simpl in H; try discriminate;
      destruct p; simpl in H; try discriminate; simpl; f_equal; lia.
Qed.

Lemma bits_small (n : Z) : Z.abs n < 2 ^ 53 -> bits n <= 53.
Proof.
  intros H. unfold bits.
  destruct (Z.eq_dec n 0) as [-> | Hn]; [simpl; lia |].
  assert (Z.log2 (Z.abs n) < 53) by (apply Z.log2_lt_pow2; lia).
  lia.
Qed.

Lemma round_zero (e : Z) : round 0 e = Fin 0 0.
Proof.
  unfold round. simpl Z.abs.
  destruct (0 <? Z.max (bits 0 - prec) (emin - e)) eqn:Hsh; [| reflexivity].
  apply Z.ltb_lt in Hsh.
  assert (H0 : round_half_even 0 (Z.max (bits 0 - prec) (emin - e)) = 0).
  { unfold round_half_even. rewrite Z.shiftr_0_l, Z.shiftl_0_l.
    assert (0 < 2 ^ (Z.max (bits 0 - prec) (emin - e) - 1))
      by (apply Z.pow_pos_nonneg; lia).
    destruct (Z.compare_spec (0 - 0) (2 ^ (Z.max (bits 0 - prec) (emin - e) - 1)));
      try lia; reflexivity. }
  rewrite H0. reflexivity.
Qed.

(** Rounding keeps a number that fits. *)
Lemma round_small (n e : Z) :
  Z.abs n < 2 ^ 53 -> emin <= e -> e <= 900 -> round n e = norm n e.
Proof.
  intros Hn He1 He2.
  destruct (Z.eq_dec n 0) as [-> | Hz]; [apply round_zero |].
  pose proof (bits_small n Hn) as Hb.
  unfold round, prec, emax in *.
  assert (Hsh : (0 <? Z.max (bits n - 53) (emin - e)) = false)
    by (apply Z.ltb_ge; lia).
  rewrite Hsh.
  assert (Ha : (Z.abs n =? 0) = false) by (apply Z.eqb_neq; lia).
  rewrite Ha.
  assert (Hbits : bits (Z.abs n) = bits n)
    by (unfold bits; rewrite Z.abs_idemp; reflexivity).
  rewrite Hbits.
  assert (Ho : (1024 <? bits n + e) = false) by (apply Z.ltb_ge; lia).
  rewrite Ho. replace (Z.sgn n * Z.abs n) with n by lia. reflexivity.
Qed.

(** Rounding [N * 2^E] when it is the small number [v * 2^e]. *)
Lemma round_exact (N E v e : Z) :
  e <= E -> N * 2 ^ (E - e) = v -> Z.abs v < 2 ^ 53 ->
  emin <= e -> e <= 0 ->
  round N E = norm v e.
Proof.
  intros HE Hv Hsmall He1 He2.
  destruct (Z.eq_dec N 0) as [-> | HN].
  - simpl in Hv. subst v. apply round_zero.
  - assert (Hpow : 0 < 2 ^ (E - e)) by (apply Z.pow_pos_nonneg; lia).
    assert (Habs : Z.abs v = Z.abs N * 2 ^ (E - e))
      by (rewrite <- Hv, Z.abs_mul, (Z.abs_eq (2 ^ _)); lia).
    assert (HNs : Z.abs N < 2 ^ 53) by nia.
    assert (HE2 : E - e < 53).
    { destruct (Z_lt_le_dec (E - e) 53) as [Hlt | Hge]; [exact Hlt |].
      assert (2 ^ 53 <= 2 ^ (E - e)) by (apply Z.pow_le_mono_r; lia).
      nia. }
    rewrite round_small by (unfold emin in *; lia).
    rewrite <- Hv, norm_shift by lia. f_equal. lia.
Qed.

Lemma add_norm (a b e : Z) :
  emin <= e -> e <= 0 -> Z.abs (a + b) < 2 ^ 53 ->
  add (norm a e) (norm b e) = norm (a + b) e.
Proof.
  intros He1 He2 Hs.
  destruct (norm_inv a e He2) as (ma & ea & -> & Hea & Ha & _).
  destruct (norm_inv b e He2) as (mb & eb & -> & Heb & Hb & _).
  unfold add. apply round_exact; try lia.
  rewrite Z.mul_add_distr_r, <- !Z.mul_assoc, <- !Z.pow_add_r by lia.
  replace (ea - Z.min ea eb + (Z.min ea eb - e)) with (ea - e) by lia.
  replace (eb - Z.min ea eb + (Z.min ea eb - e)) with (eb - e) by lia.
  lia.
Qed.

Lemma mul_norm (a b e1 e2 : Z) :
  e1 <= 0 -> e2 <= 0 -> emin <= e1 + e2 -> Z.abs (a * b) < 2 ^ 53 ->
  mul (norm a e1) (norm b e2) = norm (a * b) (e1 + e2).
Proof.
  intros He1 He2 He Hs.
  destruct (norm_inv a e1 He1) as (ma & ea & -> & Hea & Ha & _).
  destruct (norm_inv b e2 He2) as (mb & eb & -> & Heb & Hb & _).
  unfold mul. apply round_exact; try lia.
  replace (ea + eb - (e1 + e2)) with ((ea - e1) + (eb - e2)) by lia.
  rewrite Z.pow_add_r by lia. rewrite Ha, Hb. ring.
Qed.

Lemma div_two_norm (a e : Z) :
  emin < e -> e <= 0 -> Z.abs a < 2 ^ 53 ->
  div_two (norm a e) = norm a (e - 1).
Proof.
  intros He1 He2 Hs.
  destruct (norm_inv a e He2) as (ma & ea & -> & Hea & Ha & _).
  unfold div_two. apply round_exact; try lia.
  replace (ea - 1 - (e - 1)) with (ea - e) by lia. lia.
Qed.

Lemma leb_norm (a b e : Z) :
  e <= 0 -> leb (norm a e) (norm b e) = (a <=? b).
Proof.
  intros He.
  destruct (norm_inv a e He) as (ma & ea & -> & Hea & Ha & _).
  destruct (norm_inv b e He) as (mb & eb & -> & Heb & Hb & _).
  unfold leb.
  assert (Hp : 0 < 2 ^ (Z.min ea eb - e)) by (apply Z.pow_pos_nonneg; lia).
  assert (Ha' : a = ma * 2 ^ (ea - Z.min ea eb) * 2 ^ (Z.min ea eb - e)).
  { rewrite <- Z.mul_assoc, <- Z.pow_add_r by lia.
    replace (ea - Z.min ea eb + (Z.min ea eb - e)) with (ea - e) by lia.
    exact Ha. }
  assert (Hb' : b = mb * 2 ^ (eb - Z.min ea eb) * 2 ^ (Z.min ea eb - e)).
  { rewrite <- Z.mul_assoc, <- Z.pow_add_r by lia.
    replace (eb - Z.min ea eb + (Z.min ea eb - e)) with (eb - e) by lia.
    exact Hb. }
  apply eq_true_iff_eq. rewrite !Z.leb_le, Ha', Hb'.
  apply Z.mul_le_mono_pos_r. exact Hp.
Qed.

Lemma to_int_norm (n : Z) : to_int (norm n 0) = Return n.
Proof.
  destruct (norm_inv n 0 (Z.le_refl 0)) as (m & e & -> & He & Hn & _).
  unfold to_int. assert (H : (0 <=? e) = true) by (apply Z.leb_le; lia).
  rewrite H, Hn. replace (e - 0) with e by lia. reflexivity.
Qed.

Lemma to_int_half (h : Z) : to_int (half h) = Return (Z.quot h 2).
Proof.
  unfold half.
  destruct (norm_inv h (-1)) as (m & e & -> & He & Hh & _); [lia |].
  unfold to_int. f_equal.
  destruct (Z.leb_spec 0 e) as [H0 | H0].
  - replace (e - -1) with (Z.succ e) in Hh by lia.
    rewrite Z.pow_succ_r in Hh by lia.
    rewrite Hh. replace (m * (2 * 2 ^ e)) with (m * 2 ^ e * 2) by ring.
    rewrite Z.quot_mul by lia. reflexivity.
  - assert (e = -1) by lia. subst e. simpl in Hh.
    rewrite Hh, Z.mul_1_r. reflexivity.
Qed.

Lemma of_int_small (n : Z) : Z.abs n < 2 ^ 53 -> of_int n = norm n 0.
Proof.
  intros H. unfold of_int. apply round_small; unfold emin; lia.
Qed.

Lemma half_double (n : Z) : half (2 * n) = norm n 0.
Proof. unfold half. rewrite norm_double. reflexivity. Qed.

(** An integer in normal form is the normal form of its [int()]. *)
Lemma integral_normal_to_int (x : float) (v : Z) :
  integral x = true -> normal x = true -> to_int x = Return v ->
  x = norm v 0.
Proof.
  destruct x as [m e | |]; simpl; try discriminate.
  intros He Hn Hv. rewrite He in Hv. injection Hv as <-.
  apply Z.leb_le in He.
  rewrite norm_shift by exact He. simpl.
  symmetry. apply norm_of_normal. exact Hn.
Qed.

Lemma norm_stored (n e : Z) :
  0 <= e -> DiceBag.stored (norm n e) = true.
Proof.
  intros He. unfold DiceBag.stored.
  destruct n as [| p | p]; [reflexivity | |];
    pose proof (ctz_nonneg p) as Hc;
    cbn [norm is_inf integral normal orb];
    replace (0 <=? e + ctz p) with true by (symmetry; apply Z.leb_le; lia).
  - rewrite odd_part_odd, orb_true_r. reflexivity.
  - change (Zneg (odd_part p)) with (- Zpos (odd_part p)).
    rewrite Z.odd_opp, odd_part_odd, orb_true_r. reflexivity.
Qed.

Lemma round_stored (n e : Z) : 0 <= e -> DiceBag.stored (round n e) = true.
Proof.
  intros He. unfold round.
  destruct (_ =? 0); [reflexivity |].
  destruct (emax <? _); [reflexivity |].
  apply norm_stored.
  destruct (0 <? Z.max (bits n - prec) (emin - e)) eqn:Hsh; [| exact He].
  apply Z.ltb_lt in Hsh. lia.
Qed.

Lemma norm_nonneg (n e : Z) : 0 <= n -> leb zero (norm n e) = true.
Proof.
  intros Hn. destruct n as [| p | p]; [reflexivity | | lia].
  unfold norm, zero, leb. apply Z.leb_le.
  assert (0 <= 2 ^ (e + ctz p - Z.min 0 (e + ctz p)))
    by (apply Z.pow_nonneg; lia).
  rewrite Z.mul_0_l. apply Z.mul_nonneg_nonneg; lia.
Qed.

Lemma round_half_even_nonneg (a sh : Z) : 0 <= a -> 0 <= round_half_even a sh.
Proof.
  intros Ha. unfold round_half_even.
  assert (0 <= Z.shiftr a sh) by (apply Z.shiftr_nonneg; exact Ha).
  destruct (_ ?= _); [destruct (Z.even _) |..]; lia.
Qed.

Lemma round_nonneg (n e : Z) : 0 <= n -> leb zero (round n e) = true.
Proof.
  intros Hn. unfold round.
  destruct (_ =? 0); [reflexivity |].
  destruct (emax <? _).
  - replace (n <? 0) with false by (symmetry; apply Z.ltb_ge; exact Hn).
    reflexivity.
  - apply norm_nonneg.
    assert (0 <= Z.sgn n) by lia.
    apply Z.mul_nonneg_nonneg; [assumption |].
    destruct (0 <? _); [apply round_half_even_nonneg |]; lia.
Qed.

End Float64Facts.

(** * Facts on characters, strings and the four patterns *)

Ltac ascii_cases c :=
  destruct c as [[] [] [] [] [] [] [] []]; vm_compute; try reflexivity;
  try discriminate; auto.

Lemma digit_not_sign (c : ascii) : is_digit c = true -> is_sign c = false.
Proof. ascii_cases c. Qed.

Lemma digit_not_space (c : ascii) : is_digit c = true -> is_space c = false.
Proof. ascii_cases c. Qed.

Lemma digit_value_nonneg (c : ascii) : is_digit c = true -> 0 <= ord c - 48.
Proof.
  unfold is_digit. intros H. apply andb_true_iff in H.
  destruct H as [H _]. apply Z.leb_le in H. lia.
Qed.

Lemma sign_valid (c : ascii) : is_sign c = true -> is_valid_dice_char c = true.
Proof. ascii_cases c. Qed.

Lemma span_spec (p : ascii -> bool) (s run rest : string) :
  span p s = (run, rest) ->
  s = (run ++ rest)%string /\ all_chars p run = true
  /\ match rest with String c _ => p c = false | EmptyString => True end.
Proof.
  revert run rest. induction s as [| c s IH]; intros run rest H; simpl in H.
  - injection H as <- <-. auto.
  - destruct (p c) eqn:Hc.
    + destruct (span p s) as [run' rest'] eqn:E. injection H as <- <-.
      destruct (IH run' rest' eq_refl) as (-> & Hall & Hrest).
      simpl. rewrite Hc. auto.
    + injection H as <- <-. simpl. auto.
Qed.

Lemma digits_value_all (s : string) (acc : Z) :
  all_chars is_digit s = true -> 0 <= acc ->
  exists n, digits_value acc s = Some n /\ 0 <= n.
Proof.
  revert acc. induction s as [| c s IH]; intros acc Hall Hacc;
    cbn [digits_value].
  - eauto.
  - cbn [all_chars] in Hall. apply andb_true_iff in Hall. destruct Hall as [Hc Hs].
    rewrite Hc. apply IH; [exact Hs |].
    pose proof (digit_value_nonneg c Hc). lia.
Qed.

Lemma opt_sign_cases (s sign s1 : string) :
  opt_sign s = (sign, s1) ->
  (sign = EmptyString /\ s1 = s
   /\ match s with String c _ => is_sign c = false | EmptyString => True end)
  \/ (exists c, is_sign c = true /\ sign = String c EmptyString /\ s = String c s1).
Proof.
  destruct s as [| c s]; simpl.
  - intros H. injection H as <- <-. auto.
  - destruct (is_sign c) eqn:Hc; intros H; injection H as <- <-.
    + right. exists c. auto.
    + left. auto.
Qed.

(** ** [float()] on what the patterns capture *)

Lemma py_float_digits (c : ascii) (ds : string) :
  all_chars is_digit (String c ds) = true ->
  exists n, 0 <= n /\ py_float (String c ds) = Return (Float64.of_int n).
Proof.
  intros Hall.
  destruct (digits_value_all _ 0 Hall (Z.le_refl 0)) as (n & Hn & Hpos).
  exists n. split; [exact Hpos |].
  cbn [all_chars] in Hall. apply andb_true_iff in Hall. destruct Hall as [Hc _].
  unfold py_float, opt_sign. rewrite (digit_not_sign c Hc), Hn. reflexivity.
Qed.

Lemma py_float_signed (c d : ascii) (ds : string) :
  is_sign c = true -> all_chars is_digit (String d ds) = true ->
  exists n, py_float (String c (String d ds)) = Return (Float64.of_int n).
Proof.
  intros Hc Hall.
  destruct (digits_value_all _ 0 Hall (Z.le_refl 0)) as (n & Hn & _).
  unfold py_float, opt_sign. rewrite Hc, Hn. eauto.
Qed.

Lemma py_float_group1 (s sign s1 rest : string) (d : ascii) (ds : string) :
  opt_sign s = (sign, s1) -> span is_digit s1 = (String d ds, rest) ->
  exists n, py_float (sign ++ String d ds) = Return (Float64.of_int n).
Proof.
  intros Hs Hd. apply span_spec in Hd. destruct Hd as (_ & Hall & _).
  destruct (opt_sign_cases _ _ _ Hs) as [(-> & _) | (c & Hc & -> & _)].
  - destruct (py_float_digits d ds Hall) as (n & _ & Hn). eauto.
  - apply (py_float_signed c d ds Hc Hall).
Qed.

Lemma py_float_group2 (s rest : string) (d : ascii) (ds : string) :
  span is_digit s = (String d ds, rest) ->
  exists n, 0 <= n /\ py_float (String d ds) = Return (Float64.of_int n).
Proof.
  intros Hd. apply span_spec in Hd. destruct Hd as (_ & Hall & _).
  apply py_float_digits. exact Hall.
Qed.

(** ** The constructor *)

Module DiceBagFacts.
Import DiceBag.

Lemma parsed_well_formed (die : Die) : parsed die -> well_formed die = true.
Proof.
  intros (q & s & Hs & ->). unfold well_formed, dice, Float64.of_int.
  cbn [quantity size].
  rewrite !Float64Facts.round_stored by lia.
  rewrite Float64Facts.round_nonneg by exact Hs. reflexivity.
Qed.

(** A segment either gives a die or is refused as such. *)
Lemma parse_segment_cases (segment : string) :
  (exists die, parse_segment segment = Return die /\ parsed die)
  \/ parse_segment segment = Raise (UnsupportedSegment segment).
Proof.
  unfold parse_segment, pattern_die_roll_match, pattern_die_bonus_match.
  destruct (opt_sign segment) as [sign s1] eqn:Hsign.
  destruct (span is_digit s1) as [[| d1 ds1] r1] eqn:Hd1; [right; reflexivity |].
  destruct (py_float_group1 _ _ _ _ _ _ Hsign Hd1) as (n1 & Hn1).
  assert (Hbonus :
    (exists die,
        match (if at_end r1 then Some (sign ++ String d1 ds1)%string else None) with
        | Some group1 =>
            q <- py_float group1 ;;
            Return {| quantity := q; size := Float64.one |}
        | None => Raise (UnsupportedSegment segment)
        end = Return die /\ parsed die)
    \/ match (if at_end r1 then Some (sign ++ String d1 ds1)%string else None) with
       | Some group1 =>
           q <- py_float group1 ;;
           Return {| quantity := q; size := Float64.one |}
       | None => Raise (UnsupportedSegment segment)
       end = Raise (UnsupportedSegment segment)).
  { destruct (at_end r1); [left | right; reflexivity].
    rewrite Hn1. cbn [bind]. eexists. split; [reflexivity |].
    exists n1, 1. split; [lia | reflexivity]. }
  destruct r1 as [| c r1]; [exact Hbonus |].
  destruct (ord c =? 100); [| exact Hbonus].
  destruct (span is_digit r1) as [[| d2 ds2] r2] eqn:Hd2; [exact Hbonus |].
  destruct (at_end r2); [| exact Hbonus].
  destruct (py_float_group2 _ _ _ _ Hd2) as (n2 & Hpos & Hn2).
  left. rewrite Hn1, Hn2. cbn [bind]. eexists. split; [reflexivity |].
  exists n1, n2. split; [exact Hpos | reflexivity].
Qed.

Lemma parse_segments_spec (dice_iter : list string) :
  forall dice_bag,
    (exists dice, parse_segments dice_iter dice_bag = Return (dice_bag ++ dice)%list
                  /\ List.length dice = List.length dice_iter
                  /\ Forall parsed dice)
    \/ (exists segment, In segment dice_iter
                        /\ parse_segments dice_iter dice_bag
                           = Raise (UnsupportedSegment segment)).
Proof.
  induction dice_iter as [| segment dice_iter IH]; intros dice_bag;
    cbn [parse_segments].
  - left. exists []. rewrite app_nil_r. auto.
  - destruct (parse_segment_cases segment) as [(die & -> & Hwf) | ->];
      cbn [bind].
    + destruct (IH (dice_bag ++ [die])%list) as [(dice & Hp & Hlen & Hall) | (s & Hin & Hp)].
      * left. exists (die :: dice). rewrite Hp, <- app_assoc. cbn.
        rewrite Hlen. auto.
      * right. exists s. split; [right; exact Hin | exact Hp].
    + right. exists segment. split; [left; reflexivity | reflexivity].
Qed.

(** The constructor stores one die per segment. *)
Lemma init_spec (dice_string : string) (dice_bag : list Die) :
  init dice_string = Return dice_bag ->
  Forall parsed dice_bag
  /\ forallb well_formed dice_bag = true
  /\ List.length dice_bag
     = List.length (pattern_dice_segment_finditer (remove_whitespace dice_string)).
Proof.
  unfold init.
  destruct (pattern_valid_dice_match dice_string) as [run |]; [| discriminate].
  destruct (parse_segments_spec
              (pattern_dice_segment_finditer (remove_whitespace dice_string)) [])
    as [(dice & -> & Hlen & Hall) | (s & _ & ->)]; [| discriminate].
  intros H. injection H as <-. repeat split; auto.
  apply forallb_forall. intros die Hin.
  apply parsed_well_formed. rewrite Forall_forall in Hall. auto.
Qed.

(** The constructor returns, or raises one of its two errors. *)
Lemma init_cases (dice_string : string) :
  (exists dice_bag, init dice_string = Return dice_bag)
  \/ init dice_string = Raise (InvalidString dice_string)
  \/ exists segment, init dice_string = Raise (UnsupportedSegment segment).
Proof.
  unfold init.
  destruct (pattern_valid_dice_match dice_string) as [run |]; [| auto].
  destruct (parse_segments_spec
              (pattern_dice_segment_finditer (remove_whitespace dice_string)) [])
    as [(dice & -> & _) | (s & _ & ->)]; eauto.
Qed.

End DiceBagFacts.

Module RoundingFacts.
Import Float64 Float64Facts.

Lemma bits_mul_pow2 (n j : Z) :
  n <> 0 -> 0 <= j -> bits (n * 2 ^ j) = bits n + j.
Proof.
  intros Hn Hj. unfold bits.
  assert (Hp : 0 < 2 ^ j) by (apply Z.pow_pos_nonneg; lia).
  rewrite Z.abs_mul, (Z.abs_eq (2 ^ j)) by lia.
  rewrite Z.log2_mul_pow2 by lia. lia.
Qed.

Lemma bits_opp (n : Z) : bits (- n) = bits n.
Proof. unfold bits. rewrite Z.abs_opp. reflexivity. Qed.

Lemma bits_abs (n : Z) : bits (Z.abs n) = bits n.
Proof. unfold bits. rewrite Z.abs_idemp. reflexivity. Qed.

(** [2^(bits n - 1) <= |n| < 2^(bits n)] *)
Lemma bits_spec (n : Z) :
  n <> 0 -> 2 ^ (bits n - 1) <= Z.abs n < 2 ^ bits n.
Proof.
  intros Hn. unfold bits.
  replace (Z.log2 (Z.abs n) + 1 - 1) with (Z.log2 (Z.abs n)) by lia.
  replace (Z.log2 (Z.abs n) + 1) with (Z.succ (Z.log2 (Z.abs n))) by lia.
  apply Z.log2_spec. lia.
Qed.

Lemma bits_le_mono (a b : Z) : 0 <= a <= b -> bits a <= bits b.
Proof.
  intros H. unfold bits. rewrite !Z.abs_eq by lia.
  pose proof (Z.log2_le_mono a b ltac:(lia)). lia.
Qed.

Lemma bits_pos (n : Z) : 1 <= bits n.
Proof. unfold bits. pose proof (Z.log2_nonneg (Z.abs n)). lia. Qed.

(** Rounding to a multiple of [2^sh], by quotient and remainder. *)
Lemma round_half_even_alt (a sh : Z) :
  0 <= sh ->
  round_half_even a sh
  = match Z.compare (a mod 2 ^ sh) (2 ^ (sh - 1)) with
    | Lt => a / 2 ^ sh
    | Gt => a / 2 ^ sh + 1
    | Eq => if Z.even (a / 2 ^ sh) then a / 2 ^ sh else a / 2 ^ sh + 1
    end.
Proof.
  intros Hsh. unfold round_half_even.
  rewrite Z.shiftr_div_pow2, Z.shiftl_mul_pow2 by exact Hsh.
  assert (Hp : 0 < 2 ^ sh) by (apply Z.pow_pos_nonneg; lia).
  replace (a - a / 2 ^ sh * 2 ^ sh) with (a mod 2 ^ sh)
    by (rewrite Z.mod_eq by lia; ring).
  reflexivity.
Qed.

Lemma round_half_even_shift (a sh j : Z) :
  0 < sh -> 0 <= j ->
  round_half_even (a * 2 ^ j) (sh + j) = round_half_even a sh.
Proof.
  intros Hsh Hj. rewrite !round_half_even_alt by lia.
  assert (Hp : 0 < 2 ^ sh) by (apply Z.pow_pos_nonneg; lia).
  assert (Hq : 0 < 2 ^ j) by (apply Z.pow_pos_nonneg; lia).
  rewrite Z.pow_add_r by lia.
  rewrite Z.div_mul_cancel_r by lia.
  rewrite Z.mul_mod_distr_r by lia.
  replace (sh + j - 1) with (sh - 1 + j) by lia.
  rewrite (Z.pow_add_r 2 (sh - 1) j) by lia.
  rewrite <- (Zmult_compare_compat_r (a mod 2 ^ sh) (2 ^ (sh - 1)) (2 ^ j))
    by lia.
  reflexivity.
Qed.

(** Nothing to round in a multiple of [2^sh]. *)
Lemma round_half_even_exact (a sh : Z) :
  0 < sh -> round_half_even (a * 2 ^ sh) sh = a.
Proof.
  intros Hsh. rewrite round_half_even_alt by lia.
  assert (Hp : 0 < 2 ^ sh) by (apply Z.pow_pos_nonneg; lia).
  assert (Hh : 0 < 2 ^ (sh - 1)) by (apply Z.pow_pos_nonneg; lia).
  rewrite Z.mod_mul, Z.div_mul by lia.
  destruct (Z.compare_spec 0 (2 ^ (sh - 1))); lia.
Qed.

Lemma round_half_even_bounds (a sh : Z) :
  0 < sh ->
  a / 2 ^ sh <= round_half_even a sh <= a / 2 ^ sh + 1.
Proof.
  intros Hsh. rewrite round_half_even_alt by lia.
  destruct (_ ?= _); [destruct (Z.even _) |..]; lia.
Qed.

Lemma round_half_even_mono (a b sh : Z) :
  0 < sh -> a <= b -> round_half_even a sh <= round_half_even b sh.
Proof.
  intros Hsh Hab.
  assert (Hp : 0 < 2 ^ sh) by (apply Z.pow_pos_nonneg; lia).
  pose proof (Z.div_le_mono a b (2 ^ sh) Hp Hab) as Hq.
  destruct (Z.eq_dec (a / 2 ^ sh) (b / 2 ^ sh)) as [Heq | Hne].
  - rewrite !round_half_even_alt by lia. rewrite <- Heq.
    assert (Hr : a mod 2 ^ sh <= b mod 2 ^ sh).
    { rewrite !Z.mod_eq by lia. rewrite <- Heq. lia. }
    destruct (Z.compare_spec (a mod 2 ^ sh) (2 ^ (sh - 1)));
      destruct (Z.compare_spec (b mod 2 ^ sh) (2 ^ (sh - 1)));
      destruct (Z.even (a / 2 ^ sh)); lia.
  - pose proof (round_half_even_bounds a sh Hsh).
    pose proof (round_half_even_bounds b sh Hsh). lia.
Qed.

Lemma rint_zero : rint 0 = 0.
Proof. reflexivity. Qed.

Lemma rint_small (n : Z) : Z.abs n < 2 ^ 53 -> rint n = n.
Proof.
  intros H. unfold rint, prec.
  replace (bits n <=? 53) with true
    by (symmetry; apply Z.leb_le; apply bits_small; exact H).
  reflexivity.
Qed.

Lemma rint_opp (n : Z) : rint (- n) = - rint n.
Proof.
  unfold rint. rewrite bits_opp, Z.abs_opp, Z.sgn_opp.
  destruct (bits n <=? prec); ring.
Qed.

Lemma rint_double (n : Z) : rint (2 * n) = 2 * rint n.
Proof.
  destruct (Z.eq_dec n 0) as [-> | Hn]; [reflexivity |].
  assert (Hb : bits (2 * n) = bits n + 1).
  { replace (2 * n) with (n * 2 ^ 1) by (rewrite Z.pow_1_r; ring).
    apply bits_mul_pow2; lia. }
  assert (Habs : Z.abs (2 * n) = Z.abs n * 2 ^ 1)
    by (rewrite Z.pow_1_r; lia).
  assert (Hsgn : Z.sgn (2 * n) = Z.sgn n) by lia.
  unfold rint, prec. rewrite Hb, Habs, Hsgn.
  destruct (Z.leb_spec (bits n + 1) 53) as [H1 | H1];
    destruct (Z.leb_spec (bits n) 53) as [H2 | H2]; try lia.
  - assert (bits n = 53) by lia.
    replace (bits n + 1 - 53) with 1 by lia.
    rewrite round_half_even_exact by lia. rewrite Z.pow_1_r. lia.
  - replace (bits n + 1 - 53) with (bits n - 53 + 1) by lia.
    rewrite round_half_even_shift by lia.
    rewrite Z.pow_add_r, Z.pow_1_r by lia. ring.
Qed.

Lemma rint_shift (n j : Z) : 0 <= j -> rint (n * 2 ^ j) = rint n * 2 ^ j.
Proof.
  intros Hj. pattern j. apply natlike_ind; [| | exact Hj].
  - rewrite Z.pow_0_r, !Z.mul_1_r. reflexivity.
  - intros x Hx IH. rewrite Z.pow_succ_r by exact Hx.
    replace (n * (2 * 2 ^ x)) with (2 * (n * 2 ^ x)) by ring.
    rewrite rint_double, IH. ring.
Qed.

Lemma rint_bounds (n : Z) :
  0 < n -> 2 ^ (bits n - 1) <= rint n <= 2 ^ bits n.
Proof.
  intros Hn. pose proof (bits_spec n ltac:(lia)) as Hb.
  rewrite Z.abs_eq in Hb by lia.
  unfold rint, prec.
  destruct (Z.leb_spec (bits n) 53) as [H | H]; [lia |].
  rewrite Z.abs_eq, Z.sgn_pos, Z.mul_1_l by lia.
  set (sh := bits n - 53) in *.
  assert (Hp : 0 < 2 ^ sh) by (apply Z.pow_pos_nonneg; lia).
  pose proof (round_half_even_bounds n sh ltac:(lia)) as Hr.
  assert (E1 : 2 ^ (bits n - 1) = 2 ^ 52 * 2 ^ sh)
    by (rewrite <- Z.pow_add_r by lia; f_equal; lia).
  assert (E2 : 2 ^ bits n = 2 ^ 53 * 2 ^ sh)
    by (rewrite <- Z.pow_add_r by lia; f_equal; lia).
  assert (Hq1 : 2 ^ 52 <= n / 2 ^ sh)
    by (apply Z.div_le_lower_bound; lia).
  assert (Hq2 : n / 2 ^ sh < 2 ^ 53)
    by (apply Z.div_lt_upper_bound; lia).
  rewrite E1, E2. split; apply Z.mul_le_mono_nonneg_r; lia.
Qed.

Lemma rint_nonneg (n : Z) : 0 <= n -> 0 <= rint n.
Proof.
  intros Hn. destruct (Z.eq_dec n 0) as [-> | Hz]; [rewrite rint_zero; lia |].
  pose proof (rint_bounds n ltac:(lia)) as H.
  assert (0 < 2 ^ (bits n - 1))
    by (apply Z.pow_pos_nonneg; pose proof (bits_pos n); lia).
  lia.
Qed.

Lemma rint_mono_nonneg (a b : Z) : 0 <= a <= b -> rint a <= rint b.
Proof.
  intros H. destruct (Z.eq_dec a 0) as [-> | Ha];
    [rewrite rint_zero; apply rint_nonneg; lia |].
  pose proof (bits_le_mono a b H) as Hbits.
  destruct (Z.eq_dec (bits a) (bits b)) as [Heq | Hne].
  - unfold rint, prec. rewrite <- Heq.
    destruct (Z.leb_spec (bits a) 53) as [Hd | Hd]; [lia |].
    rewrite !Z.abs_eq, !Z.sgn_pos, !Z.mul_1_l by lia.
    apply Z.mul_le_mono_nonneg_r; [apply Z.pow_nonneg; lia |].
    apply round_half_even_mono; lia.
  - pose proof (rint_bounds a ltac:(lia)).
    pose proof (rint_bounds b ltac:(lia)).
    assert (2 ^ bits a <= 2 ^ (bits b - 1))
      by (apply Z.pow_le_mono_r; lia).
    lia.
Qed.

(** Rounding is monotone. *)
Lemma rint_mono (a b : Z) : a <= b -> rint a <= rint b.
Proof.
  intros H. destruct (Z_le_gt_dec 0 a) as [Ha | Ha].
  - apply rint_mono_nonneg. lia.
  - destruct (Z_le_gt_dec 0 b) as [Hb | Hb].
    + pose proof (rint_nonneg b Hb).
      pose proof (rint_nonneg (- a) ltac:(lia)) as Hna.
      rewrite rint_opp in Hna. lia.
    + pose proof (rint_mono_nonneg (- b) (- a) ltac:(lia)) as Hm.
      rewrite !rint_opp in Hm. lia.
Qed.

(** Rounding twice is rounding once. *)
Lemma rint_idem (n : Z) : rint (rint n) = rint n.
Proof.
  assert (Hpos : forall m, 0 < m -> rint (rint m) = rint m).
  { intros m Hm.
    destruct (Z.leb_spec (bits m) 53) as [H | H].
    - assert (E : rint m = m)
        by (unfold rint, prec; destruct (Z.leb_spec (bits m) 53); [reflexivity | lia]).
      rewrite E. exact E.
    - set (sh := bits m - 53) in *.
      assert (E : rint m = round_half_even m sh * 2 ^ sh).
      { unfold rint, prec. destruct (Z.leb_spec (bits m) 53); [lia |].
        rewrite Z.abs_eq, Z.sgn_pos, Z.mul_1_l by lia. reflexivity. }
      assert (Hp : 0 < 2 ^ sh) by (apply Z.pow_pos_nonneg; lia).
      pose proof (round_half_even_bounds m sh ltac:(lia)) as Hr.
      pose proof (bits_spec m ltac:(lia)) as Hb.
      rewrite Z.abs_eq in Hb by lia.
      assert (E2 : 2 ^ bits m = 2 ^ 53 * 2 ^ sh)
        by (rewrite <- Z.pow_add_r by lia; f_equal; lia).
      assert (Hq2 : m / 2 ^ sh < 2 ^ 53)
        by (apply Z.div_lt_upper_bound; lia).
      assert (Hq0 : 0 <= m / 2 ^ sh) by (apply Z.div_pos; lia).
      rewrite E, rint_shift by lia. f_equal.
      destruct (Z.eq_dec (round_half_even m sh) (2 ^ 53)) as [-> | Hne].
      + change (2 ^ 53) with (1 * 2 ^ 53). rewrite rint_shift by lia.
        reflexivity.
      + apply rint_small. lia. }
  destruct (Z.lt_trichotomy n 0) as [Hn | [-> | Hn]].
  - pose proof (Hpos (- n) ltac:(lia)) as H.
    rewrite !rint_opp in H. lia.
  - reflexivity.
  - apply Hpos. exact Hn.
Qed.

Lemma bits_sgn_mul (n a : Z) : n <> 0 -> bits (Z.sgn n * a) = bits a.
Proof.
  intros Hn. unfold bits. rewrite Z.abs_mul.
  replace (Z.abs (Z.sgn n)) with 1 by lia. rewrite Z.mul_1_l. reflexivity.
Qed.

(** [round] is [rint], up to the overflow. *)
Lemma round_rint (n k : Z) :
  emin <= k ->
  round n k
  = if rint n =? 0 then Fin 0 0
    else if emax <? bits (rint n) + k then Inf (n <? 0)
    else norm (rint n) k.
Proof.
  intros Hk.
  destruct (Z.eq_dec n 0) as [-> | Hn]; [rewrite round_zero; reflexivity |].
  unfold round, rint, prec.
  destruct (Z.leb_spec (bits n) 53) as [Hd | Hd].
  - replace (0 <? Z.max (bits n - 53) (emin - k)) with false
      by (symmetry; apply Z.ltb_ge; lia).
    rewrite bits_abs.
    replace (Z.abs n =? 0) with (n =? 0)
      by (apply eq_true_iff_eq; rewrite !Z.eqb_eq; lia).
    replace (Z.sgn n * Z.abs n) with n by lia. reflexivity.
  - replace (Z.max (bits n - 53) (emin - k)) with (bits n - 53) by lia.
    set (sh := bits n - 53) in *.
    replace (0 <? sh) with true by (symmetry; apply Z.ltb_lt; lia).
    set (a := round_half_even (Z.abs n) sh).
    assert (Hp : 0 < 2 ^ sh) by (apply Z.pow_pos_nonneg; lia).
    assert (Ha : 0 < a).
    { pose proof (round_half_even_bounds (Z.abs n) sh ltac:(lia)) as Hr.
      pose proof (bits_spec n Hn) as Hb.
      assert (E1 : 2 ^ (bits n - 1) = 2 ^ 52 * 2 ^ sh)
        by (rewrite <- Z.pow_add_r by lia; f_equal; lia).
      assert (2 ^ 52 <= Z.abs n / 2 ^ sh)
        by (apply Z.div_le_lower_bound; lia).
      unfold a. lia. }
    replace (a =? 0) with false by (symmetry; apply Z.eqb_neq; lia).
    replace (Z.sgn n * a * 2 ^ sh =? 0) with false
      by (symmetry; apply Z.eqb_neq; nia).
    rewrite bits_mul_pow2 by nia.
    rewrite bits_sgn_mul by exact Hn.
    replace (bits a + sh + k) with (bits a + (k + sh)) by lia.
    rewrite norm_shift by lia. reflexivity.
Qed.

Lemma round_finite (n k : Z) :
  emin <= k -> finite (round n k) = true -> round n k = norm (rint n) k.
Proof.
  intros Hk. rewrite round_rint by exact Hk.
  destruct (Z.eqb_spec (rint n) 0) as [-> | _]; [reflexivity |].
  destruct (emax <? _); [discriminate | reflexivity].
Qed.

(** The same number written with a smaller exponent rounds the same. *)
Lemma round_shift (n e j : Z) :
  emin <= e -> 0 <= j -> round (n * 2 ^ j) e = round n (e + j).
Proof.
  intros He Hj. rewrite !round_rint by lia. rewrite rint_shift by exact Hj.
  assert (Hp : 0 < 2 ^ j) by (apply Z.pow_pos_nonneg; lia).
  destruct (Z.eqb_spec (rint n) 0) as [-> | Hr]; [reflexivity |].
  replace (rint n * 2 ^ j =? 0) with false by (symmetry; apply Z.eqb_neq; nia).
  rewrite bits_mul_pow2 by assumption.
  replace (bits (rint n) + j + e) with (bits (rint n) + (e + j)) by lia.
  replace (n * 2 ^ j <? 0) with (n <? 0)
    by (apply eq_true_iff_eq; rewrite !Z.ltb_lt; nia).
  rewrite norm_shift by exact Hj. reflexivity.
Qed.

Lemma add_norm_round (a b e : Z) :
  emin <= e -> e <= 0 -> add (norm a e) (norm b e) = round (a + b) e.
Proof.
  intros He1 He2.
  destruct (norm_inv a e He2) as (ma & ea & -> & Hea & Ha & _).
  destruct (norm_inv b e He2) as (mb & eb & -> & Heb & Hb & _).
  unfold add.
  replace (Z.min ea eb) with (e + (Z.min ea eb - e)) at 3 by lia.
  rewrite <- round_shift by lia. f_equal.
  rewrite Z.mul_add_distr_r, <- !Z.mul_assoc, <- !Z.pow_add_r by lia.
  replace (ea - Z.min ea eb + (Z.min ea eb - e)) with (ea - e) by lia.
  replace (eb - Z.min ea eb + (Z.min ea eb - e)) with (eb - e) by lia.
  lia.
Qed.

Lemma mul_norm_round (a b e1 e2 : Z) :
  e1 <= 0 -> e2 <= 0 -> emin <= e1 + e2 ->
  mul (norm a e1) (norm b e2) = round (a * b) (e1 + e2).
Proof.
  intros He1 He2 He.
  destruct (norm_inv a e1 He1) as (ma & ea & -> & Hea & Ha & _).
  destruct (norm_inv b e2 He2) as (mb & eb & -> & Heb & Hb & _).
  unfold mul.
  replace (ea + eb) with (e1 + e2 + ((ea - e1) + (eb - e2))) by lia.
  rewrite <- round_shift by lia. f_equal.
  rewrite Z.pow_add_r by lia. rewrite Ha, Hb. ring.
Qed.

Lemma div_two_norm_round (a e : Z) :
  emin < e -> e <= 0 -> div_two (norm a e) = round a (e - 1).
Proof.
  intros He1 He2.
  destruct (norm_inv a e He2) as (ma & ea & -> & Hea & Ha & _).
  unfold div_two.
  replace (ea - 1) with (e - 1 + (ea - e)) by lia.
  rewrite <- round_shift by lia. f_equal. lia.
Qed.

(** Infinities and NaN stay. *)
Lemma add_finite (x y : float) :
  finite (add x y) = true -> finite x = true /\ finite y = true.
Proof.
  destruct x as [? ? | [] |], y as [? ? | [] |]; simpl; auto; discriminate.
Qed.

Lemma mul_finite (x y : float) :
  finite (mul x y) = true -> finite x = true /\ finite y = true.
Proof.
  destruct x as [m1 ? | a |], y as [m2 ? | b |]; simpl; auto; try discriminate.
  - destruct (m1 =? 0); discriminate.
  - destruct (m2 =? 0); discriminate.
Qed.

Lemma div_two_finite (x : float) :
  finite (div_two x) = true -> finite x = true.
Proof. destruct x; simpl; auto. Qed.

Lemma to_int_finite (x : float) (n : Z) :
  to_int x = Return n -> finite x = true.
Proof. destruct x; simpl; auto; discriminate. Qed.
End RoundingFacts.

(** * Evaluation where binary64 is exact *)

Module ExactFacts.
Import Float64 Float64Facts DiceBag.

Lemma is_zero_norm (n e : Z) : is_zero (norm n e) = (n =? 0).
Proof. destruct n; reflexivity. Qed.

Lemma stored_cases (x : float) :
  stored x = true ->
  (exists b, x = Inf b) \/ (exists v, to_int x = Return v /\ x = norm v 0).
Proof.
  unfold stored. intros H. apply orb_true_iff in H. destruct H as [H | H].
  - destruct x; try discriminate. eauto.
  - apply andb_true_iff in H. destruct H as [Hi Hn].
    destruct x as [m e | |]; try discriminate.
    right. eexists. split; [reflexivity |].
    apply integral_normal_to_int; auto.
Qed.

(** A well-formed die of bounded weight holds two integers. *)
Lemma die_exact (die : Die) :
  well_formed die = true -> weight die < 2 ^ 53 ->
  exists q s,
    quantity die = norm q 0 /\ size die = norm s 0 /\ 0 <= s
    /\ weight die = (Z.abs q + 1) * (s + 1).
Proof.
  unfold well_formed, weight. intros Hwf Hw.
  apply andb_true_iff in Hwf. destruct Hwf as [Hwf Hpos].
  apply andb_true_iff in Hwf. destruct Hwf as [Hq Hs].
  destruct (stored_cases _ Hq) as [(b & Eq) | (q & Tq & Eq)];
    [rewrite Eq in Hw; simpl in Hw; lia |].
  destruct (stored_cases _ Hs) as [(b & Es) | (s & Ts & Es)];
    [rewrite Tq, Es in Hw; simpl in Hw; lia |].
  exists q, s. rewrite Tq, Ts. repeat split; auto.
  rewrite Es in Hpos. change zero with (norm 0 0) in Hpos.
  rewrite leb_norm in Hpos by lia. apply Z.leb_le. exact Hpos.
Qed.

(** Every integer of the range is a result of [randrange], and nothing
    else is. *)
Lemma randrange_onto (stop r : Z) (drawn : nat) :
  0 <= r < stop ->
  randrange (fun _ => r) stop drawn = Return (r, S drawn).
Proof.
  intros H. unfold randrange.
  replace (stop <=? 0) with false by (symmetry; apply Z.leb_gt; lia).
  rewrite Z.mod_small by exact H. reflexivity.
Qed.

Lemma randrange_range (entropy : nat -> Z) (stop r : Z) (drawn drawn' : nat) :
  randrange entropy stop drawn = Return (r, drawn') -> 0 <= r < stop.
Proof.
  unfold randrange. destruct (Z.leb_spec stop 0) as [H | H]; [discriminate |].
  intros E. injection E as <- _. apply Z.mod_pos_bound. exact H.
Qed.

Section Rolls.
Variable entropy : nat -> Z.

Lemma roll_spec (subtract : bool) (count : nat) (s : Z) :
  1 <= s ->
  forall val n,
  exists val' n',
    roll entropy subtract count s (val, n) = Return (val', n')
    /\ if subtract
       then val - Z.of_nat count * s <= val' <= val - Z.of_nat count
       else val + Z.of_nat count <= val' <= val + Z.of_nat count * s.
Proof.
  intros Hs. induction count as [| count IH]; intros val n.
  - exists val, n. split; [reflexivity |]. destruct subtract; simpl; lia.
  - cbn [roll]. unfold randrange.
    replace (s <=? 0) with false by (symmetry; apply Z.leb_gt; lia).
    cbn [bind fst snd].
    pose proof (Z.mod_pos_bound (entropy n) s ltac:(lia)) as Hr.
    destruct (IH (if subtract then val - (entropy n mod s + 1)
                  else val + (entropy n mod s + 1)) (S n))
      as (val' & n' & -> & Hb).
    exists val', n'. split; [reflexivity |].
    destruct subtract; nia.
Qed.

(** One die, in the three loops and in [shake] at once. *)
Lemma step_exact (die : Die) (lo h hi B : Z) :
  well_formed die = true -> rollable die = true ->
  Z.abs lo <= B -> Z.abs h <= B -> Z.abs hi <= B ->
  B + weight die < 2 ^ 53 ->
  exists lo' h' hi',
    minimum_step (norm lo 0) die = norm lo' 0
    /\ average_step (half h) die = half h'
    /\ maximum_step (norm hi 0) die = norm hi' 0
    /\ Z.abs lo' <= B + weight die
    /\ Z.abs h' <= B + weight die
    /\ Z.abs hi' <= B + weight die
    /\ 2 * (lo' - lo) <= h' - h <= 2 * (hi' - hi)
    /\ forall val n,
        exists val' n',
          shake_step entropy die (val, n) = Return (val', n')
          /\ lo' - lo <= val' - val <= hi' - hi.
Proof.
  intros Hwf Hroll Hlo Hh Hhi HB.
  destruct (die_exact die Hwf) as (q & s & Eq & Es & Hs & Ew); [lia |].
  rewrite Ew in *. clear Ew.
  assert (Hw1 : Z.abs q <= (Z.abs q + 1) * (s + 1)) by nia.
  assert (Hw2 : s + 1 <= (Z.abs q + 1) * (s + 1)) by nia.
  assert (Hw3 : Z.abs (q * s) <= (Z.abs q + 1) * (s + 1))
    by (rewrite Z.abs_mul, (Z.abs_eq s); nia).
  assert (Hw4 : Z.abs (q * (1 + s)) <= (Z.abs q + 1) * (s + 1))
    by (rewrite Z.abs_mul, (Z.abs_eq (1 + s)); nia).
  assert (Hr : q = 0 \/ 1 <= s).
  { unfold rollable in Hroll. rewrite Eq, Es, is_zero_norm in Hroll.
    change one with (norm 1 0) in Hroll.
    rewrite leb_norm in Hroll by lia.
    apply orb_true_iff in Hroll.
    destruct Hroll as [H | H]; [left; apply Z.eqb_eq | right; apply Z.leb_le];
      exact H. }
  exists (lo + (if 0 <=? q then q else q * s)),
         (h + q * (1 + s)),
         (hi + (if 0 <=? q then q * s else q)).
  assert (Hmul1 : mul (norm q 0) (of_int 1) = norm q 0).
  { change (of_int 1) with (norm 1 0).
    rewrite mul_norm by (unfold emin; lia).
    rewrite Z.mul_1_r. reflexivity. }
  assert (Hmuls : mul (norm q 0) (norm s 0) = norm (q * s) 0).
  { rewrite mul_norm by (unfold emin; lia). reflexivity. }
  assert (Hleb : leb zero (norm q 0) = (0 <=? q)).
  { change zero with (norm 0 0). apply leb_norm. lia. }
  split; [| split; [| split]].
  - unfold minimum_step. rewrite Eq, Es, Hleb, Hmul1, Hmuls.
    destruct (0 <=? q); apply add_norm; unfold emin; lia.
  - unfold average_step. rewrite Eq, Es.
    change one with (norm 1 0).
    rewrite add_norm by (unfold emin; lia).
    rewrite mul_norm by (unfold emin; lia).
    rewrite div_two_norm by (unfold emin; lia).
    unfold half. apply add_norm; unfold emin; lia.
  - unfold maximum_step. rewrite Eq, Es, Hleb, Hmul1, Hmuls.
    destruct (0 <=? q); apply add_norm; unfold emin; lia.
  - assert (Hc : Z.abs (if 0 <=? q then q else q * s)
                 <= (Z.abs q + 1) * (s + 1))
      by (destruct (0 <=? q); lia).
    assert (Hd : Z.abs (if 0 <=? q then q * s else q)
                 <= (Z.abs q + 1) * (s + 1))
      by (destruct (0 <=? q); lia).
    repeat split; try lia.
    + destruct (Z.leb_spec 0 q); nia.
    + destruct (Z.leb_spec 0 q); nia.
    + intros val n. unfold shake_step.
      rewrite Eq, Es, !to_int_norm. cbn [bind].
      destruct (Z.ltb_spec 0 q) as [Hq | Hq].
      * destruct (roll_spec false (Z.to_nat q) s ltac:(lia) val n)
          as (val' & n' & -> & Hb).
        exists val', n'. split; [reflexivity |].
        rewrite Z2Nat.id in Hb by lia.
        destruct (Z.leb_spec 0 q); lia.
      * destruct (Z.ltb_spec q 0) as [Hq' | Hq'].
        -- destruct (roll_spec true (Z.to_nat (Z.abs q)) s ltac:(lia) val n)
             as (val' & n' & -> & Hb).
           exists val', n'. split; [reflexivity |].
           rewrite Z2Nat.id in Hb by lia.
           destruct (Z.leb_spec 0 q); nia.
        -- exists val, n. split; [reflexivity |].
           assert (q = 0) by lia. subst q. simpl. lia.
Qed.

Lemma weight_nonneg (die : Die) : well_formed die = true -> 0 <= weight die.
Proof.
  intros Hwf. destruct (Z_lt_le_dec (weight die) (2 ^ 53)) as [H | H]; [| lia].
  destruct (die_exact die Hwf H) as (q & s & _ & _ & Hs & ->). nia.
Qed.

Lemma total_weight_nonneg (dice_bag : list Die) :
  forallb well_formed dice_bag = true -> 0 <= total_weight dice_bag.
Proof.
  induction dice_bag as [| die dice_bag IH]; cbn [forallb total_weight fold_right].
  - lia.
  - intros H. apply andb_true_iff in H. destruct H as [Hd Hb].
    pose proof (weight_nonneg die Hd). specialize (IH Hb).
    unfold total_weight in IH. lia.
Qed.

(** The three loops and [shake] on a whole bag. *)
Lemma loops_exact (dice_bag : list Die) :
  forallb well_formed dice_bag = true ->
  forallb rollable dice_bag = true ->
  forall lo h hi B,
    Z.abs lo <= B -> Z.abs h <= B -> Z.abs hi <= B ->
    B + total_weight dice_bag < 2 ^ 53 ->
    2 * lo <= h <= 2 * hi ->
    exists lo' h' hi',
      fold_left minimum_step dice_bag (norm lo 0) = norm lo' 0
      /\ fold_left average_step dice_bag (half h) = half h'
      /\ fold_left maximum_step dice_bag (norm hi 0) = norm hi' 0
      /\ 2 * lo' <= h' <= 2 * hi'
      /\ forall val n,
          lo <= val <= hi ->
          exists val' n',
            shake_loop entropy dice_bag (val, n) = Return (val', n')
            /\ lo' <= val' <= hi'.
Proof.
  induction dice_bag as [| die dice_bag IH];
    intros Hwf Hroll lo h hi B Hlo Hh Hhi HB Hord.
  - exists lo, h, hi. repeat split; try lia.
    intros val n Hval. exists val, n. split; [reflexivity | lia].
  - cbn [forallb] in Hwf, Hroll.
    apply andb_true_iff in Hwf. destruct Hwf as [Hwd Hwf].
    apply andb_true_iff in Hroll. destruct Hroll as [Hrd Hroll].
    pose proof (total_weight_nonneg dice_bag Hwf) as Hpos.
    assert (HB' : B + weight die + total_weight dice_bag < 2 ^ 53)
      by (cbn [total_weight fold_right] in HB; unfold total_weight; lia).
    destruct (step_exact die lo h hi B Hwd Hrd Hlo Hh Hhi ltac:(lia))
      as (lo1 & h1 & hi1 & Emin & Eavg & Emax & Hlo1 & Hh1 & Hhi1 & Hord1 & Hshake).
    destruct (IH Hwf Hroll lo1 h1 hi1 (B + weight die) Hlo1 Hh1 Hhi1 HB'
                ltac:(lia))
      as (lo' & h' & hi' & Fmin & Favg & Fmax & Hord' & Hloop).
    exists lo', h', hi'. cbn [fold_left].
    rewrite Emin, Eavg, Emax, Fmin, Favg, Fmax.
    repeat split; try lia.
    intros val n Hval. cbn [shake_loop].
    destruct (Hshake val n) as (val1 & n1 & -> & Hval1). cbn [bind].
    apply Hloop. lia.
Qed.

(** On an exact bag the four methods return, and in order. *)
Lemma methods_exact (dice_bag : list Die) :
  forallb well_formed dice_bag = true -> exact dice_bag = true ->
  exists lo av hi val,
    minimum dice_bag = Return lo /\ average dice_bag = Return av
    /\ maximum dice_bag = Return hi /\ shake entropy dice_bag = Return val
    /\ lo <= av <= hi /\ lo <= val <= hi.
Proof.
  intros Hwf Hex. unfold exact in Hex.
  apply andb_true_iff in Hex. destruct Hex as [Hroll Hw].
  apply Z.ltb_lt in Hw.
  destruct (loops_exact dice_bag Hwf Hroll 0 0 0 0) as
    (lo & h & hi & Emin & Eavg & Emax & Hord & Hloop); try (simpl; lia).
  destruct (Hloop 0 O ltac:(lia)) as (val & n & Eshake & Hval).
  exists lo, (Z.quot h 2), hi, val.
  unfold minimum, average, maximum, shake,
    minimum_val, average_val, maximum_val.
  change zero with (norm 0 0) at 1 3.
  change zero with (half 0).
  rewrite Emin, Eavg, Emax, Eshake, !to_int_norm, to_int_half.
  cbn [bind fst].
  repeat split; try lia.
  - apply Z.quot_le_lower_bound; lia.
  - apply Z.quot_le_upper_bound; lia.
Qed.

End Rolls.
End ExactFacts.

(** * The order of the three bounds, rounding included *)

Module OrderFacts.
Import Float64 Float64Facts RoundingFacts DiceBag.

Lemma finite_round (x : float) (n k : Z) :
  emin <= k -> x = round n k -> finite x = true -> x = norm (rint n) k.
Proof. intros Hk -> H. apply round_finite; assumption. Qed.

(** The three terms of a die, as integers: twice the term of the
    average lies between twice the two others. *)
Lemma term_order (q s : Z) :
  rint q = q -> rint s = s -> 0 <= s -> q = 0 \/ 1 <= s ->
  if 0 <=? q
  then 2 * q <= rint (q * rint (1 + s)) <= 2 * rint (q * s)
  else 2 * rint (q * s) <= rint (q * rint (1 + s)) <= 2 * q.
Proof.
  intros Hq Hs Hpos Hroll.
  destruct Hroll as [-> | H1].
  - simpl. rewrite rint_zero. lia.
  - assert (Hu1 : 2 <= rint (1 + s)).
    { change 2 with (rint 2) at 1. apply rint_mono. lia. }
    assert (Hu2 : rint (1 + s) <= 2 * s).
    { rewrite <- Hs at 2. rewrite <- rint_double. apply rint_mono. lia. }
    assert (E2q : 2 * q = rint (2 * q))
      by (rewrite rint_double, Hq; reflexivity).
    assert (E2m : 2 * rint (q * s) = rint (2 * (q * s)))
      by (rewrite rint_double; reflexivity).
    rewrite E2q, E2m.
    destruct (Z.leb_spec 0 q); split; apply rint_mono; nia.
Qed.

Lemma dice_fields (q s : Z) :
  finite (quantity (dice q s)) = true -> finite (size (dice q s)) = true ->
  quantity (dice q s) = norm (rint q) 0 /\ size (dice q s) = norm (rint s) 0.
Proof.
  cbn [dice quantity size]. unfold of_int. intros Hq Hs.
  split; apply round_finite; unfold emin; auto; lia.
Qed.

(** One die in the three loops, whatever the size of the numbers. *)
Lemma steps_ordered (die : Die) (a b c : Z) :
  parsed die -> rollable die = true -> a <= b <= c ->
  finite (minimum_step (half a) die) = true ->
  finite (average_step (half b) die) = true ->
  finite (maximum_step (half c) die) = true ->
  exists a' b' c',
    minimum_step (half a) die = half a'
    /\ average_step (half b) die = half b'
    /\ maximum_step (half c) die = half c'
    /\ a' <= b' <= c'.
Proof.
  intros (n1 & n2 & Hn2 & ->) Hroll Habc Fmin Favg Fmax.
  (* the subterms of the average are finite *)
  pose proof Favg as F. unfold average_step in F.
  apply add_finite in F. destruct F as [_ F].
  pose proof F as Fhalf.
  apply div_two_finite in F. pose proof F as Fmul.
  apply mul_finite in F. destruct F as [Fq Fone].
  pose proof Fone as Fs. apply add_finite in Fs. destruct Fs as [_ Fs].
  destruct (dice_fields n1 n2 Fq Fs) as [Eq Es].
  set (q := rint n1) in *. set (s := rint n2) in *.
  assert (Hq : rint q = q) by apply rint_idem.
  assert (Hs : rint s = s) by apply rint_idem.
  assert (Hspos : 0 <= s) by (apply rint_nonneg; exact Hn2).
  assert (Hr : q = 0 \/ 1 <= s).
  { unfold rollable in Hroll. rewrite Eq, Es, ExactFacts.is_zero_norm in Hroll.
    change one with (norm 1 0) in Hroll.
    rewrite leb_norm in Hroll by lia.
    apply orb_true_iff in Hroll.
    destruct Hroll as [H | H]; [left; apply Z.eqb_eq | right; apply Z.leb_le];
      exact H. }
  (* the term of the average *)
  assert (Eone : add one (size (dice n1 n2)) = norm (rint (1 + s)) 0).
  { apply finite_round; [unfold emin; lia | | exact Fone].
    rewrite Es. change one with (norm 1 0).
    apply add_norm_round; unfold emin; lia. }
  assert (Emul : mul (quantity (dice n1 n2)) (add one (size (dice n1 n2)))
                 = norm (rint (q * rint (1 + s))) 0).
  { apply finite_round; [unfold emin; lia | | exact Fmul].
    rewrite Eone, Eq. apply (mul_norm_round _ _ 0 0); unfold emin; lia. }
  set (p := rint (q * rint (1 + s))) in *.
  assert (Ehalf : div_two (mul (quantity (dice n1 n2))
                             (add one (size (dice n1 n2)))) = half p).
  { replace (half p) with (norm (rint p) (-1))
      by (unfold p; rewrite rint_idem; reflexivity).
    apply finite_round; [unfold emin; lia | | exact Fhalf].
    rewrite Emul. apply (div_two_norm_round _ 0); unfold emin; lia. }
  assert (Eavg : average_step (half b) (dice n1 n2) = half (rint (b + p))).
  { apply finite_round; [unfold emin; lia | | exact Favg].
    unfold average_step. rewrite Ehalf.
    apply add_norm_round; unfold emin; lia. }
  (* the two products *)
  assert (Eleb : leb zero (quantity (dice n1 n2)) = (0 <=? q)).
  { rewrite Eq. change zero with (norm 0 0). apply leb_norm. lia. }
  assert (Emul1 : finite (mul (quantity (dice n1 n2)) (of_int 1)) = true ->
                  mul (quantity (dice n1 n2)) (of_int 1) = half (2 * q)).
  { intros Hf.
    replace (half (2 * q)) with (norm (rint (q * 1)) 0)
      by (rewrite Z.mul_1_r, Hq, half_double; reflexivity).
    apply finite_round; [unfold emin; lia | | exact Hf].
    rewrite Eq. change (of_int 1) with (norm 1 0).
    apply (mul_norm_round _ _ 0 0); unfold emin; lia. }
  assert (Emuls : finite (mul (quantity (dice n1 n2)) (size (dice n1 n2))) = true ->
                  mul (quantity (dice n1 n2)) (size (dice n1 n2))
                  = half (2 * rint (q * s))).
  { intros Hf. rewrite half_double.
    apply finite_round; [unfold emin; lia | | exact Hf].
    rewrite Eq, Es. apply (mul_norm_round _ _ 0 0); unfold emin; lia. }
  pose proof (term_order q s Hq Hs Hspos Hr) as Hterm. fold p in Hterm.
  unfold minimum_step, maximum_step in *. rewrite Eleb in *.
  destruct (0 <=? q).
  - pose proof Fmin as F1. apply add_finite in F1. destruct F1 as [_ F1].
    pose proof Fmax as F2. apply add_finite in F2. destruct F2 as [_ F2].
    rewrite (Emul1 F1) in *. rewrite (Emuls F2) in *.
    exists (rint (a + 2 * q)), (rint (b + p)), (rint (c + 2 * rint (q * s))).
    split; [| split; [| split]].
    + apply finite_round; [unfold emin; lia | | exact Fmin].
      apply add_norm_round; unfold emin; lia.
    + exact Eavg.
    + apply finite_round; [unfold emin; lia | | exact Fmax].
      apply add_norm_round; unfold emin; lia.
    + split; apply rint_mono; lia.
  - pose proof Fmin as F1. apply add_finite in F1. destruct F1 as [_ F1].
    pose proof Fmax as F2. apply add_finite in F2. destruct F2 as [_ F2].
    rewrite (Emul1 F2) in *. rewrite (Emuls F1) in *.
    exists (rint (a + 2 * rint (q * s))), (rint (b + p)), (rint (c + 2 * q)).
    split; [| split; [| split]].
    + apply finite_round; [unfold emin; lia | | exact Fmin].
      apply add_norm_round; unfold emin; lia.
    + exact Eavg.
    + apply finite_round; [unfold emin; lia | | exact Fmax].
      apply add_norm_round; unfold emin; lia.
    + split; apply rint_mono; lia.
Qed.

(** A loop that ends on a number went through numbers only. *)
Lemma fold_finite (step : float -> Die -> float) (dice_bag : list Die) :
  (forall val die, finite (step val die) = true -> finite val = true) ->
  forall val,
    finite (fold_left step dice_bag val) = true -> finite val = true.
Proof.
  intros Hstep. induction dice_bag as [| die dice_bag IH]; intros val H.
  - exact H.
  - cbn [fold_left] in H. apply IH in H. apply Hstep in H. exact H.
Qed.

Lemma minimum_step_finite (val : float) (die : Die) :
  finite (minimum_step val die) = true -> finite val = true.
Proof.
  unfold minimum_step. destruct (leb _ _); intros H;
    apply add_finite in H; tauto.
Qed.

Lemma average_step_finite (val : float) (die : Die) :
  finite (average_step val die) = true -> finite val = true.
Proof. unfold average_step. intros H. apply add_finite in H. tauto. Qed.

Lemma maximum_step_finite (val : float) (die : Die) :
  finite (maximum_step val die) = true -> finite val = true.
Proof.
  unfold maximum_step. destruct (leb _ _); intros H;
    apply add_finite in H; tauto.
Qed.

Lemma loops_ordered (dice_bag : list Die) :
  Forall parsed dice_bag -> forallb rollable dice_bag = true ->
  forall a b c,
    a <= b <= c ->
    finite (fold_left minimum_step dice_bag (half a)) = true ->
    finite (fold_left average_step dice_bag (half b)) = true ->
    finite (fold_left maximum_step dice_bag (half c)) = true ->
    exists a' b' c',
      fold_left minimum_step dice_bag (half a) = half a'
      /\ fold_left average_step dice_bag (half b) = half b'
      /\ fold_left maximum_step dice_bag (half c) = half c'
      /\ a' <= b' <= c'.
Proof.
  induction dice_bag as [| die dice_bag IH];
    intros Hparsed Hroll a b c Habc Fmin Favg Fmax.
  - exists a, b, c. auto.
  - cbn [fold_left] in *. cbn [forallb] in Hroll.
    apply andb_true_iff in Hroll. destruct Hroll as [Hrd Hroll].
    inversion Hparsed as [| ? ? Hpd Hparsed']; subst.
    pose proof (fold_finite _ _ minimum_step_finite _ Fmin) as F1.
    pose proof (fold_finite _ _ average_step_finite _ Favg) as F2.
    pose proof (fold_finite _ _ maximum_step_finite _ Fmax) as F3.
    destruct (steps_ordered die a b c Hpd Hrd Habc F1 F2 F3)
      as (a1 & b1 & c1 & E1 & E2 & E3 & Habc1).
    rewrite E1, E2, E3 in *.
    apply (IH Hparsed' Hroll a1 b1 c1 Habc1 Fmin Favg Fmax).
Qed.

(** Whenever the three methods return, they return in order. *)
Lemma methods_ordered (dice_bag : list Die) (lo av hi : Z) :
  Forall parsed dice_bag -> forallb rollable dice_bag = true ->
  minimum dice_bag = Return lo -> average dice_bag = Return av ->
  maximum dice_bag = Return hi ->
  lo <= av <= hi.
Proof.
  unfold minimum, average, maximum, minimum_val, average_val, maximum_val.
  change zero with (half 0).
  intros Hparsed Hroll Hmin Havg Hmax.
  destruct (loops_ordered dice_bag Hparsed Hroll 0 0 0 ltac:(lia)
              (to_int_finite _ _ Hmin) (to_int_finite _ _ Havg)
              (to_int_finite _ _ Hmax))
    as (a & b & c & E1 & E2 & E3 & Habc).
  rewrite E1, to_int_half in Hmin. rewrite E2, to_int_half in Havg.
  rewrite E3, to_int_half in Hmax.
  injection Hmin as <-. injection Havg as <-. injection Hmax as <-.
  split; apply Z.quot_le_mono; lia.
Qed.
End OrderFacts.

(** * Segments *)

Lemma append_assoc (a b c : string) : ((a ++ b) ++ c = a ++ (b ++ c))%string.
Proof. induction a as [| x a IH]; simpl; [reflexivity | rewrite IH; reflexivity]. Qed.

Lemma span_length (p : ascii -> bool) (s run rest : string) :
  span p s = (run, rest) ->
  String.length s = (String.length run + String.length rest)%nat.
Proof.
  intros H. apply span_spec in H. destruct H as (-> & _ & _).
  induction run as [| c run IH]; simpl; [reflexivity | rewrite IH; reflexivity].
Qed.

(** A match of the segment pattern is not empty. *)
Lemma segment_at_shorter (s segment rest : string) :
  pattern_dice_segment_at s = Some (segment, rest) ->
  (String.length rest < String.length s)%nat.
Proof.
  unfold pattern_dice_segment_at.
  destruct (opt_sign s) as [sign s1] eqn:Hsign.
  destruct (span is_not_sign s1) as [[| c run] rest'] eqn:Hspan; [discriminate |].
  intros H. injection H as _ <-.
  apply span_length in Hspan. simpl in Hspan.
  destruct (opt_sign_cases _ _ _ Hsign) as [(_ & -> & _) | (x & _ & _ & ->)];
    simpl; lia.
Qed.

(** Any fuel from the length of the string on gives the same matches. *)
Lemma finditer_from_enough (fuel1 : nat) :
  forall fuel2 s,
    (String.length s <= fuel1)%nat -> (String.length s <= fuel2)%nat ->
    finditer_from fuel1 s = finditer_from fuel2 s.
Proof.
  induction fuel1 as [| fuel1 IH]; intros fuel2 s H1 H2.
  - destruct s; [| simpl in H1; lia]. destruct fuel2; reflexivity.
  - destruct s as [| c s]; [destruct fuel2; reflexivity |].
    destruct fuel2 as [| fuel2]; [simpl in H2; lia |].
    cbn [finditer_from]. simpl in H1, H2.
    destruct (pattern_dice_segment_at (String c s)) as [[segment rest] |] eqn:Hat.
    + apply segment_at_shorter in Hat. simpl in Hat.
      f_equal. apply IH; lia.
    + apply IH; lia.
Qed.

(** [finditer], one search at a time. *)
Lemma finditer_unfold (c : ascii) (s : string) :
  pattern_dice_segment_finditer (String c s)
  = match pattern_dice_segment_at (String c s) with
    | Some (segment, rest) => segment :: pattern_dice_segment_finditer rest
    | None => pattern_dice_segment_finditer s
    end.
Proof.
  unfold pattern_dice_segment_finditer. cbn [String.length finditer_from].
  destruct (pattern_dice_segment_at (String c s)) as [[segment rest] |] eqn:Hat.
  - apply segment_at_shorter in Hat. simpl in Hat.
    f_equal. apply finditer_from_enough; lia.
  - reflexivity.
Qed.

(** A greedy run stops at the end of [x] when what follows is empty or
    starts outside the class. *)
Lemma span_app_stop (p : ascii -> bool) (x z : string) :
  match z with String c _ => p c = false | EmptyString => True end ->
  span p (x ++ z) = (fst (span p x), (snd (span p x) ++ z)%string).
Proof.
  intros Hz. induction x as [| d x IH]; simpl.
  - destruct z as [| c z]; [reflexivity |]. simpl. rewrite Hz. reflexivity.
  - destruct (p d); [| reflexivity].
    rewrite IH. destruct (span p x). reflexivity.
Qed.

Lemma at_sign_or_end_stop (z : string) :
  at_sign_or_end z = true ->
  match z with String c _ => is_not_sign c = false | EmptyString => True end.
Proof.
  destruct z as [| c z]; simpl; [auto |].
  unfold is_not_sign. intros ->. reflexivity.
Qed.

Lemma segment_at_app (d : ascii) (x z : string) :
  at_sign_or_end z = true ->
  pattern_dice_segment_at (String d x ++ z)
  = match pattern_dice_segment_at (String d x) with
    | Some (segment, rest) => Some (segment, (rest ++ z)%string)
    | None => None
    end.
Proof.
  intros Hz. apply at_sign_or_end_stop in Hz.
  unfold pattern_dice_segment_at. simpl.
  destruct (is_sign d) eqn:Hd.
  - rewrite span_app_stop by exact Hz.
    destruct (span is_not_sign x) as [[| c run] rest]; reflexivity.
  - cbn [span]. replace (is_not_sign d) with true
      by (unfold is_not_sign; rewrite Hd; reflexivity).
    rewrite span_app_stop by exact Hz.
    destruct (span is_not_sign x) as [run rest]. reflexivity.
Qed.

(** Segments do not reach over a sign. *)
Lemma finditer_app (z : string) :
  at_sign_or_end z = true ->
  forall x,
    pattern_dice_segment_finditer (x ++ z)
    = (pattern_dice_segment_finditer x ++ pattern_dice_segment_finditer z)%list.
Proof.
  intros Hz x.
  remember (String.length x) as n eqn:Hn.
  revert x Hn. induction n as [n IH] using lt_wf_ind. intros x Hn.
  destruct x as [| d x]; [reflexivity |].
  change ((String d x ++ z)%string) with (String d (x ++ z)).
  rewrite !finditer_unfold.
  change (String d (x ++ z)) with ((String d x ++ z)%string).
  rewrite segment_at_app by exact Hz.
  destruct (pattern_dice_segment_at (String d x)) as [[segment rest] |] eqn:Hat.
  - apply segment_at_shorter in Hat. simpl.
    f_equal. apply (IH (String.length rest)); [subst n; exact Hat | reflexivity].
  - apply (IH (String.length x)); [subst n; simpl; lia | reflexivity].
Qed.

(** A sign before a sign, or at the end, starts no segment. *)
Lemma finditer_skip_sign (c : ascii) (z : string) :
  is_sign c = true -> at_sign_or_end z = true ->
  pattern_dice_segment_finditer (String c z) = pattern_dice_segment_finditer z.
Proof.
  intros Hc Hz. rewrite finditer_unfold.
  unfold pattern_dice_segment_at, opt_sign. rewrite Hc.
  apply at_sign_or_end_stop in Hz.
  destruct z as [| d z]; [reflexivity |].
  simpl. rewrite Hz. reflexivity.
Qed.

Lemma finditer_nil_iff (s : string) :
  pattern_dice_segment_finditer s = [] <-> all_chars is_sign s = true.
Proof.
  induction s as [| c s IH]; [simpl; tauto |].
  rewrite finditer_unfold. cbn [all_chars].
  unfold pattern_dice_segment_at, opt_sign.
  destruct (is_sign c) eqn:Hc.
  - destruct s as [| d s]; [simpl; tauto |].
    cbn [span]. unfold is_not_sign at 1.
    destruct (is_sign d) eqn:Hd; cbn [negb].
    + rewrite IH. simpl. tauto.
    + destruct (span is_not_sign s). simpl. rewrite Hd. simpl.
      split; discriminate.
  - cbn [span]. unfold is_not_sign at 1. rewrite Hc. cbn [negb].
    destruct (span is_not_sign s). simpl. split; discriminate.
Qed.

Lemma remove_whitespace_app (a b : string) :
  remove_whitespace (a ++ b) = (remove_whitespace a ++ remove_whitespace b)%string.
Proof.
  induction a as [| c a IH]; simpl; [reflexivity |].
  destruct (is_space c); rewrite IH; reflexivity.
Qed.

Lemma sign_not_space (c : ascii) : is_sign c = true -> is_space c = false.
Proof. ascii_cases c. Qed.

Lemma all_sign_remove_whitespace (s : string) :
  all_chars is_sign (remove_whitespace s)
  = all_chars (fun c => is_sign c || is_space c) s.
Proof.
  induction s as [| c s IH]; simpl; [reflexivity |].
  destruct (is_space c) eqn:Hc.
  - rewrite orb_true_r. exact IH.
  - simpl. rewrite orb_false_r, IH. reflexivity.
Qed.

Lemma valid_match_iff (s : string) :
  pattern_valid_dice_match s <> None
  <-> match s with String c _ => is_valid_dice_char c = true | EmptyString => False end.
Proof.
  unfold pattern_valid_dice_match. destruct s as [| c s]; simpl.
  - split; [congruence | tauto].
  - destruct (is_valid_dice_char c).
    + destruct (span is_valid_dice_char s). split; [auto | discriminate].
    + split; [congruence | discriminate].
Qed.

(** ** Characters of the segments that parse *)

Lemma all_chars_app (p : ascii -> bool) (a b : string) :
  all_chars p (a ++ b) = all_chars p a && all_chars p b.
Proof.
  induction a as [| c a IH]; simpl; [reflexivity |].
  rewrite IH. apply andb_assoc.
Qed.

Lemma all_chars_weaken (p q : ascii -> bool) (s : string) :
  (forall c, p c = true -> q c = true) ->
  all_chars p s = true -> all_chars q s = true.
Proof.
  intros Hpq. induction s as [| c s IH]; simpl; [auto |].
  intros H. apply andb_true_iff in H. destruct H as [Hc Hs].
  rewrite (Hpq c Hc), (IH Hs). reflexivity.
Qed.

Lemma digit_valid (c : ascii) : is_digit c = true -> is_valid_dice_char c = true.
Proof. ascii_cases c. Qed.

Lemma space_valid (c : ascii) : is_space c = true -> is_valid_dice_char c = true.
Proof. ascii_cases c. Qed.

Lemma letter_d_valid (c : ascii) : (ord c =? 100) = true -> is_valid_dice_char c = true.
Proof. ascii_cases c. Qed.

Lemma newline_valid (c : ascii) : (ord c =? 10) = true -> is_valid_dice_char c = true.
Proof. ascii_cases c. Qed.

Lemma at_end_valid (s : string) :
  at_end s = true -> all_chars is_valid_dice_char s = true.
Proof.
  destruct s as [| c [| d s]]; simpl; try discriminate; [reflexivity |].
  intros H. rewrite (newline_valid c H). reflexivity.
Qed.

Lemma opt_sign_spec (s sign s1 : string) :
  opt_sign s = (sign, s1) ->
  s = (sign ++ s1)%string /\ all_chars is_valid_dice_char sign = true.
Proof.
  intros H.
  destruct (opt_sign_cases _ _ _ H) as [(-> & -> & _) | (c & Hc & -> & ->)].
  - auto.
  - simpl. rewrite (sign_valid c Hc). auto.
Qed.

Lemma digits_span_valid (s run rest : string) :
  span is_digit s = (run, rest) ->
  s = (run ++ rest)%string /\ all_chars is_valid_dice_char run = true.
Proof.
  intros H. apply span_spec in H. destruct H as (-> & Hall & _).
  split; [reflexivity |].
  apply (all_chars_weaken is_digit); [exact digit_valid | exact Hall].
Qed.

Lemma die_roll_match_valid (s group1 group2 : string) :
  pattern_die_roll_match s = Some (group1, group2) ->
  all_chars is_valid_dice_char s = true.
Proof.
  unfold pattern_die_roll_match.
  destruct (opt_sign s) as [sign s1] eqn:Hsign.
  apply opt_sign_spec in Hsign. destruct Hsign as (-> & Vsign).
  destruct (span is_digit s1) as [[| d1 ds1] r1] eqn:Hd1; [discriminate |].
  apply digits_span_valid in Hd1. destruct Hd1 as (-> & Vd1).
  destruct r1 as [| c r1]; [discriminate |].
  destruct (ord c =? 100) eqn:Hc; [| discriminate].
  destruct (span is_digit r1) as [[| d2 ds2] r2] eqn:Hd2; [discriminate |].
  apply digits_span_valid in Hd2. destruct Hd2 as (-> & Vd2).
  destruct (at_end r2) eqn:Hend; [| discriminate].
  intros _. rewrite !all_chars_app, Vsign, Vd1.
  change (all_chars is_valid_dice_char (String c (String d2 ds2 ++ r2)))
    with (is_valid_dice_char c
          && all_chars is_valid_dice_char (String d2 ds2 ++ r2)).
  rewrite all_chars_app, (letter_d_valid c Hc), Vd2, (at_end_valid r2 Hend).
  reflexivity.
Qed.

Lemma die_bonus_match_valid (s group1 : string) :
  pattern_die_bonus_match s = Some group1 ->
  all_chars is_valid_dice_char s = true.
Proof.
  unfold pattern_die_bonus_match.
  destruct (opt_sign s) as [sign s1] eqn:Hsign.
  apply opt_sign_spec in Hsign. destruct Hsign as (-> & Vsign).
  destruct (span is_digit s1) as [[| d1 ds1] r1] eqn:Hd1; [discriminate |].
  apply digits_span_valid in Hd1. destruct Hd1 as (-> & Vd1).
  destruct (at_end r1) eqn:Hend; [| discriminate].
  intros _. rewrite !all_chars_app, Vsign, Vd1, (at_end_valid r1 Hend).
  reflexivity.
Qed.

Lemma parse_segment_valid (segment : string) (die : DiceBag.Die) :
  DiceBag.parse_segment segment = Return die ->
  all_chars is_valid_dice_char segment = true.
Proof.
  unfold DiceBag.parse_segment.
  destruct (pattern_die_roll_match segment) as [[group1 group2] |] eqn:Hroll.
  - intros _. apply (die_roll_match_valid _ _ _ Hroll).
  - destruct (pattern_die_bonus_match segment) as [group1 |] eqn:Hbonus;
      [| discriminate].
    intros _. apply (die_bonus_match_valid _ _ Hbonus).
Qed.

Lemma segment_at_spec (s segment rest : string) :
  pattern_dice_segment_at s = Some (segment, rest) ->
  s = (segment ++ rest)%string.
Proof.
  unfold pattern_dice_segment_at.
  destruct (opt_sign s) as [sign s1] eqn:Hsign.
  apply opt_sign_spec in Hsign. destruct Hsign as (-> & _).
  destruct (span is_not_sign s1) as [[| c run] rest'] eqn:Hspan; [discriminate |].
  apply span_spec in Hspan. destruct Hspan as (-> & _).
  intros H. injection H as <- <-. symmetry. apply append_assoc.
Qed.

Lemma segment_at_none (c : ascii) (s : string) :
  pattern_dice_segment_at (String c s) = None -> is_sign c = true.
Proof.
  unfold pattern_dice_segment_at, opt_sign.
  destruct (is_sign c) eqn:Hc; [reflexivity |].
  cbn [span]. unfold is_not_sign at 1. rewrite Hc. cbn [negb].
  destruct (span is_not_sign s). discriminate.
Qed.

(** A character that is not valid is in some segment. *)
Lemma finditer_covers (s : string) :
  all_chars is_valid_dice_char s = false ->
  exists segment,
    In segment (pattern_dice_segment_finditer s)
    /\ all_chars is_valid_dice_char segment = false.
Proof.
  remember (String.length s) as n eqn:Hn.
  revert s Hn. induction n as [n IH] using lt_wf_ind. intros s Hn Hs.
  destruct s as [| c s]; [discriminate |].
  rewrite finditer_unfold.
  destruct (pattern_dice_segment_at (String c s)) as [[segment rest] |] eqn:Hat.
  - pose proof (segment_at_shorter _ _ _ Hat) as Hlt.
    apply segment_at_spec in Hat. rewrite Hat, all_chars_app in Hs.
    apply andb_false_iff in Hs. destruct Hs as [Hs | Hs].
    + exists segment. split; [left; reflexivity | exact Hs].
    + destruct (IH (String.length rest) ltac:(subst n; exact Hlt) rest eq_refl Hs)
        as (segment' & Hin & Hbad).
      exists segment'. split; [right; exact Hin | exact Hbad].
  - apply segment_at_none in Hat. cbn [all_chars] in Hs.
    rewrite (sign_valid c Hat) in Hs. cbn [andb] in Hs.
    apply (IH (String.length s) ltac:(subst n; simpl; lia) s eq_refl Hs).
Qed.

Lemma valid_remove_whitespace (s : string) :
  all_chars is_valid_dice_char (remove_whitespace s)
  = all_chars is_valid_dice_char s.
Proof.
  induction s as [| c s IH]; simpl; [reflexivity |].
  destruct (is_space c) eqn:Hc.
  - rewrite (space_valid c Hc). exact IH.
  - simpl. rewrite IH. reflexivity.
Qed.

Lemma parse_segments_all (dice_iter : list string) :
  forall dice_bag dice_bag',
    DiceBag.parse_segments dice_iter dice_bag = Return dice_bag' ->
    forall segment, In segment dice_iter ->
                    exists die, DiceBag.parse_segment segment = Return die.
Proof.
  induction dice_iter as [| s dice_iter IH]; intros dice_bag dice_bag' H segment Hin.
  - destruct Hin.
  - cbn [DiceBag.parse_segments] in H.
    destruct (DiceBag.parse_segment s) as [die | e] eqn:Hs; [| discriminate].
    cbn [bind] in H. destruct Hin as [<- | Hin]; [eauto |].
    apply (IH _ _ H segment Hin).
Qed.

(** * The constructor *)

(** C1, as stated, fails: ["1d0"] is accepted and its die has no side. *)
Lemma zero_sided_die_accepted :
  DiceBag.init "1d0"
  = Return [{| DiceBag.quantity := Float64.of_int 1;
               DiceBag.size := Float64.of_int 0 |}]
  /\ Float64.leb Float64.one (Float64.of_int 0) = false.
Proof. split; reflexivity. Qed.

(** C1, amended: for every string that the constructor accepts, every
    die of the bag has a size of at least zero: its quantity and its size
    are the binary64 of two integers, the second of which is not
    negative. *)
Theorem init_size_nonneg (dice_string : string) (dice_bag : list DiceBag.Die) :
  DiceBag.init dice_string = Return dice_bag ->
  Forall
    (fun die =>
       Float64.leb Float64.zero (DiceBag.size die) = true
       /\ exists q s, 0 <= s /\ die = DiceBag.dice q s)
    dice_bag.
Proof.
  intros H. apply DiceBagFacts.init_spec in H. destruct H as (Hp & H & _).
  rewrite forallb_forall in H. rewrite Forall_forall in Hp.
  apply Forall_forall. intros die Hin. split.
  - specialize (H die Hin). unfold DiceBag.well_formed in H.
    apply andb_true_iff in H. tauto.
  - apply (Hp die Hin).
Qed.

Lemma init_size_nonneg_witness :
  DiceBag.init "2d6+1" = Return [DiceBag.dice 2 6; DiceBag.dice 1 1]
  /\ Forall
       (fun die =>
          Float64.leb Float64.zero (DiceBag.size die) = true
          /\ exists q s, 0 <= s /\ die = DiceBag.dice q s)
       [DiceBag.dice 2 6; DiceBag.dice 1 1].
Proof.
  split; [reflexivity |].
  apply (init_size_nonneg "2d6+1"). reflexivity.
Defined.

(** * Evaluation *)

(** C2, as stated, fails: on ["2d0"] the minimum is above the average,
    and the average above the maximum. *)
Lemma zero_sided_dice_out_of_order :
  DiceBag.init "2d0" = Return [DiceBag.dice 2 0]
  /\ DiceBag.minimum [DiceBag.dice 2 0] = Return 2
  /\ DiceBag.average [DiceBag.dice 2 0] = Return 1
  /\ DiceBag.maximum [DiceBag.dice 2 0] = Return 0.
Proof. repeat split; reflexivity. Qed.

(** C2, amended: for every string that the constructor accepts and whose
    dice are rollable (a quantity of zero, or a size of at least one),
    whenever [minimum], [average] and [maximum] return,
    [minimum() <= average() <= maximum()]; and the three do return when
    the weights of the dice sum up below 2^53. *)
Theorem average_between (dice_string : string) (dice_bag : list DiceBag.Die) :
  DiceBag.init dice_string = Return dice_bag ->
  forallb DiceBag.rollable dice_bag = true ->
  (forall lo av hi,
      DiceBag.minimum dice_bag = Return lo ->
      DiceBag.average dice_bag = Return av ->
      DiceBag.maximum dice_bag = Return hi ->
      lo <= av /\ av <= hi)
  /\ (DiceBag.total_weight dice_bag < 2 ^ 53 ->
      exists lo av hi,
        DiceBag.minimum dice_bag = Return lo
        /\ DiceBag.average dice_bag = Return av
        /\ DiceBag.maximum dice_bag = Return hi).
Proof.
  intros Hinit Hroll. apply DiceBagFacts.init_spec in Hinit.
  destruct Hinit as (Hparsed & Hwf & _). split.
  - intros lo av hi Hmin Havg Hmax.
    apply (OrderFacts.methods_ordered dice_bag lo av hi); assumption.
  - intros Hweight.
    assert (Hexact : DiceBag.exact dice_bag = true).
    { unfold DiceBag.exact. rewrite Hroll. apply Z.ltb_lt. exact Hweight. }
    destruct (ExactFacts.methods_exact (fun _ => 0) dice_bag Hwf Hexact)
      as (lo & av & hi & _ & Hmin & Havg & Hmax & _).
    exists lo, av, hi. auto.
Qed.

Lemma average_between_witness :
  DiceBag.init "3d6+1-2d2"
  = Return [DiceBag.dice 3 6; DiceBag.dice 1 1; DiceBag.dice (-2) 2]
  /\ forallb DiceBag.rollable
       [DiceBag.dice 3 6; DiceBag.dice 1 1; DiceBag.dice (-2) 2] = true
  /\ (forall lo av hi,
        DiceBag.minimum [DiceBag.dice 3 6; DiceBag.dice 1 1; DiceBag.dice (-2) 2]
        = Return lo ->
        DiceBag.average [DiceBag.dice 3 6; DiceBag.dice 1 1; DiceBag.dice (-2) 2]
        = Return av ->
        DiceBag.maximum [DiceBag.dice 3 6; DiceBag.dice 1 1; DiceBag.dice (-2) 2]
        = Return hi ->
        lo <= av /\ av <= hi)
  /\ (DiceBag.total_weight
        [DiceBag.dice 3 6; DiceBag.dice 1 1; DiceBag.dice (-2) 2] < 2 ^ 53 ->
      exists lo av hi,
        DiceBag.minimum [DiceBag.dice 3 6; DiceBag.dice 1 1; DiceBag.dice (-2) 2]
        = Return lo
        /\ DiceBag.average
             [DiceBag.dice 3 6; DiceBag.dice 1 1; DiceBag.dice (-2) 2]
           = Return av
        /\ DiceBag.maximum
             [DiceBag.dice 3 6; DiceBag.dice 1 1; DiceBag.dice (-2) 2]
           = Return hi).
Proof.
  split; [reflexivity |]. split; [reflexivity |].
  apply (average_between "3d6+1-2d2"); reflexivity.
Defined.

(** C3, as stated, fails: ["1d0"] is accepted and [shake] raises on it,
    whatever the random draws. *)
Lemma zero_sided_die_shake_raises :
  DiceBag.init "1d0" = Return [DiceBag.dice 1 0]
  /\ forall entropy, DiceBag.shake entropy [DiceBag.dice 1 0] = Raise EmptyRange.
Proof. split; [reflexivity | intros entropy; reflexivity]. Qed.

(** C3, amended: for every string that the constructor accepts, whose
    dice are rollable and whose weights sum up below 2^53, each of
    [average], [minimum], [maximum] and [shake] returns an integer,
    whatever the random draws. *)
Theorem methods_return (dice_string : string) (dice_bag : list DiceBag.Die) :
  DiceBag.init dice_string = Return dice_bag ->
  DiceBag.exact dice_bag = true ->
  forall entropy,
    (exists n, DiceBag.average dice_bag = Return n)
    /\ (exists n, DiceBag.minimum dice_bag = Return n)
    /\ (exists n, DiceBag.maximum dice_bag = Return n)
    /\ (exists n, DiceBag.shake entropy dice_bag = Return n).
Proof.
  intros Hinit Hexact entropy. apply DiceBagFacts.init_spec in Hinit.
  destruct Hinit as (_ & Hwf & _).
  destruct (ExactFacts.methods_exact entropy dice_bag Hwf Hexact)
    as (lo & av & hi & val & Hmin & Havg & Hmax & Hshake & _).
  eauto 10.
Qed.

Lemma methods_return_witness :
  DiceBag.init "2d6+3" = Return [DiceBag.dice 2 6; DiceBag.dice 3 1]
  /\ DiceBag.exact [DiceBag.dice 2 6; DiceBag.dice 3 1] = true
  /\ forall entropy,
      (exists n, DiceBag.average [DiceBag.dice 2 6; DiceBag.dice 3 1] = Return n)
      /\ (exists n, DiceBag.minimum [DiceBag.dice 2 6; DiceBag.dice 3 1] = Return n)
      /\ (exists n, DiceBag.maximum [DiceBag.dice 2 6; DiceBag.dice 3 1] = Return n)
      /\ (exists n,
             DiceBag.shake entropy [DiceBag.dice 2 6; DiceBag.dice 3 1] = Return n).
Proof.
  split; [reflexivity |]. split; [reflexivity |].
  apply (methods_return "2d6+3"); reflexivity.
Defined.

(** Past the bound, the methods can raise: a size of 1 followed by 309
    zeros is stored as an infinity. *)
Lemma huge_size_methods_raise :
  DiceBag.init (String "1" (String "d" (String "1" (replicate 309 "0"))))
  = Return [{| DiceBag.quantity := Float64.of_int 1;
               DiceBag.size := Float64.Inf false |}]
  /\ DiceBag.rollable {| DiceBag.quantity := Float64.of_int 1;
                         DiceBag.size := Float64.Inf false |} = true
  /\ DiceBag.minimum [{| DiceBag.quantity := Float64.of_int 1;
                         DiceBag.size := Float64.Inf false |}] = Return 1
  /\ DiceBag.average [{| DiceBag.quantity := Float64.of_int 1;
                         DiceBag.size := Float64.Inf false |}]
     = Raise IntOfInfinity
  /\ DiceBag.maximum [{| DiceBag.quantity := Float64.of_int 1;
                         DiceBag.size := Float64.Inf false |}]
     = Raise IntOfInfinity.
Proof. repeat split; vm_compute; reflexivity. Qed.

(** C4, as stated, fails: five dice of 2^53 + 2 sides that all show
    their last side add up to 5 * 2^53 + 10, which binary64 does not
    hold: [maximum] returns 5 * 2^53 + 8. *)
Lemma shake_above_maximum :
  DiceBag.init "5d9007199254740994" = Return [DiceBag.dice 5 (2 ^ 53 + 2)]
  /\ DiceBag.shake (fun _ => 2 ^ 53 + 1) [DiceBag.dice 5 (2 ^ 53 + 2)]
     = Return 45035996273704970
  /\ DiceBag.maximum [DiceBag.dice 5 (2 ^ 53 + 2)] = Return 45035996273704968.
Proof. repeat split; reflexivity. Qed.

(** C4, amended: for every string that the constructor accepts, whose
    dice are rollable and whose weights sum up below 2^53, and for every
    outcome of the random draws, [shake] returns a value of the closed
    interval from [minimum()] to [maximum()]. *)
Theorem shake_between (dice_string : string) (dice_bag : list DiceBag.Die) :
  DiceBag.init dice_string = Return dice_bag ->
  DiceBag.exact dice_bag = true ->
  forall entropy,
  exists lo hi val,
    DiceBag.minimum dice_bag = Return lo
    /\ DiceBag.maximum dice_bag = Return hi
    /\ DiceBag.shake entropy dice_bag = Return val
    /\ lo <= val /\ val <= hi.
Proof.
  intros Hinit Hexact entropy. apply DiceBagFacts.init_spec in Hinit.
  destruct Hinit as (_ & Hwf & _).
  destruct (ExactFacts.methods_exact entropy dice_bag Hwf Hexact)
    as (lo & av & hi & val & Hmin & Havg & Hmax & Hshake & _ & Hord).
  exists lo, hi, val. repeat split; auto; lia.
Qed.

Lemma shake_between_witness :
  DiceBag.init "3d6+1-2d2"
  = Return [DiceBag.dice 3 6; DiceBag.dice 1 1; DiceBag.dice (-2) 2]
  /\ DiceBag.exact [DiceBag.dice 3 6; DiceBag.dice 1 1; DiceBag.dice (-2) 2] = true
  /\ forall entropy,
     exists lo hi val,
      DiceBag.minimum [DiceBag.dice 3 6; DiceBag.dice 1 1; DiceBag.dice (-2) 2]
      = Return lo
      /\ DiceBag.maximum [DiceBag.dice 3 6; DiceBag.dice 1 1; DiceBag.dice (-2) 2]
         = Return hi
      /\ DiceBag.shake entropy
           [DiceBag.dice 3 6; DiceBag.dice 1 1; DiceBag.dice (-2) 2]
         = Return val
      /\ lo <= val /\ val <= hi.
Proof.
  split; [reflexivity |]. split; [reflexivity |].
  apply (shake_between "3d6+1-2d2"); reflexivity.
Defined.

(** * Strings that the constructor refuses, or not *)

(** C5: ["2x6"] passes the check of the characters, which only looks at
    the start of the string, and is refused later, as a segment of
    unsupported format. *)
Theorem invalid_character_reported_as_segment :
  pattern_valid_dice_match "2x6" = Some "2"
  /\ DiceBag.init "2x6" = Raise (UnsupportedSegment "2x6").
Proof. split; reflexivity. Qed.

(** Still, no string with a character outside of the class is accepted:
    it is refused for its first character, or for one of its segments. *)
Lemma invalid_character_refused (dice_string : string) :
  all_chars is_valid_dice_char dice_string = false ->
  DiceBag.init dice_string = Raise (InvalidString dice_string)
  \/ exists segment,
      In segment (pattern_dice_segment_finditer (remove_whitespace dice_string))
      /\ DiceBag.init dice_string = Raise (UnsupportedSegment segment).
Proof.
  intros Hbad. unfold DiceBag.init.
  destruct (pattern_valid_dice_match dice_string) as [run |]; [right | left; reflexivity].
  rewrite <- valid_remove_whitespace in Hbad.
  destruct (finditer_covers _ Hbad) as (segment & Hin & Hseg).
  destruct (DiceBagFacts.parse_segments_spec
              (pattern_dice_segment_finditer (remove_whitespace dice_string)) [])
    as [(dice & Hp & _) | (segment' & Hin' & Hp)].
  - destruct (parse_segments_all _ _ _ Hp segment Hin) as (die & Hdie).
    apply parse_segment_valid in Hdie. congruence.
  - exists segment'. auto.
Qed.

(** C6, as stated, fails: ["2d6+"] and ["1--2"] are accepted, the sign
    that starts an empty segment being dropped. *)
Lemma empty_segment_accepted :
  DiceBag.init "2d6+" = Return [DiceBag.dice 2 6]
  /\ DiceBag.init "1--2" = Return [DiceBag.dice 1 1; DiceBag.dice (-2) 1].
Proof. split; reflexivity. Qed.

(** C6, amended: a sign that is followed, whitespace apart, by another
    sign or by the end of the string starts no segment and is skipped:
    unless the string without that sign is refused for its first
    character, the constructor does on the string what it does without
    the sign, accepting it with the same bag or refusing it for the same
    segment. *)
Theorem init_skips_empty_segment (a b : string) (c : ascii) :
  is_sign c = true ->
  at_sign_or_end (remove_whitespace b) = true ->
  DiceBag.init (a ++ b) <> Raise (InvalidString (a ++ b)) ->
  DiceBag.init (a ++ String c b) = DiceBag.init (a ++ b).
Proof.
  intros Hc Hb. unfold DiceBag.init.
  destruct (pattern_valid_dice_match (a ++ b)) as [run |] eqn:Hab;
    [intros _ | congruence].
  assert (Hvalid : pattern_valid_dice_match (a ++ String c b) <> None).
  { apply valid_match_iff.
    assert (H : pattern_valid_dice_match (a ++ b) <> None) by congruence.
    apply valid_match_iff in H.
    destruct a as [| d a]; [simpl; apply sign_valid; exact Hc | exact H]. }
  destruct (pattern_valid_dice_match (a ++ String c b)) as [run' |];
    [| contradiction].
  rewrite !remove_whitespace_app. cbn [remove_whitespace].
  rewrite (sign_not_space c Hc).
  rewrite (finditer_app (String c (remove_whitespace b))) by exact Hc.
  rewrite finditer_skip_sign by assumption.
  rewrite <- finditer_app by exact Hb.
  reflexivity.
Qed.

Lemma init_skips_empty_segment_witness :
  is_sign "-" = true
  /\ at_sign_or_end (remove_whitespace "-2") = true
  /\ DiceBag.init ("1" ++ "-2") <> Raise (InvalidString ("1" ++ "-2"))
  /\ DiceBag.init ("1" ++ String "-" "-2") = DiceBag.init ("1" ++ "-2").
Proof.
  assert (H : DiceBag.init ("1" ++ "-2") <> Raise (InvalidString ("1" ++ "-2")))
    by (vm_compute; discriminate).
  split; [reflexivity |]. split; [reflexivity |]. split; [exact H |].
  apply (init_skips_empty_segment "1" "-2" "-"); [reflexivity | reflexivity | exact H].
Defined.

(** C7, as stated, fails: ["+"] is accepted and its bag is empty. *)
Lemma lone_sign_gives_empty_bag : DiceBag.init "+" = Return [].
Proof. reflexivity. Qed.

(** C7, amended: for every string that the constructor accepts, the bag
    is empty exactly when the string is made of signs and whitespace
    only; it is not empty as soon as the string has another character. *)
Theorem init_nil_iff (dice_string : string) (dice_bag : list DiceBag.Die) :
  DiceBag.init dice_string = Return dice_bag ->
  dice_bag = []
  <-> all_chars (fun c => is_sign c || is_space c) dice_string = true.
Proof.
  intros H. apply DiceBagFacts.init_spec in H. destruct H as (_ & _ & Hlen).
  rewrite <- all_sign_remove_whitespace, <- finditer_nil_iff.
  split.
  - intros ->. simpl in Hlen. symmetry in Hlen.
    apply length_zero_iff_nil in Hlen. exact Hlen.
  - intros Hnil. rewrite Hnil in Hlen. simpl in Hlen.
    apply length_zero_iff_nil in Hlen. exact Hlen.
Qed.

Lemma init_nil_iff_witness :
  DiceBag.init "1d4" = Return [DiceBag.dice 1 4]
  /\ ([DiceBag.dice 1 4] = []
      <-> all_chars (fun c => is_sign c || is_space c) "1d4" = true).
Proof.
  split; [reflexivity |].
  apply (init_nil_iff "1d4"). reflexivity.
Defined.

(** * The examples of the documentation *)

(** C8: ["3d6+1-2d2"] is accepted; its minimum is 0, its maximum 17 and
    its average 8, the truncation of 8.5, itself the sum of 10.5, 1 and
    -3, none of which is truncated. *)
Theorem example_3d6_1_2d2 :
  exists dice_bag,
    DiceBag.init "3d6+1-2d2" = Return dice_bag
    /\ DiceBag.minimum dice_bag = Return 0
    /\ DiceBag.maximum dice_bag = Return 17
    /\ DiceBag.average dice_bag = Return 8
    /\ DiceBag.average_val dice_bag = Float64.half 17
    /\ map (DiceBag.average_step Float64.zero) dice_bag
       = [Float64.half 21; Float64.half 2; Float64.half (-6)].
Proof.
  exists [DiceBag.dice 3 6; DiceBag.dice 1 1; DiceBag.dice (-2) 2].
  repeat split; reflexivity.
Qed.

(** C9: ["17"] is accepted, as the one die of quantity 17 and size 1;
    its average, minimum and maximum are 17 and [shake] returns 17
    whatever the random draws. *)
Theorem example_17 :
  DiceBag.init "17"
  = Return [{| DiceBag.quantity := Float64.of_int 17;
               DiceBag.size := Float64.of_int 1 |}]
  /\ DiceBag.average [DiceBag.dice 17 1] = Return 17
  /\ DiceBag.minimum [DiceBag.dice 17 1] = Return 17
  /\ DiceBag.maximum [DiceBag.dice 17 1] = Return 17
  /\ forall entropy, DiceBag.shake entropy [DiceBag.dice 17 1] = Return 17.
Proof.
  repeat split; try reflexivity.
  intros entropy.
  destruct (ExactFacts.methods_exact entropy [DiceBag.dice 17 1])
    as (lo & av & hi & val & Hmin & _ & Hmax & -> & _ & Hval);
    try reflexivity.
  vm_compute in Hmin, Hmax.
  injection Hmin as <-. injection Hmax as <-.
  f_equal. lia.
Qed.

(** The other examples of the class: ["1d4"], and a segment without a
    quantity. *)
Example example_1d4 :
  DiceBag.init "1d4" = Return [DiceBag.dice 1 4]
  /\ DiceBag.average [DiceBag.dice 1 4] = Return 2
  /\ DiceBag.minimum [DiceBag.dice 1 4] = Return 1
  /\ DiceBag.maximum [DiceBag.dice 1 4] = Return 4.
Proof. repeat split; reflexivity. Qed.

Example example_d6 : DiceBag.init "d6" = Raise (UnsupportedSegment "d6").
Proof. reflexivity. Qed.

(** * What the fields hold *)

(** C10, as stated, fails: the quantity of 1 followed by 309 zeros is
    stored as an infinity, on which [int()] raises. *)
Lemma huge_quantity_is_infinite :
  DiceBag.init (String "1" (replicate 309 "0"))
  = Return [{| DiceBag.quantity := Float64.Inf false;
               DiceBag.size := Float64.one |}]
  /\ Float64.to_int (Float64.Inf false) = Raise IntOfInfinity
  /\ forall entropy,
      DiceBag.shake entropy [{| DiceBag.quantity := Float64.Inf false;
                                DiceBag.size := Float64.one |}]
      = Raise IntOfInfinity.
Proof. repeat split; vm_compute; reflexivity. Qed.

(** C10, amended: for every string that the constructor accepts, the
    quantity and the size of every die are each an infinity or exactly
    an integer [n], and [int()] of the latter returns [n]. *)
Theorem init_stores_integers (dice_string : string)
  (dice_bag : list DiceBag.Die) :
  DiceBag.init dice_string = Return dice_bag ->
  Forall
    (fun die =>
       forall x, x = DiceBag.quantity die \/ x = DiceBag.size die ->
       Float64.is_inf x = true
       \/ exists n, x = Float64.norm n 0 /\ Float64.to_int x = Return n)
    dice_bag.
Proof.
  intros H. apply DiceBagFacts.init_spec in H. destruct H as (_ & H & _).
  rewrite forallb_forall in H. apply Forall_forall. intros die Hin x Hx.
  specialize (H die Hin). unfold DiceBag.well_formed in H.
  apply andb_true_iff in H. destruct H as [H _].
  apply andb_true_iff in H. destruct H as [Hq Hs].
  assert (Hst : DiceBag.stored x = true) by (destruct Hx; subst x; assumption).
  destruct (ExactFacts.stored_cases x Hst) as [(b & ->) | (n & Hn & Hx')].
  - left. reflexivity.
  - right. exists n. auto.
Qed.

Lemma init_stores_integers_witness :
  DiceBag.init "2d6" = Return [DiceBag.dice 2 6]
  /\ Forall
       (fun die =>
          forall x, x = DiceBag.quantity die \/ x = DiceBag.size die ->
          Float64.is_inf x = true
          \/ exists n, x = Float64.norm n 0 /\ Float64.to_int x = Return n)
       [DiceBag.dice 2 6].
Proof.
  split; [reflexivity |].
  apply (init_stores_integers "2d6"). reflexivity.
Defined.

(** * The model of binary64 against the Standard Library's *)

(** Rounding gives a binary64, the one that [SpecFloat] gives. *)
Example round_agrees_on_samples :
  forallb
    (fun ne =>
       Float64.representable (Float64.round (fst ne) (snd ne))
       && Float64.same_spec
            (Float64.to_spec (Float64.round (fst ne) (snd ne)))
            (SpecFloat.binary_normalize Float64.prec Float64.emax
               (fst ne) (snd ne) false))
    Float64.samples
  = true.
Proof. vm_compute. reflexivity. Qed.

Example add_agrees_on_samples :
  forallb
    (fun x =>
       forallb
         (fun y =>
            Float64.representable (Float64.add x y)
            && Float64.same_spec
                 (Float64.to_spec (Float64.add x y))
                 (SpecFloat.SFadd Float64.prec Float64.emax
                    (Float64.to_spec x) (Float64.to_spec y)))
         Float64.sample_floats)
    Float64.sample_floats
  = true.
Proof. vm_compute. reflexivity. Qed.

Example mul_agrees_on_samples :
  forallb
    (fun x =>
       forallb
         (fun y =>
            Float64.representable (Float64.mul x y)
            && Float64.same_spec
                 (Float64.to_spec (Float64.mul x y))
                 (SpecFloat.SFmul Float64.prec Float64.emax
                    (Float64.to_spec x) (Float64.to_spec y)))
         Float64.sample_floats)
    Float64.sample_floats
  = true.
Proof. vm_compute. reflexivity. Qed.

Example div_two_agrees_on_samples :
  forallb
    (fun x =>
       Float64.representable (Float64.div_two x)
       && Float64.same_spec
            (Float64.to_spec (Float64.div_two x))
            (SpecFloat.SFdiv Float64.prec Float64.emax
               (Float64.to_spec x) (Float64.to_spec (Float64.of_int 2))))
    Float64.sample_floats
  = true.
Proof. vm_compute. reflexivity. Qed.

Example leb_agrees_on_samples :
  forallb
    (fun x =>
       forallb
         (fun y =>
            Bool.eqb (Float64.leb x y)
              (SpecFloat.SFleb (Float64.to_spec x) (Float64.to_spec y)))
         Float64.sample_floats)
    Float64.sample_floats
  = true.
Proof. vm_compute. reflexivity. Qed.

(** * The methods in integers *)

Module IdealFacts.
Import Float64 Float64Facts DiceBag ExactFacts Ideal.

Lemma int_of_norm (n : Z) : int_of (norm n 0) = n.
Proof. unfold int_of. rewrite to_int_norm. reflexivity. Qed.

(** A well-formed die of bounded weight is the two integers read from
    its fields. *)
Lemma die_fields (die : Die) :
  well_formed die = true -> weight die < 2 ^ 53 ->
  quantity die = norm (int_of (quantity die)) 0
  /\ size die = norm (int_of (size die)) 0
  /\ 0 <= int_of (size die)
  /\ weight die
     = (Z.abs (int_of (quantity die)) + 1) * (int_of (size die) + 1).
Proof.
  intros Hwf Hw.
  destruct (die_exact die Hwf Hw) as (q & s & Eq & Es & Hs & Ew).
  rewrite Eq, Es at 1. rewrite Ew, Eq, Es, !int_of_norm. auto.
Qed.

(** One die in the three loops, with the integers that the loops
    reach. *)
Lemma step_values (die : Die) (lo h hi B : Z) :
  well_formed die = true ->
  Z.abs lo <= B -> Z.abs h <= B -> Z.abs hi <= B ->
  B + weight die < 2 ^ 53 ->
  minimum_step (norm lo 0) die = norm (lo + minimum_term die) 0
  /\ average_step (half h) die = half (h + twice_average_term die)
  /\ maximum_step (norm hi 0) die = norm (hi + maximum_term die) 0
  /\ Z.abs (lo + minimum_term die) <= B + weight die
  /\ Z.abs (h + twice_average_term die) <= B + weight die
  /\ Z.abs (hi + maximum_term die) <= B + weight die.
Proof.
  intros Hwf Hlo Hh Hhi HB.
  destruct (die_fields die Hwf) as (Eq & Es & Hs & Ew); [lia |].
  unfold minimum_term, maximum_term, twice_average_term.
  set (q := int_of (quantity die)) in *.
  set (s := int_of (size die)) in *.
  rewrite Ew in *. clear Ew.
  assert (Hw1 : Z.abs q <= (Z.abs q + 1) * (s + 1)) by nia.
  assert (Hw2 : s + 1 <= (Z.abs q + 1) * (s + 1)) by nia.
  assert (Hw3 : Z.abs (q * s) <= (Z.abs q + 1) * (s + 1))
    by (rewrite Z.abs_mul, (Z.abs_eq s); nia).
  assert (Hw4 : Z.abs (q * (1 + s)) <= (Z.abs q + 1) * (s + 1))
    by (rewrite Z.abs_mul, (Z.abs_eq (1 + s)); nia).
  assert (Hmul1 : mul (norm q 0) (of_int 1) = norm q 0).
  { change (of_int 1) with (norm 1 0).
    rewrite mul_norm by (unfold emin; lia).
    rewrite Z.mul_1_r. reflexivity. }
  assert (Hmuls : mul (norm q 0) (norm s 0) = norm (q * s) 0).
  { rewrite mul_norm by (unfold emin; lia). reflexivity. }
  assert (Hleb : leb zero (norm q 0) = (0 <=? q)).
  { change zero with (norm 0 0). apply leb_norm. lia. }
  assert (Hc : Z.abs (if 0 <=? q then q else q * s)
               <= (Z.abs q + 1) * (s + 1))
    by (destruct (0 <=? q); lia).
  assert (Hd : Z.abs (if 0 <=? q then q * s else q)
               <= (Z.abs q + 1) * (s + 1))
    by (destruct (0 <=? q); lia).
  split; [| split; [| split]].
  - unfold minimum_step. rewrite Eq, Es, Hleb, Hmul1, Hmuls.
    destruct (0 <=? q); apply add_norm; unfold emin; lia.
  - unfold average_step. rewrite Eq, Es.
    change one with (norm 1 0).
    rewrite add_norm by (unfold emin; lia).
    rewrite mul_norm by (unfold emin; lia).
    rewrite div_two_norm by (unfold emin; lia).
    unfold half. apply add_norm; unfold emin; lia.
  - unfold maximum_step. rewrite Eq, Es, Hleb, Hmul1, Hmuls.
    destruct (0 <=? q); apply add_norm; unfold emin; lia.
  - repeat split; lia.
Qed.

Lemma loops_values (dice_bag : list Die) :
  forallb well_formed dice_bag = true ->
  forall lo h hi B,
    Z.abs lo <= B -> Z.abs h <= B -> Z.abs hi <= B ->
    B + total_weight dice_bag < 2 ^ 53 ->
    fold_left minimum_step dice_bag (norm lo 0)
    = norm (lo + sum minimum_term dice_bag) 0
    /\ fold_left average_step dice_bag (half h)
       = half (h + sum twice_average_term dice_bag)
    /\ fold_left maximum_step dice_bag (norm hi 0)
       = norm (hi + sum maximum_term dice_bag) 0.
Proof.
  induction dice_bag as [| die dice_bag IH];
    intros Hwf lo h hi B Hlo Hh Hhi HB; cbn [fold_left sum fold_right].
  - rewrite !Z.add_0_r. auto.
  - cbn [forallb] in Hwf.
    apply andb_true_iff in Hwf. destruct Hwf as [Hwd Hwf].
    pose proof (total_weight_nonneg dice_bag Hwf) as Hpos.
    assert (HB' : B + weight die + total_weight dice_bag < 2 ^ 53)
      by (cbn [total_weight fold_right] in HB; unfold total_weight; lia).
    destruct (step_values die lo h hi B Hwd Hlo Hh Hhi ltac:(lia))
      as (Emin & Eavg & Emax & Hlo1 & Hh1 & Hhi1).
    destruct (IH Hwf _ _ _ (B + weight die) Hlo1 Hh1 Hhi1 HB')
      as (Fmin & Favg & Fmax).
    rewrite Emin, Eavg, Emax, Fmin, Favg, Fmax.
    fold (sum minimum_term dice_bag) (sum maximum_term dice_bag)
      (sum twice_average_term dice_bag).
    rewrite !Z.add_assoc. auto.
Qed.

(** Below the bound the three methods return the integer sums. *)
Lemma methods_values (dice_bag : list Die) :
  forallb well_formed dice_bag = true -> total_weight dice_bag < 2 ^ 53 ->
  minimum dice_bag = Return (sum minimum_term dice_bag)
  /\ average dice_bag = Return (Z.quot (sum twice_average_term dice_bag) 2)
  /\ maximum dice_bag = Return (sum maximum_term dice_bag).
Proof.
  intros Hwf Hw.
  destruct (loops_values dice_bag Hwf 0 0 0 0) as (Emin & Eavg & Emax);
    try (simpl; lia).
  unfold minimum, average, maximum, minimum_val, average_val, maximum_val.
  change zero with (norm 0 0) at 1 3. change zero with (half 0).
  rewrite Emin, Eavg, Emax, !to_int_norm, to_int_half. auto.
Qed.
End IdealFacts.

(** * The draws of [shake] *)

Module ShakeFacts.
Import Float64 Float64Facts DiceBag ExactFacts Ideal IdealFacts.

Lemma int_of_to_int (x : float) (n : Z) : to_int x = Return n -> int_of x = n.
Proof. unfold int_of. intros ->. reflexivity. Qed.

(** [roll] makes [count] draws. *)
Lemma roll_draws (entropy : nat -> Z) (subtract : bool) (count : nat) (s : Z) :
  forall val n val' n',
    roll entropy subtract count s (val, n) = Return (val', n') ->
    n' = (n + count)%nat.
Proof.
  induction count as [| count IH]; intros val n val' n' H; cbn [roll] in H.
  - injection H as _ <-. lia.
  - unfold randrange in H. destruct (s <=? 0); [discriminate |].
    cbn [bind fst snd] in H. apply IH in H. lia.
Qed.

Lemma roll_ext (e1 e2 : nat -> Z) (subtract : bool) (count : nat) (s : Z) :
  forall val n,
    (forall i, (n <= i < n + count)%nat -> e1 i = e2 i) ->
    roll e1 subtract count s (val, n) = roll e2 subtract count s (val, n).
Proof.
  induction count as [| count IH]; intros val n H; cbn [roll]; [reflexivity |].
  unfold randrange. destruct (s <=? 0); [reflexivity |].
  cbn [bind fst snd]. rewrite (H n) by lia.
  apply IH. intros i Hi. apply H. lia.
Qed.

Lemma shake_step_draws (entropy : nat -> Z) (die : Die) (val : Z) (n : nat)
  (val' : Z) (n' : nat) :
  shake_step entropy die (val, n) = Return (val', n') ->
  n' = (n + draws die)%nat.
Proof.
  unfold shake_step, draws.
  destruct (to_int (quantity die)) as [q |] eqn:Eq; [| discriminate].
  rewrite (int_of_to_int _ _ Eq).
  destruct (to_int (size die)) as [s |]; [| discriminate].
  cbn [bind].
  destruct (Z.ltb_spec 0 q) as [Hq | Hq].
  - intros H. apply roll_draws in H. rewrite Z.abs_eq by lia. exact H.
  - destruct (Z.ltb_spec q 0) as [Hq' | Hq'].
    + apply roll_draws.
    + intros H. injection H as _ <-. assert (q = 0) by lia. subst q.
      simpl. lia.
Qed.

Lemma shake_step_ext (e1 e2 : nat -> Z) (die : Die) (val : Z) (n : nat) :
  (forall i, (n <= i < n + draws die)%nat -> e1 i = e2 i) ->
  shake_step e1 die (val, n) = shake_step e2 die (val, n).
Proof.
  unfold shake_step, draws.
  destruct (to_int (quantity die)) as [q |] eqn:Eq; [| reflexivity].
  rewrite (int_of_to_int _ _ Eq).
  destruct (to_int (size die)) as [s |]; [| reflexivity].
  cbn [bind]. intros H.
  destruct (Z.ltb_spec 0 q) as [Hq | Hq].
  - apply roll_ext. rewrite Z.abs_eq in H by lia. exact H.
  - destruct (Z.ltb_spec q 0); [apply roll_ext; exact H | reflexivity].
Qed.

Lemma shake_loop_draws (entropy : nat -> Z) (dice_bag : list Die) :
  forall val n val' n',
    shake_loop entropy dice_bag (val, n) = Return (val', n') ->
    n' = (n + total_draws dice_bag)%nat.
Proof.
  induction dice_bag as [| die dice_bag IH]; intros val n val' n' H;
    cbn [shake_loop total_draws fold_right] in *.
  - injection H as _ <-. lia.
  - destruct (shake_step entropy die (val, n)) as [[val1 n1] |] eqn:E;
      [| discriminate].
    cbn [bind] in H. apply shake_step_draws in E. apply IH in H.
    unfold total_draws in H. lia.
Qed.

Lemma shake_loop_ext (e1 e2 : nat -> Z) (dice_bag : list Die) :
  forall val n,
    (forall i, (n <= i < n + total_draws dice_bag)%nat -> e1 i = e2 i) ->
    shake_loop e1 dice_bag (val, n) = shake_loop e2 dice_bag (val, n).
Proof.
  induction dice_bag as [| die dice_bag IH]; intros val n H;
    cbn [shake_loop total_draws fold_right] in *; [reflexivity |].
  rewrite (shake_step_ext e1 e2) by (intros i Hi; apply H; lia).
  destruct (shake_step e2 die (val, n)) as [[val1 n1] |] eqn:E; [| reflexivity].
  cbn [bind]. apply shake_step_draws in E. subst n1.
  apply IH. intros i Hi. apply H. unfold total_draws in Hi. lia.
Qed.

(** [count] draws that are all [c]. *)
Lemma roll_repeat (subtract : bool) (count : nat) (s c : Z) (post : list Z) :
  1 <= s ->
  forall pre val,
    roll (entropy_of (pre ++ repeat c count ++ post)) subtract count s
      (val, List.length pre)
    = Return
        ((if subtract then val - Z.of_nat count * (c mod s + 1)
          else val + Z.of_nat count * (c mod s + 1)),
         (List.length pre + count)%nat).
Proof.
  intros Hs. induction count as [| count IH]; intros pre val.
  - cbn [roll]. rewrite Nat.add_0_r. destruct subtract; do 2 f_equal; lia.
  - cbn [roll repeat]. unfold randrange.
    replace (s <=? 0) with false by (symmetry; apply Z.leb_gt; lia).
    cbn [bind fst snd].
    change ((c :: repeat c count) ++ post)%list
      with (c :: (repeat c count ++ post))%list.
    assert (E : entropy_of (pre ++ c :: repeat c count ++ post)
                  (List.length pre) = c)
      by (unfold entropy_of; apply nth_middle).
    rewrite E.
    replace (pre ++ c :: repeat c count ++ post)%list
      with ((pre ++ [c]) ++ repeat c count ++ post)%list
      by (rewrite <- app_assoc; reflexivity).
    replace (S (List.length pre)) with (List.length (pre ++ [c])%list)
      by (rewrite length_app; simpl; lia).
    rewrite IH. rewrite length_app. simpl List.length.
    destruct subtract; do 2 f_equal; lia.
Qed.

(** The draws that reach a bound, for one die and for the bag. *)
Lemma shake_step_extreme (low : bool) (die : Die) (pre post : list Z) (val : Z) :
  well_formed die = true -> rollable die = true -> weight die < 2 ^ 53 ->
  shake_step
    (entropy_of
       (pre
        ++ repeat (if Bool.eqb low (0 <? int_of (quantity die)) then 0 else -1)
             (draws die)
        ++ post))
    die (val, List.length pre)
  = Return (val + (if low then minimum_term die else maximum_term die),
            (List.length pre + draws die)%nat).
Proof.
  intros Hwf Hroll Hw.
  destruct (die_fields die Hwf Hw) as (Eq & Es & Hs & _).
  unfold minimum_term, maximum_term, draws, shake_step.
  set (q := int_of (quantity die)) in *.
  set (s := int_of (size die)) in *.
  assert (Hr : q = 0 \/ 1 <= s).
  { unfold rollable in Hroll. rewrite Eq, Es, is_zero_norm in Hroll.
    change one with (norm 1 0) in Hroll.
    rewrite leb_norm in Hroll by lia.
    apply orb_true_iff in Hroll.
    destruct Hroll as [H | H]; [left; apply Z.eqb_eq | right; apply Z.leb_le];
      exact H. }
  rewrite Eq, Es, !to_int_norm. cbn [bind].
  destruct (Z.ltb_spec 0 q) as [Hq | Hq].
  - replace (0 <=? q) with true by (symmetry; apply Z.leb_le; lia).
    rewrite Z.abs_eq by lia.
    rewrite roll_repeat by lia. rewrite Z2Nat.id by lia.
    destruct low; cbn [Bool.eqb].
    + rewrite Z.mod_0_l by lia. do 2 f_equal. lia.
    + replace (-1 mod s) with (s - 1)
        by (apply (Z.mod_unique_pos _ _ (-1)); lia).
      do 2 f_equal. lia.
  - destruct (Z.ltb_spec q 0) as [Hq' | Hq'].
    + replace (0 <=? q) with false by (symmetry; apply Z.leb_gt; lia).
      rewrite roll_repeat by lia. rewrite Z2Nat.id by lia.
      destruct low; cbn [Bool.eqb].
      * replace (-1 mod s) with (s - 1)
          by (apply (Z.mod_unique_pos _ _ (-1)); lia).
        do 2 f_equal. lia.
      * rewrite Z.mod_0_l by lia. do 2 f_equal. lia.
    + assert (E0 : q = 0) by lia. rewrite E0. simpl.
      rewrite Nat.add_0_r. destruct low; do 2 f_equal; lia.
Qed.

Lemma shake_loop_extreme (low : bool) (dice_bag : list Die) (post : list Z) :
  forallb well_formed dice_bag = true -> forallb rollable dice_bag = true ->
  total_weight dice_bag < 2 ^ 53 ->
  forall pre val,
    shake_loop
      (entropy_of
         (pre
          ++ flat_map
               (fun die =>
                  repeat
                    (if Bool.eqb low (0 <? int_of (quantity die)) then 0 else -1)
                    (draws die))
               dice_bag
          ++ post))
      dice_bag (val, List.length pre)
    = Return
        (val + sum (if low then minimum_term else maximum_term) dice_bag,
         (List.length pre + total_draws dice_bag)%nat).
Proof.
  induction dice_bag as [| die dice_bag IH]; intros Hwf Hroll Hw pre val;
    cbn [shake_loop flat_map sum total_draws fold_right].
  - rewrite Z.add_0_r, Nat.add_0_r. reflexivity.
  - cbn [forallb] in Hwf, Hroll.
    apply andb_true_iff in Hwf. destruct Hwf as [Hwd Hwf].
    apply andb_true_iff in Hroll. destruct Hroll as [Hrd Hroll].
    pose proof (total_weight_nonneg dice_bag Hwf) as Hpos.
    pose proof (weight_nonneg die Hwd) as Hposd.
    cbn [total_weight fold_right] in Hw.
    fold (total_weight dice_bag) in Hw.
    rewrite <- app_assoc.
    rewrite shake_step_extreme by (auto; lia).
    cbn [bind].
    rewrite app_assoc.
    replace (List.length pre + draws die)%nat
      with (List.length
              (pre ++ repeat
                        (if Bool.eqb low (0 <? int_of (quantity die))
                         then 0 else -1) (draws die))%list)
      by (rewrite length_app, repeat_length; reflexivity).
    assert (Hw' : total_weight dice_bag < 2 ^ 53) by lia.
    rewrite (IH Hwf Hroll Hw').
    rewrite length_app, repeat_length.
    fold (sum (if low then minimum_term else maximum_term) dice_bag).
    fold (total_draws dice_bag).
    destruct low; do 2 f_equal; lia.
Qed.

Lemma lowest_draws_eq (dice_bag : list Die) :
  lowest_draws dice_bag
  = flat_map
      (fun die =>
         repeat (if Bool.eqb true (0 <? int_of (quantity die)) then 0 else -1)
           (draws die))
      dice_bag.
Proof.
  unfold lowest_draws. apply flat_map_ext. intros die.
  destruct (0 <? int_of (quantity die)); reflexivity.
Qed.

Lemma highest_draws_eq (dice_bag : list Die) :
  highest_draws dice_bag
  = flat_map
      (fun die =>
         repeat (if Bool.eqb false (0 <? int_of (quantity die)) then 0 else -1)
           (draws die))
      dice_bag.
Proof.
  unfold highest_draws. apply flat_map_ext. intros die.
  destruct (0 <? int_of (quantity die)); reflexivity.
Qed.

Lemma shake_extreme (dice_bag : list Die) :
  forallb well_formed dice_bag = true -> exact dice_bag = true ->
  shake (entropy_of (lowest_draws dice_bag)) dice_bag
  = Return (sum minimum_term dice_bag)
  /\ shake (entropy_of (highest_draws dice_bag)) dice_bag
     = Return (sum maximum_term dice_bag).
Proof.
  intros Hwf Hex. unfold exact in Hex.
  apply andb_true_iff in Hex. destruct Hex as [Hroll Hw].
  apply Z.ltb_lt in Hw. unfold shake.
  rewrite lowest_draws_eq, highest_draws_eq.
  pose proof (shake_loop_extreme true dice_bag [] Hwf Hroll Hw [] 0) as Hlo.
  pose proof (shake_loop_extreme false dice_bag [] Hwf Hroll Hw [] 0) as Hhi.
  rewrite app_nil_r in Hlo, Hhi. cbn [app List.length] in Hlo, Hhi.
  rewrite Hlo, Hhi. cbn [bind fst]. auto.
Qed.
End ShakeFacts.

(** * Strings and bags *)

Module ParseFacts.
Import DiceBag DiceBagFacts.

(** The bag under construction does not change what is appended. *)
Lemma parse_segments_acc (dice_iter : list string) :
  forall dice_bag,
    parse_segments dice_iter dice_bag
    = match parse_segments dice_iter [] with
      | Return dice => Return (dice_bag ++ dice)%list
      | Raise e => Raise e
      end.
Proof.
  induction dice_iter as [| segment dice_iter IH]; intros dice_bag;
    cbn [parse_segments].
  - rewrite app_nil_r. reflexivity.
  - destruct (parse_segment segment) as [die | e]; cbn [bind]; [| reflexivity].
    rewrite (IH (dice_bag ++ [die])%list), (IH ([] ++ [die])%list).
    destruct (parse_segments dice_iter []); [| reflexivity].
    rewrite <- app_assoc. reflexivity.
Qed.

Lemma parse_segments_app (iter1 iter2 : list string) :
  forall dice_bag,
    parse_segments (iter1 ++ iter2) dice_bag
    = (dice <- parse_segments iter1 dice_bag ;; parse_segments iter2 dice).
Proof.
  induction iter1 as [| segment iter1 IH]; intros dice_bag;
    cbn [parse_segments app bind]; [reflexivity |].
  destruct (parse_segment segment) as [die | e]; cbn [bind]; [| reflexivity].
  apply IH.
Qed.

(** The dice of the bag are those of the segments, in order. *)
Lemma parse_segments_forall2 (dice_iter : list string) :
  forall dice_bag,
    parse_segments dice_iter [] = Return dice_bag ->
    Forall2 (fun segment die => parse_segment segment = Return die)
      dice_iter dice_bag.
Proof.
  induction dice_iter as [| segment dice_iter IH]; intros dice_bag;
    cbn [parse_segments].
  - intros H. injection H as <-. constructor.
  - destruct (parse_segment segment) as [die | e] eqn:E; cbn [bind];
      [| discriminate].
    rewrite parse_segments_acc.
    destruct (parse_segments dice_iter []) as [dice |] eqn:E'; [| discriminate].
    intros H. injection H as <-. cbn [app]. constructor; auto.
Qed.

Lemma init_forall2 (dice_string : string) (dice_bag : list Die) :
  init dice_string = Return dice_bag ->
  Forall2 (fun segment die => parse_segment segment = Return die)
    (pattern_dice_segment_finditer (remove_whitespace dice_string)) dice_bag.
Proof.
  unfold init.
  destruct (pattern_valid_dice_match dice_string); [| discriminate].
  apply parse_segments_forall2.
Qed.

Lemma valid_match_app (a b : string) :
  pattern_valid_dice_match a <> None ->
  pattern_valid_dice_match (a ++ b) <> None.
Proof.
  rewrite !valid_match_iff. destruct a; simpl; [tauto | auto].
Qed.

Lemma all_chars_remove_whitespace (p : ascii -> bool) (s : string) :
  all_chars p s = true -> all_chars p (remove_whitespace s) = true.
Proof.
  induction s as [| c s IH]; simpl; [auto |].
  intros H. apply andb_true_iff in H. destruct H as [Hc Hs].
  destruct (is_space c); simpl; [auto |]. rewrite Hc. auto.
Qed.

Lemma finditer_all_chars (p : ascii -> bool) (s : string) :
  all_chars p s = true ->
  Forall (fun segment => all_chars p segment = true)
    (pattern_dice_segment_finditer s).
Proof.
  remember (String.length s) as n eqn:Hn.
  revert s Hn. induction n as [n IH] using lt_wf_ind. intros s Hn Hs.
  destruct s as [| c s]; [constructor |].
  rewrite finditer_unfold.
  destruct (pattern_dice_segment_at (String c s)) as [[segment rest] |] eqn:Hat.
  - pose proof (segment_at_shorter _ _ _ Hat) as Hlt.
    apply segment_at_spec in Hat. rewrite Hat, all_chars_app in Hs.
    apply andb_true_iff in Hs. destruct Hs as [Hseg Hrest].
    constructor; [exact Hseg |].
    apply (IH (String.length rest)); [subst n; exact Hlt | reflexivity | exact Hrest].
  - cbn [all_chars] in Hs. apply andb_true_iff in Hs. destruct Hs as [_ Hs].
    apply (IH (String.length s)); [subst n; simpl; lia | reflexivity | exact Hs].
Qed.

(** A die roll is written with the letter d. *)
Lemma die_roll_match_letter_d (s group1 group2 : string) :
  pattern_die_roll_match s = Some (group1, group2) ->
  all_chars (fun c => negb (is_letter_d c)) s = false.
Proof.
  unfold pattern_die_roll_match.
  destruct (opt_sign s) as [sign s1] eqn:Hsign.
  apply opt_sign_spec in Hsign. destruct Hsign as (-> & _).
  destruct (span is_digit s1) as [[| d1 ds1] r1] eqn:Hd1; [discriminate |].
  apply span_spec in Hd1. destruct Hd1 as (-> & _).
  destruct r1 as [| c r1]; [discriminate |].
  destruct (ord c =? 100) eqn:Hc; [| discriminate].
  intros _.
  assert (H : all_chars (fun c => negb (is_letter_d c)) (String c r1) = false)
    by (cbn [all_chars]; unfold is_letter_d; rewrite Hc; reflexivity).
  rewrite !all_chars_app, H, !andb_false_r. reflexivity.
Qed.

Lemma parse_segment_constant (segment : string) (die : Die) :
  all_chars (fun c => negb (is_letter_d c)) segment = true ->
  parse_segment segment = Return die -> size die = Float64.one.
Proof.
  intros Hd. unfold parse_segment.
  destruct (pattern_die_roll_match segment) as [[group1 group2] |] eqn:Hroll.
  - apply die_roll_match_letter_d in Hroll. congruence.
  - destruct (pattern_die_bonus_match segment) as [group1 |]; [| discriminate].
    destruct (py_float group1); cbn [bind]; [| discriminate].
    intros H. injection H as <-. reflexivity.
Qed.

(** Without the letter d, constants only. *)
Lemma init_constants (dice_string : string) (dice_bag : list Die) :
  all_chars (fun c => negb (is_letter_d c)) dice_string = true ->
  init dice_string = Return dice_bag ->
  Forall (fun die => size die = Float64.one) dice_bag.
Proof.
  intros Hd Hinit. apply init_forall2 in Hinit.
  apply all_chars_remove_whitespace in Hd.
  apply finditer_all_chars in Hd.
  induction Hinit as [| segment die iter bag Hseg _ IH]; [constructor |].
  inversion Hd; subst. constructor; [| auto].
  apply (parse_segment_constant segment); assumption.
Qed.
End ParseFacts.

(** * The grammar of a segment *)

Module GrammarFacts.
Import DiceBag DiceBagFacts.

Lemma span_all (p : ascii -> bool) (s rest : string) :
  all_chars p s = true ->
  match rest with String c _ => p c = false | EmptyString => True end ->
  span p (s ++ rest) = (s, rest).
Proof.
  intros Hs Hrest. induction s as [| c s IH]; simpl.
  - destruct rest as [| c rest]; [reflexivity |]. simpl. rewrite Hrest.
    reflexivity.
  - simpl in Hs. apply andb_true_iff in Hs. destruct Hs as [Hc Hs].
    rewrite Hc, (IH Hs). reflexivity.
Qed.

Lemma is_digits_spec (s : string) :
  is_digits s = true ->
  exists c s', s = String c s' /\ is_digit c = true
               /\ all_chars is_digit s = true.
Proof.
  destruct s as [| c s']; [discriminate |]. unfold is_digits. intros H.
  exists c, s'. repeat split; auto.
  cbn [all_chars] in H. apply andb_true_iff in H. tauto.
Qed.

Lemma digits_number_spec (s : string) :
  all_chars is_digit s = true ->
  digits_value 0 s = Some (digits_number s) /\ 0 <= digits_number s.
Proof.
  intros H. destruct (digits_value_all s 0 H (Z.le_refl 0)) as (n & Hn & Hpos).
  unfold digits_number. rewrite Hn. auto.
Qed.

Lemma opt_sign_app (sign rest : string) :
  is_opt_sign sign = true ->
  match rest with String c _ => is_sign c = false | EmptyString => True end ->
  opt_sign (sign ++ rest) = (sign, rest).
Proof.
  destruct sign as [| c [| ? ?]]; simpl; try discriminate.
  - intros _ H. destruct rest as [| c rest]; [reflexivity |]. simpl.
    rewrite H. reflexivity.
  - intros -> _. reflexivity.
Qed.

Lemma at_end_not_digit (tail : string) :
  at_end tail = true ->
  match tail with String c _ => is_digit c = false | EmptyString => True end.
Proof.
  destruct tail as [| c [| ? ?]]; simpl; auto; try discriminate.
  ascii_cases c.
Qed.

Lemma at_end_not_letter_d (tail : string) :
  at_end tail = true ->
  match tail with String c _ => (ord c =? 100) = false | EmptyString => True end.
Proof.
  destruct tail as [| c [| ? ?]]; simpl; auto; try discriminate.
  ascii_cases c.
Qed.

(** [float()] on a signed run of digits. *)
Lemma py_float_signed_digits (sign digits : string) :
  is_opt_sign sign = true -> is_digits digits = true ->
  py_float (sign ++ digits)
  = Return (Float64.of_int (signed sign (digits_number digits))).
Proof.
  intros Hsign Hd.
  destruct (is_digits_spec _ Hd) as (c & s' & -> & Hc & Hall).
  destruct (digits_number_spec _ Hall) as [Hn _].
  unfold py_float.
  rewrite opt_sign_app by (auto; apply digit_not_sign; exact Hc).
  rewrite Hn. reflexivity.
Qed.

(** The segments that are die rolls. *)
Lemma die_roll_match_complete (sign digits1 digits2 tail : string) :
  is_opt_sign sign = true -> is_digits digits1 = true ->
  is_digits digits2 = true -> at_end tail = true ->
  pattern_die_roll_match (sign ++ digits1 ++ String "d" (digits2 ++ tail))
  = Some ((sign ++ digits1)%string, digits2).
Proof.
  intros Hsign H1 H2 Hend.
  destruct (is_digits_spec _ H1) as (c1 & s1 & -> & Hc1 & Hall1).
  destruct (is_digits_spec _ H2) as (c2 & s2 & -> & Hc2 & Hall2).
  unfold pattern_die_roll_match.
  rewrite opt_sign_app by (auto; simpl; apply digit_not_sign; exact Hc1).
  rewrite (span_all is_digit (String c1 s1)) by (auto; reflexivity).
  change (ord "d" =? 100) with true. cbn iota.
  rewrite (span_all is_digit (String c2 s2))
    by (auto; apply at_end_not_digit; exact Hend).
  rewrite Hend. reflexivity.
Qed.

Lemma die_roll_match_sound (s group1 group2 : string) :
  pattern_die_roll_match s = Some (group1, group2) ->
  exists sign digits1 tail,
    is_opt_sign sign = true /\ is_digits digits1 = true
    /\ is_digits group2 = true /\ at_end tail = true
    /\ group1 = (sign ++ digits1)%string
    /\ s = (sign ++ digits1 ++ String "d" (group2 ++ tail))%string.
Proof.
  unfold pattern_die_roll_match.
  destruct (opt_sign s) as [sign s1] eqn:Hsign.
  assert (Hs : is_opt_sign sign = true /\ s = (sign ++ s1)%string).
  { destruct (opt_sign_cases _ _ _ Hsign) as [(-> & -> & _) | (c & Hc & -> & ->)];
      simpl; auto. }
  destruct Hs as [Hopt ->].
  destruct (span is_digit s1) as [[| d1 ds1] r1] eqn:Hd1; [discriminate |].
  apply span_spec in Hd1. destruct Hd1 as (-> & Hall1 & _).
  destruct r1 as [| c r1]; [discriminate |].
  destruct (ord c =? 100) eqn:Hc; [| discriminate].
  assert (c = "d"%char) by (revert Hc; ascii_cases c). subst c.
  destruct (span is_digit r1) as [[| d2 ds2] r2] eqn:Hd2; [discriminate |].
  apply span_spec in Hd2. destruct Hd2 as (-> & Hall2 & _).
  destruct (at_end r2) eqn:Hend; [| discriminate].
  intros H. injection H as <- <-.
  exists sign, (String d1 ds1), r2. repeat split; auto.
Qed.

Lemma die_bonus_match_complete (sign digits1 tail : string) :
  is_opt_sign sign = true -> is_digits digits1 = true -> at_end tail = true ->
  pattern_die_roll_match (sign ++ digits1 ++ tail) = None
  /\ pattern_die_bonus_match (sign ++ digits1 ++ tail)
     = Some (sign ++ digits1)%string.
Proof.
  intros Hsign H1 Hend.
  destruct (is_digits_spec _ H1) as (c1 & s1 & -> & Hc1 & Hall1).
  unfold pattern_die_roll_match, pattern_die_bonus_match.
  rewrite opt_sign_app by (auto; simpl; apply digit_not_sign; exact Hc1).
  rewrite (span_all is_digit (String c1 s1))
    by (auto; apply at_end_not_digit; exact Hend).
  rewrite Hend.
  pose proof (at_end_not_letter_d tail Hend) as Hd.
  destruct tail as [| c tail]; [auto |]. rewrite Hd. auto.
Qed.

Lemma die_bonus_match_sound (s group1 : string) :
  pattern_die_bonus_match s = Some group1 ->
  exists sign digits1 tail,
    is_opt_sign sign = true /\ is_digits digits1 = true /\ at_end tail = true
    /\ group1 = (sign ++ digits1)%string
    /\ s = (sign ++ digits1 ++ tail)%string.
Proof.
  unfold pattern_die_bonus_match.
  destruct (opt_sign s) as [sign s1] eqn:Hsign.
  assert (Hs : is_opt_sign sign = true /\ s = (sign ++ s1)%string).
  { destruct (opt_sign_cases _ _ _ Hsign) as [(-> & -> & _) | (c & Hc & -> & ->)];
      simpl; auto. }
  destruct Hs as [Hopt ->].
  destruct (span is_digit s1) as [[| d1 ds1] r1] eqn:Hd1; [discriminate |].
  apply span_spec in Hd1. destruct Hd1 as (-> & Hall1 & _).
  destruct (at_end r1) eqn:Hend; [| discriminate].
  intros H. injection H as <-.
  exists sign, (String d1 ds1), r1. repeat split; auto.
Qed.

Lemma append_nil_r (s : string) : (s ++ EmptyString)%string = s.
Proof. induction s as [| c s IH]; simpl; [| rewrite IH]; reflexivity. Qed.

(** The grammar of a segment: an optional sign and digits, then maybe
    the letter d and digits, up to a final newline. *)
Lemma parse_segment_iff (segment : string) (die : Die) :
  parse_segment segment = Return die
  <-> exists sign digits1 tail,
      is_opt_sign sign = true /\ is_digits digits1 = true
      /\ at_end tail = true
      /\ ((segment = (sign ++ digits1 ++ tail)%string
           /\ die = {| quantity := Float64.of_int
                                     (signed sign (digits_number digits1));
                       size := Float64.one |})
          \/ exists digits2,
              is_digits digits2 = true
              /\ segment
                 = (sign ++ digits1 ++ String "d" (digits2 ++ tail))%string
              /\ die = dice (signed sign (digits_number digits1))
                         (digits_number digits2)).
Proof.
  split.
  - unfold parse_segment.
    destruct (pattern_die_roll_match segment) as [[group1 group2] |] eqn:Hroll.
    + destruct (die_roll_match_sound _ _ _ Hroll)
        as (sign & d1 & tail & Hs & H1 & H2 & Hend & -> & ->).
      rewrite (py_float_signed_digits sign d1 Hs H1).
      pose proof (py_float_signed_digits EmptyString group2 eq_refl H2) as E2.
      cbn [append signed] in E2. rewrite E2. cbn [bind].
      intros H. injection H as <-.
      exists sign, d1, tail. repeat split; auto.
      right. exists group2. auto.
    + destruct (pattern_die_bonus_match segment) as [group1 |] eqn:Hbonus;
        [| discriminate].
      destruct (die_bonus_match_sound _ _ Hbonus)
        as (sign & d1 & tail & Hs & H1 & Hend & -> & ->).
      rewrite (py_float_signed_digits sign d1 Hs H1). cbn [bind].
      intros H. injection H as <-.
      exists sign, d1, tail. repeat split; auto.
  - intros (sign & d1 & tail & Hs & H1 & Hend & [[-> ->] | (d2 & H2 & -> & ->)]);
      unfold parse_segment.
    + destruct (die_bonus_match_complete sign d1 tail Hs H1 Hend) as [-> ->].
      rewrite (py_float_signed_digits sign d1 Hs H1). reflexivity.
    + rewrite (die_roll_match_complete sign d1 d2 tail Hs H1 H2 Hend).
      rewrite (py_float_signed_digits sign d1 Hs H1).
      pose proof (py_float_signed_digits EmptyString d2 eq_refl H2) as E2.
      cbn [append signed] in E2. rewrite E2. reflexivity.
Qed.
End GrammarFacts.

(** * One segment *)

Module TermFacts.
Import DiceBag DiceBagFacts GrammarFacts.

Lemma remove_whitespace_id (s : string) :
  all_chars (fun c => negb (is_space c)) s = true -> remove_whitespace s = s.
Proof.
  induction s as [| c s IH]; simpl; [reflexivity |].
  intros H. apply andb_true_iff in H. destruct H as [Hc Hs].
  apply negb_true_iff in Hc. rewrite Hc, (IH Hs). reflexivity.
Qed.

Lemma finditer_single (sign body : string) :
  is_opt_sign sign = true -> body <> EmptyString ->
  all_chars is_not_sign body = true ->
  pattern_dice_segment_finditer (sign ++ body) = [(sign ++ body)%string].
Proof.
  intros Hsign Hne Hbody.
  destruct body as [| c body]; [congruence |].
  assert (Hc : is_sign c = false).
  { cbn [all_chars] in Hbody. apply andb_true_iff in Hbody.
    destruct Hbody as [Hc _]. apply negb_true_iff in Hc. exact Hc. }
  assert (Hat : pattern_dice_segment_at (sign ++ String c body)
                = Some ((sign ++ String c body)%string, EmptyString)).
  { unfold pattern_dice_segment_at.
    rewrite opt_sign_app by (auto; exact Hc).
    pose proof (span_all is_not_sign (String c body) EmptyString Hbody I) as E.
    rewrite append_nil_r in E. rewrite E. reflexivity. }
  destruct sign as [| x sign]; cbn [append] in *;
    rewrite finditer_unfold, Hat; reflexivity.
Qed.

(** A string that is one segment gives the die of the segment. *)
Lemma init_one_segment (sign body : string) (die : Die) :
  is_opt_sign sign = true -> body <> EmptyString ->
  all_chars (fun c => negb (is_sign c) && negb (is_space c)) body = true ->
  parse_segment (sign ++ body) = Return die ->
  init (sign ++ body) = Return [die].
Proof.
  intros Hsign Hne Hbody Hparse. unfold init.
  assert (Hvalid : pattern_valid_dice_match (sign ++ body) <> None).
  { apply valid_match_iff. pose proof (parse_segment_valid _ _ Hparse) as Hv.
    destruct (sign ++ body)%string as [| c s] eqn:E.
    - destruct sign; [simpl in E; congruence | discriminate].
    - cbn [all_chars] in Hv. apply andb_true_iff in Hv. tauto. }
  destruct (pattern_valid_dice_match (sign ++ body)); [| contradiction].
  assert (Hws : remove_whitespace (sign ++ body) = (sign ++ body)%string).
  { apply remove_whitespace_id. rewrite all_chars_app.
    apply andb_true_iff. split.
    - destruct sign as [| c [| ? ?]]; simpl in *; try discriminate; auto.
      rewrite (sign_not_space c Hsign). reflexivity.
    - revert Hbody. apply all_chars_weaken. intros c Hc.
      apply andb_true_iff in Hc. tauto. }
  rewrite Hws, finditer_single; auto.
  - cbn [parse_segments]. rewrite Hparse. reflexivity.
  - revert Hbody. apply all_chars_weaken. intros c Hc.
    apply andb_true_iff in Hc. unfold is_not_sign. tauto.
Qed.

Lemma digit_plain (c : ascii) :
  is_digit c = true -> negb (is_sign c) && negb (is_space c) = true.
Proof. ascii_cases c. Qed.

Lemma digits_plain (s : string) :
  is_digits s = true ->
  all_chars (fun c => negb (is_sign c) && negb (is_space c)) s = true.
Proof.
  intros H. destruct (is_digits_spec _ H) as (c & s' & -> & _ & Hall).
  revert Hall. apply all_chars_weaken. exact digit_plain.
Qed.

(** The string of a die roll. *)
Lemma init_roll (sign digits1 digits2 : string) :
  is_opt_sign sign = true -> is_digits digits1 = true ->
  is_digits digits2 = true ->
  init (sign ++ digits1 ++ String "d" digits2)
  = Return [dice (signed sign (digits_number digits1)) (digits_number digits2)].
Proof.
  intros Hs H1 H2. apply init_one_segment; auto.
  - destruct (is_digits_spec _ H1) as (c & s' & -> & _). discriminate.
  - rewrite all_chars_app. cbn [all_chars].
    rewrite (digits_plain _ H1), (digits_plain _ H2). reflexivity.
  - apply parse_segment_iff. exists sign, digits1, EmptyString.
    repeat split; auto. right. exists digits2.
    rewrite append_nil_r. auto.
Qed.

(** The string of a constant. *)
Lemma init_constant (sign digits1 : string) :
  is_opt_sign sign = true -> is_digits digits1 = true ->
  init (sign ++ digits1) = Return [dice (signed sign (digits_number digits1)) 1].
Proof.
  intros Hs H1. apply init_one_segment; auto.
  - destruct (is_digits_spec _ H1) as (c & s' & -> & _). discriminate.
  - apply digits_plain. exact H1.
  - apply parse_segment_iff. exists sign, digits1, EmptyString.
    repeat split; auto. left. rewrite append_nil_r. auto.
Qed.
End TermFacts.

(** * Further properties of the constructor *)

(** X5: a string with a character outside of the digits, the signs, the
    letter d and whitespace, wherever it stands, never gives a bag: the
    constructor raises. *)
Theorem invalid_character_never_accepted (dice_string : string)
    (dice_bag : list DiceBag.Die) :
  all_chars is_valid_dice_char dice_string = false ->
  DiceBag.init dice_string <> Return dice_bag.
Proof.
  intros Hbad.
  destruct (invalid_character_refused dice_string Hbad)
    as [-> | (segment & _ & ->)]; discriminate.
Qed.

Lemma invalid_character_never_accepted_witness :
  DiceBag.init "1d6+2x" <> Return [DiceBag.dice 1 6; DiceBag.dice 2 1].
Proof.
  apply (invalid_character_never_accepted "1d6+2x"). reflexivity.
Defined.

(** X3: whitespace is dropped wherever it stands, inside numbers too: unless
    the string without it is refused for its first character, the
    constructor does with a whitespace character what it does without. *)
Theorem init_ignores_whitespace (a b : string) (c : ascii) :
  is_space c = true ->
  DiceBag.init (a ++ b) <> Raise (InvalidString (a ++ b)) ->
  DiceBag.init (a ++ String c b) = DiceBag.init (a ++ b).
Proof.
  intros Hc. unfold DiceBag.init.
  destruct (pattern_valid_dice_match (a ++ b)) as [run |] eqn:Hab;
    [intros _ | congruence].
  assert (Hvalid : pattern_valid_dice_match (a ++ String c b) <> None).
  { apply valid_match_iff.
    assert (H : pattern_valid_dice_match (a ++ b) <> None) by congruence.
    apply valid_match_iff in H.
    destruct a as [| d a]; [simpl; apply space_valid; exact Hc | exact H]. }
  destruct (pattern_valid_dice_match (a ++ String c b)) as [run' |];
    [| contradiction].
  rewrite !remove_whitespace_app. cbn [remove_whitespace]. rewrite Hc.
  reflexivity.
Qed.

Lemma init_ignores_whitespace_witness :
  is_space " " = true
  /\ DiceBag.init ("1" ++ "2d6") <> Raise (InvalidString ("1" ++ "2d6"))
  /\ DiceBag.init ("1" ++ String " " "2d6") = DiceBag.init ("1" ++ "2d6").
Proof.
  assert (H : DiceBag.init ("1" ++ "2d6") <> Raise (InvalidString ("1" ++ "2d6")))
    by (vm_compute; discriminate).
  split; [reflexivity |]. split; [exact H |].
  apply (init_ignores_whitespace "1" "2d6" " "); [reflexivity | exact H].
Defined.

(** X4: two accepted strings, the second of which starts with a sign
    (whitespace apart), make an accepted string, whose bag is the first
    bag followed by the second. *)
Theorem init_app (a b : string) (bag_a bag_b : list DiceBag.Die) :
  DiceBag.init a = Return bag_a ->
  DiceBag.init b = Return bag_b ->
  at_sign_or_end (remove_whitespace b) = true ->
  DiceBag.init (a ++ b) = Return (bag_a ++ bag_b)%list.
Proof.
  unfold DiceBag.init. intros Ha Hb Hsign.
  destruct (pattern_valid_dice_match a) as [run_a |] eqn:Ea; [| discriminate].
  destruct (pattern_valid_dice_match b) as [run_b |]; [| discriminate].
  assert (Hvalid : pattern_valid_dice_match (a ++ b) <> None)
    by (apply ParseFacts.valid_match_app; congruence).
  destruct (pattern_valid_dice_match (a ++ b)); [| contradiction].
  rewrite remove_whitespace_app, finditer_app by exact Hsign.
  rewrite ParseFacts.parse_segments_app, Ha. cbn [bind].
  rewrite ParseFacts.parse_segments_acc, Hb. reflexivity.
Qed.

Lemma init_app_witness :
  DiceBag.init "3d6" = Return [DiceBag.dice 3 6]
  /\ DiceBag.init " - 2d2" = Return [DiceBag.dice (-2) 2]
  /\ at_sign_or_end (remove_whitespace " - 2d2") = true
  /\ DiceBag.init ("3d6" ++ " - 2d2")
     = Return ([DiceBag.dice 3 6] ++ [DiceBag.dice (-2) 2])%list.
Proof.
  split; [reflexivity |]. split; [reflexivity |]. split; [reflexivity |].
  apply (init_app "3d6" " - 2d2"); reflexivity.
Defined.

(** * cp437_to_unicode *)

Module Cp437Facts.
Import Cp437 GrammarFacts.

Lemma hex_value_hex_digit (d : Z) :
  0 <= d < 16 -> hex_value (hex_digit d) = Some d.
Proof.
  intros H.
  assert (E : d = 0 \/ d = 1 \/ d = 2 \/ d = 3 \/ d = 4 \/ d = 5 \/ d = 6
              \/ d = 7 \/ d = 8 \/ d = 9 \/ d = 10 \/ d = 11 \/ d = 12
              \/ d = 13 \/ d = 14 \/ d = 15) by lia.
  repeat (destruct E as [-> | E]; [reflexivity |]). subst d. reflexivity.
Qed.

Lemma hex_value_range (c : ascii) (d : Z) :
  hex_value c = Some d -> 0 <= d < 16 /\ is_ascii_space c = false.
Proof.
  destruct c as [[] [] [] [] [] [] [] []]; intros H; vm_compute in H;
    try discriminate; injection H as <-; (split; [lia | reflexivity]).
Qed.

Lemma string_pairs_ind (P : string -> Prop) :
  P EmptyString ->
  (forall c, P (String c EmptyString)) ->
  (forall c c' s, P s -> P (String c (String c' s))) ->
  forall s, P s.
Proof.
  intros H0 H1 H2 s.
  assert (H : P s /\ forall c, P (String c s)); [| tauto].
  induction s as [| c' s [IH IH']]; split; auto.
Qed.

Lemma length_app (s t : string) :
  String.length (s ++ t) = (String.length s + String.length t)%nat.
Proof. induction s as [| c s IH]; simpl; [| rewrite IH]; reflexivity. Qed.

Lemma hex_number_app (s : string) :
  forall a t,
    hex_number a (s ++ t)
    = match hex_number a s with
      | Some v => hex_number v t
      | None => None
      end.
Proof.
  induction s as [| c s IH]; intros a t; cbn [append hex_number]; [reflexivity |].
  destruct (hex_value c); [apply IH | reflexivity].
Qed.

(** The digits that [hex_from] puts before [acc]: they write [n], and
    their number is that of the hexadecimal digits of [n]. *)
Lemma hex_from_spec (fuel : nat) :
  forall n acc,
    0 <= n < 2 ^ Z.of_nat (S fuel) ->
    exists pre,
      hex_from (S fuel) n acc = (pre ++ acc)%string
      /\ 1 <= Z.of_nat (String.length pre)
      /\ n < 16 ^ Z.of_nat (String.length pre)
      /\ (String.length pre = 1%nat
          \/ 16 ^ (Z.of_nat (String.length pre) - 1) <= n)
      /\ forall a,
          hex_number a pre
          = Some (a * 16 ^ Z.of_nat (String.length pre) + n).
Proof.
  assert (Hone : forall n acc,
             0 <= n < 16 ->
             exists pre,
               String (hex_digit n) acc = (pre ++ acc)%string
               /\ 1 <= Z.of_nat (String.length pre)
               /\ n < 16 ^ Z.of_nat (String.length pre)
               /\ (String.length pre = 1%nat
                   \/ 16 ^ (Z.of_nat (String.length pre) - 1) <= n)
               /\ forall a,
                   hex_number a pre
                   = Some (a * 16 ^ Z.of_nat (String.length pre) + n)).
  { intros n acc Hn. exists (String (hex_digit n) EmptyString).
    cbn [append String.length hex_number].
    rewrite hex_value_hex_digit by exact Hn.
    change (16 ^ Z.of_nat 1) with 16.
    repeat split; auto; try lia. intros a. f_equal. lia. }
  induction fuel as [| fuel IH]; intros n acc Hn.
  - cbn [hex_from]. assert (Hlt : n < 16) by (simpl in Hn; lia).
    replace (n <? 16) with true by (symmetry; apply Z.ltb_lt; exact Hlt).
    rewrite Z.mod_small by lia. apply Hone. lia.
  - remember (S fuel) as fuel' eqn:Hf. cbn [hex_from].
    pose proof (Z.mod_pos_bound n 16 ltac:(lia)) as Hmod.
    destruct (Z.ltb_spec n 16) as [Hlt | Hge].
    + rewrite Z.mod_small by lia. apply Hone. lia.
    + assert (Hdiv : 0 <= n / 16 < 2 ^ Z.of_nat fuel').
      { split; [apply Z.div_pos; lia |].
        apply Z.div_lt_upper_bound; [lia |].
        rewrite Nat2Z.inj_succ, Z.pow_succ_r in Hn by lia. lia. }
      subst fuel'.
      destruct (IH (n / 16) (String (hex_digit (n mod 16)) acc) Hdiv)
        as (pre & E & Hlen & Hup & Hlow & Hnum).
      exists (pre ++ String (hex_digit (n mod 16)) EmptyString)%string.
      rewrite length_app. cbn [String.length].
      replace (Z.of_nat (String.length pre + 1))
        with (Z.succ (Z.of_nat (String.length pre))) by lia.
      rewrite Z.pow_succ_r by lia.
      pose proof (Z.div_mod n 16 ltac:(lia)) as Hdm.
      repeat split.
      * rewrite E, append_assoc. reflexivity.
      * lia.
      * lia.
      * right.
        replace (Z.succ (Z.of_nat (String.length pre)) - 1)
          with (Z.of_nat (String.length pre)) by lia.
        destruct Hlow as [Hlow | Hlow].
        -- rewrite Hlow. change (16 ^ Z.of_nat 1) with 16. lia.
        -- replace (Z.of_nat (String.length pre))
             with (Z.succ (Z.of_nat (String.length pre) - 1)) by lia.
           rewrite Z.pow_succ_r by lia. lia.
      * intros a. rewrite hex_number_app, Hnum. cbn [hex_number].
        rewrite hex_value_hex_digit by lia. f_equal. lia.
Qed.

(** The digits of [hex_digits]. *)
Lemma hex_digits_spec (n : Z) :
  0 <= n ->
  1 <= Z.of_nat (String.length (hex_digits n))
  /\ n < 16 ^ Z.of_nat (String.length (hex_digits n))
  /\ (String.length (hex_digits n) = 1%nat
      \/ 16 ^ (Z.of_nat (String.length (hex_digits n)) - 1) <= n)
  /\ hex_number 0 (hex_digits n) = Some n.
Proof.
  intros Hn. unfold hex_digits.
  assert (Hfuel : 0 <= n < 2 ^ Z.of_nat (S (Z.to_nat (Z.log2 n)))).
  { split; [exact Hn |]. rewrite Nat2Z.inj_succ, Z2Nat.id by apply Z.log2_nonneg.
    destruct (Z.eq_dec n 0) as [-> | Hne]; [reflexivity |].
    apply Z.log2_spec. lia. }
  destruct (hex_from_spec _ n EmptyString Hfuel) as (pre & E & H1 & H2 & H3 & H4).
  rewrite E, append_nil_r. repeat split; auto.
Qed.

(** The number of digits of a number between two powers of sixteen. *)
Lemma hex_digits_length (n j : Z) :
  0 <= j -> 16 ^ j <= n < 16 ^ (j + 1) ->
  Z.of_nat (String.length (hex_digits n)) = j + 1.
Proof.
  intros Hj Hn.
  assert (H0 : 0 <= n) by (pose proof (Z.pow_pos_nonneg 16 j); lia).
  destruct (hex_digits_spec n H0) as (H1 & H2 & H3 & _).
  set (len := Z.of_nat (String.length (hex_digits n))) in *.
  assert (Hlt : j < len).
  { apply (Z.pow_lt_mono_r_iff 16); lia. }
  destruct H3 as [H3 | H3]; [lia |].
  assert (len - 1 < j + 1); [| lia].
  apply (Z.pow_lt_mono_r_iff 16); lia.
Qed.

(** [bytes.fromhex] on a run of hexadecimal digits: a byte for two
    digits, and an error when their number is odd. *)
Lemma fromhex_hex_number (s : string) :
  forall a v,
    hex_number a s = Some v ->
    if Nat.even (String.length s)
    then exists bytes,
        fromhex s = Returned bytes
        /\ from_bytes a bytes = v
        /\ (2 * List.length bytes = String.length s)%nat
        /\ Forall (fun byte => 0 <= byte < 256) bytes
    else fromhex s = Raised ValueError.
Proof.
  induction s as [| c | c c' s IH] using string_pairs_ind; intros a v H.
  - simpl in *. injection H as <-. exists []. repeat split; auto.
  - cbn [hex_number] in H. destruct (hex_value c) as [d |] eqn:Hc; [| discriminate].
    apply hex_value_range in Hc. destruct Hc as [_ Hc].
    cbn [String.length Nat.even fromhex]. rewrite Hc. reflexivity.
  - cbn [hex_number] in H.
    destruct (hex_value c) as [d |] eqn:Hc; [| discriminate].
    destruct (hex_value c') as [d' |] eqn:Hc'; [| discriminate].
    pose proof (hex_value_range _ _ Hc) as [Hd Hsp].
    pose proof (hex_value_range _ _ Hc') as [Hd' _].
    specialize (IH _ _ H). cbn [String.length Nat.even fromhex].
    rewrite Hsp, Hc, Hc'.
    destruct (Nat.even (String.length s)).
    + destruct IH as (bytes & -> & Hv & Hlen & Hall).
      exists (16 * d + d' :: bytes). repeat split.
      * unfold from_bytes in *. cbn [fold_left].
        replace (256 * a + (16 * d + d')) with (16 * (16 * a + d) + d') by lia.
        exact Hv.
      * cbn [List.length]. lia.
      * constructor; [lia | exact Hall].
    + rewrite IH. reflexivity.
Qed.

Lemma even_of_nat (n : nat) : Z.even (Z.of_nat n) = Nat.even n.
Proof.
  induction n as [| n IH]; [reflexivity |].
  rewrite Nat2Z.inj_succ, Z.even_succ, <- Z.negb_even, IH, Nat.even_succ,
    <- Nat.negb_even.
  reflexivity.
Qed.

Lemma slice_hex (val : Z) : 0 <= val -> slice_from 2 (hex val) = hex_digits val.
Proof.
  intros H. unfold hex.
  replace (val <? 0) with false by (symmetry; apply Z.ltb_ge; exact H).
  reflexivity.
Qed.

Section Tables.
Variable decoding_table : Z -> Z.
Variable cp437_conv : Z -> option (list Z).

(** Above the control characters: the bytes of [val] when it has an
    even number of hexadecimal digits, an error otherwise. *)
Lemma above_control (val j : Z) :
  31 < val -> 16 ^ j <= val < 16 ^ (j + 1) ->
  if Z.odd j
  then exists bytes,
      cp437_to_unicode decoding_table cp437_conv val
      = Returned (map decoding_table bytes)
      /\ from_bytes 0 bytes = val
      /\ 2 * Z.of_nat (List.length bytes) = j + 1
      /\ Forall (fun byte => 0 <= byte < 256) bytes
  else cp437_to_unicode decoding_table cp437_conv val = Raised ValueError.
Proof.
  intros H31 Hval.
  assert (Hj : 1 <= j).
  { destruct (Z.le_gt_cases 1 j) as [H | H]; [exact H |].
    destruct (Z.le_gt_cases 0 j) as [H0 | H0].
    - replace j with 0 in Hval by lia. simpl in Hval. lia.
    - destruct (Z.eq_dec (j + 1) 0) as [E | E].
      + rewrite E in Hval. simpl in Hval. lia.
      + rewrite (Z.pow_neg_r 16 (j + 1)) in Hval by lia. lia. }
  unfold cp437_to_unicode.
  replace (31 <? val) with true by (symmetry; apply Z.ltb_lt; exact H31).
  rewrite slice_hex by lia.
  pose proof (hex_digits_length val j ltac:(lia) Hval) as Hlen.
  destruct (hex_digits_spec val ltac:(lia)) as (_ & _ & _ & Hnum).
  replace (String.length (hex_digits val) =? 1)%nat with false
    by (symmetry; apply Nat.eqb_neq; lia).
  pose proof (fromhex_hex_number _ _ _ Hnum) as H.
  replace (Nat.even (String.length (hex_digits val))) with (Z.odd j) in H.
  2:{ rewrite <- Z.even_succ, <- Z.add_1_r, <- Hlen.
      apply even_of_nat. }
  destruct (Z.odd j).
  - destruct H as (bytes & -> & Hv & Hl & Hall).
    exists bytes. unfold decode. repeat split; auto. lia.
  - rewrite H. reflexivity.
Qed.
End Tables.
End Cp437Facts.

Module ValueFacts.
Import DiceBag Ideal IdealFacts Float64.

Lemma sum_app (term : Die -> Z) (bag_a bag_b : list Die) :
  sum term (bag_a ++ bag_b) = sum term bag_a + sum term bag_b.
Proof.
  unfold sum. induction bag_a as [| die bag_a IH]; cbn [app fold_right]; lia.
Qed.

Lemma total_weight_app (bag_a bag_b : list Die) :
  total_weight (bag_a ++ bag_b) = total_weight bag_a + total_weight bag_b.
Proof.
  unfold total_weight.
  induction bag_a as [| die bag_a IH]; cbn [app fold_right]; lia.
Qed.

(** Twice the average of a die is its minimum and its maximum. *)
Lemma sum_midpoint (dice_bag : list Die) :
  sum twice_average_term dice_bag
  = sum minimum_term dice_bag + sum maximum_term dice_bag.
Proof.
  unfold sum. induction dice_bag as [| die dice_bag IH]; cbn [fold_right];
    [reflexivity |].
  rewrite IH. unfold twice_average_term, minimum_term, maximum_term.
  cbv zeta. destruct (0 <=? int_of (quantity die)); lia.
Qed.

Lemma int_of_one : int_of one = 1.
Proof. reflexivity. Qed.

(** Dice of one side: the three sums are the sum of the quantities. *)
Lemma sum_constants (dice_bag : list Die) :
  Forall (fun die => size die = one) dice_bag ->
  sum maximum_term dice_bag = sum minimum_term dice_bag
  /\ sum twice_average_term dice_bag = 2 * sum minimum_term dice_bag
  /\ forallb rollable dice_bag = true.
Proof.
  unfold sum. induction 1 as [| die dice_bag Hdie _ (IH1 & IH2 & IH3)];
    cbn [fold_right forallb]; [auto |].
  rewrite IH1, IH2, IH3. unfold twice_average_term, minimum_term, maximum_term,
    rollable.
  rewrite Hdie, int_of_one. cbv zeta.
  replace (leb one one) with true by reflexivity. rewrite orb_true_r.
  destruct (0 <=? int_of (quantity die)); repeat split; lia.
Qed.
End ValueFacts.

(** * Further properties of the evaluation methods *)

(** X1: the grammar of a segment.  A segment gives a die exactly when it is an
    optional sign and a run of digits, then maybe the letter d and a
    second run of digits, then nothing or a final newline; the die has
    the signed first number as its quantity and the second number, or
    one, as its size. *)
Theorem segment_grammar (segment : string) (die : DiceBag.Die) :
  DiceBag.parse_segment segment = Return die
  <-> exists sign digits1 tail,
      is_opt_sign sign = true /\ is_digits digits1 = true
      /\ at_end tail = true
      /\ ((segment = (sign ++ digits1 ++ tail)%string
           /\ die = {| DiceBag.quantity :=
                         Float64.of_int (signed sign (digits_number digits1));
                       DiceBag.size := Float64.one |})
          \/ exists digits2,
              is_digits digits2 = true
              /\ segment
                 = (sign ++ digits1 ++ String "d" (digits2 ++ tail))%string
              /\ die = DiceBag.dice (signed sign (digits_number digits1))
                         (digits_number digits2)).
Proof. exact (GrammarFacts.parse_segment_iff segment die). Qed.

(** X2: a string that is one term, [XdY] or [X] under an optional sign, gives
    the bag of that one die: [X] dice of [Y] sides, or [X] dice of one
    side. *)
Theorem single_term_bag (sign digits1 digits2 : string) :
  is_opt_sign sign = true ->
  is_digits digits1 = true ->
  is_digits digits2 = true ->
  DiceBag.init (sign ++ digits1 ++ String "d" digits2)
  = Return [DiceBag.dice (signed sign (digits_number digits1))
              (digits_number digits2)]
  /\ DiceBag.init (sign ++ digits1)
     = Return [DiceBag.dice (signed sign (digits_number digits1)) 1].
Proof.
  intros Hs H1 H2. split.
  - apply TermFacts.init_roll; assumption.
  - apply TermFacts.init_constant; assumption.
Qed.

Lemma single_term_bag_witness :
  DiceBag.init ("-" ++ "12" ++ String "d" "20") = Return [DiceBag.dice (-12) 20]
  /\ DiceBag.init ("-" ++ "12") = Return [DiceBag.dice (-12) 1].
Proof.
  apply (single_term_bag "-" "12" "20"); reflexivity.
Defined.

(** X6: below the bound of 2^53 on the weights, the three methods return the
    sums in integers: for each die, [minimum] adds the quantity when it
    is not negative and quantity * size when it is, [maximum] the other
    way round, and [average] is the sum of quantity * (1 + size), halved
    and truncated towards zero. *)
Theorem methods_closed_form (dice_string : string) (dice_bag : list DiceBag.Die) :
  DiceBag.init dice_string = Return dice_bag ->
  DiceBag.total_weight dice_bag < 2 ^ 53 ->
  DiceBag.minimum dice_bag = Return (Ideal.sum Ideal.minimum_term dice_bag)
  /\ DiceBag.average dice_bag
     = Return (Z.quot (Ideal.sum Ideal.twice_average_term dice_bag) 2)
  /\ DiceBag.maximum dice_bag = Return (Ideal.sum Ideal.maximum_term dice_bag).
Proof.
  intros Hinit Hw. apply DiceBagFacts.init_spec in Hinit.
  destruct Hinit as (_ & Hwf & _).
  apply IdealFacts.methods_values; assumption.
Qed.

Lemma methods_closed_form_witness :
  DiceBag.minimum [DiceBag.dice 3 6; DiceBag.dice 1 1; DiceBag.dice (-2) 2]
  = Return (Ideal.sum Ideal.minimum_term
              [DiceBag.dice 3 6; DiceBag.dice 1 1; DiceBag.dice (-2) 2])
  /\ DiceBag.average [DiceBag.dice 3 6; DiceBag.dice 1 1; DiceBag.dice (-2) 2]
     = Return (Z.quot
                 (Ideal.sum Ideal.twice_average_term
                    [DiceBag.dice 3 6; DiceBag.dice 1 1; DiceBag.dice (-2) 2]) 2)
  /\ DiceBag.maximum [DiceBag.dice 3 6; DiceBag.dice 1 1; DiceBag.dice (-2) 2]
     = Return (Ideal.sum Ideal.maximum_term
                 [DiceBag.dice 3 6; DiceBag.dice 1 1; DiceBag.dice (-2) 2]).
Proof.
  apply (methods_closed_form "3d6+1-2d2"); [reflexivity | vm_compute; reflexivity].
Defined.

(** X7: below the bound, [average] is the midpoint of [minimum] and
    [maximum], truncated towards zero. *)
Theorem average_is_midpoint (dice_string : string) (dice_bag : list DiceBag.Die) :
  DiceBag.init dice_string = Return dice_bag ->
  DiceBag.total_weight dice_bag < 2 ^ 53 ->
  exists lo hi,
    DiceBag.minimum dice_bag = Return lo
    /\ DiceBag.maximum dice_bag = Return hi
    /\ DiceBag.average dice_bag = Return (Z.quot (lo + hi) 2).
Proof.
  intros Hinit Hw. apply DiceBagFacts.init_spec in Hinit.
  destruct Hinit as (_ & Hwf & _).
  destruct (IdealFacts.methods_values dice_bag Hwf Hw) as (Hmin & Havg & Hmax).
  exists (Ideal.sum Ideal.minimum_term dice_bag),
    (Ideal.sum Ideal.maximum_term dice_bag).
  rewrite <- ValueFacts.sum_midpoint. auto.
Qed.

Lemma average_is_midpoint_witness :
  exists lo hi,
    DiceBag.minimum [DiceBag.dice 1 6; DiceBag.dice (-1) 3] = Return lo
    /\ DiceBag.maximum [DiceBag.dice 1 6; DiceBag.dice (-1) 3] = Return hi
    /\ DiceBag.average [DiceBag.dice 1 6; DiceBag.dice (-1) 3]
       = Return (Z.quot (lo + hi) 2).
Proof.
  apply (average_is_midpoint "1d6-1d3"); [reflexivity | vm_compute; reflexivity].
Defined.

(** X8: below the bound, the order of the terms does not matter: two bags put
    together one way or the other have the same minimum, average and
    maximum. *)
Theorem methods_commute (string_a string_b : string)
    (bag_a bag_b : list DiceBag.Die) :
  DiceBag.init string_a = Return bag_a ->
  DiceBag.init string_b = Return bag_b ->
  DiceBag.total_weight (bag_a ++ bag_b) < 2 ^ 53 ->
  DiceBag.minimum (bag_a ++ bag_b) = DiceBag.minimum (bag_b ++ bag_a)
  /\ DiceBag.average (bag_a ++ bag_b) = DiceBag.average (bag_b ++ bag_a)
  /\ DiceBag.maximum (bag_a ++ bag_b) = DiceBag.maximum (bag_b ++ bag_a).
Proof.
  intros Ha Hb Hw.
  apply DiceBagFacts.init_spec in Ha. destruct Ha as (_ & Hwa & _).
  apply DiceBagFacts.init_spec in Hb. destruct Hb as (_ & Hwb & _).
  assert (Hab : forallb DiceBag.well_formed (bag_a ++ bag_b) = true)
    by (rewrite forallb_app, Hwa, Hwb; reflexivity).
  assert (Hba : forallb DiceBag.well_formed (bag_b ++ bag_a) = true)
    by (rewrite forallb_app, Hwa, Hwb; reflexivity).
  assert (Hw' : DiceBag.total_weight (bag_b ++ bag_a) < 2 ^ 53)
    by (rewrite ValueFacts.total_weight_app in *; lia).
  destruct (IdealFacts.methods_values _ Hab Hw) as (-> & -> & ->).
  destruct (IdealFacts.methods_values _ Hba Hw') as (-> & -> & ->).
  assert (E : forall term,
             Ideal.sum term (bag_a ++ bag_b) = Ideal.sum term (bag_b ++ bag_a))
    by (intros term; rewrite !ValueFacts.sum_app; lia).
  rewrite !E. auto.
Qed.

Lemma methods_commute_witness :
  DiceBag.minimum ([DiceBag.dice 3 6] ++ [DiceBag.dice (-2) 2])
  = DiceBag.minimum ([DiceBag.dice (-2) 2] ++ [DiceBag.dice 3 6])
  /\ DiceBag.average ([DiceBag.dice 3 6] ++ [DiceBag.dice (-2) 2])
     = DiceBag.average ([DiceBag.dice (-2) 2] ++ [DiceBag.dice 3 6])
  /\ DiceBag.maximum ([DiceBag.dice 3 6] ++ [DiceBag.dice (-2) 2])
     = DiceBag.maximum ([DiceBag.dice (-2) 2] ++ [DiceBag.dice 3 6]).
Proof.
  apply (methods_commute "3d6" "-2d2");
    [reflexivity | reflexivity | vm_compute; reflexivity].
Defined.

(** X9: a string without the letter d is a sum of constants: below the
    bound, [minimum], [average] and [maximum] return the same number, and
    so does [shake], whatever is drawn. *)
Theorem constants_agree (dice_string : string) (dice_bag : list DiceBag.Die) :
  all_chars (fun c => negb (is_letter_d c)) dice_string = true ->
  DiceBag.init dice_string = Return dice_bag ->
  DiceBag.total_weight dice_bag < 2 ^ 53 ->
  exists n,
    DiceBag.minimum dice_bag = Return n
    /\ DiceBag.average dice_bag = Return n
    /\ DiceBag.maximum dice_bag = Return n
    /\ forall entropy, DiceBag.shake entropy dice_bag = Return n.
Proof.
  intros Hd Hinit Hw.
  pose proof (ParseFacts.init_constants _ _ Hd Hinit) as Hone.
  apply DiceBagFacts.init_spec in Hinit. destruct Hinit as (_ & Hwf & _).
  destruct (ValueFacts.sum_constants _ Hone) as (Emax & Eavg & Hroll).
  destruct (IdealFacts.methods_values _ Hwf Hw) as (Hmin & Havg & Hmax).
  exists (Ideal.sum Ideal.minimum_term dice_bag).
  rewrite Eavg in Havg. rewrite Emax in Hmax.
  replace (2 * Ideal.sum Ideal.minimum_term dice_bag)
    with (Ideal.sum Ideal.minimum_term dice_bag * 2) in Havg by lia.
  rewrite Z.quot_mul in Havg by lia.
  repeat split; auto. intros entropy.
  assert (Hexact : DiceBag.exact dice_bag = true).
  { unfold DiceBag.exact. rewrite Hroll. apply Z.ltb_lt. exact Hw. }
  destruct (ExactFacts.methods_exact entropy dice_bag Hwf Hexact)
    as (lo & av & hi & val & Hlo & _ & Hhi & -> & _ & Hval).
  rewrite Hmin in Hlo. rewrite Hmax in Hhi.
  injection Hlo as <-. injection Hhi as <-. f_equal. lia.
Qed.

Lemma constants_agree_witness :
  exists n,
    DiceBag.minimum [DiceBag.dice 7 1; DiceBag.dice (-2) 1] = Return n
    /\ DiceBag.average [DiceBag.dice 7 1; DiceBag.dice (-2) 1] = Return n
    /\ DiceBag.maximum [DiceBag.dice 7 1; DiceBag.dice (-2) 1] = Return n
    /\ forall entropy,
        DiceBag.shake entropy [DiceBag.dice 7 1; DiceBag.dice (-2) 1] = Return n.
Proof.
  apply (constants_agree "7 - 2");
    [reflexivity | reflexivity | vm_compute; reflexivity].
Defined.

(** * Further properties of shake *)

(** X10: the bounds are reached.  On the draws where every die that is added
    shows its first side and every die that is subtracted its last side,
    [shake] returns what [minimum] returns; on the opposite draws, what
    [maximum] returns. *)
Theorem shake_attains_bounds (dice_string : string) (dice_bag : list DiceBag.Die) :
  DiceBag.init dice_string = Return dice_bag ->
  DiceBag.exact dice_bag = true ->
  DiceBag.shake (Ideal.entropy_of (Ideal.lowest_draws dice_bag)) dice_bag
  = DiceBag.minimum dice_bag
  /\ DiceBag.shake (Ideal.entropy_of (Ideal.highest_draws dice_bag)) dice_bag
     = DiceBag.maximum dice_bag.
Proof.
  intros Hinit Hexact. apply DiceBagFacts.init_spec in Hinit.
  destruct Hinit as (_ & Hwf & _).
  destruct (ShakeFacts.shake_extreme dice_bag Hwf Hexact) as (-> & ->).
  assert (Hw : DiceBag.total_weight dice_bag < 2 ^ 53).
  { unfold DiceBag.exact in Hexact. apply andb_true_iff in Hexact.
    apply Z.ltb_lt. tauto. }
  destruct (IdealFacts.methods_values dice_bag Hwf Hw) as (-> & _ & ->). auto.
Qed.

Lemma shake_attains_bounds_witness :
  DiceBag.shake
    (Ideal.entropy_of
       (Ideal.lowest_draws [DiceBag.dice 3 6; DiceBag.dice 1 1; DiceBag.dice (-2) 2]))
    [DiceBag.dice 3 6; DiceBag.dice 1 1; DiceBag.dice (-2) 2]
  = DiceBag.minimum [DiceBag.dice 3 6; DiceBag.dice 1 1; DiceBag.dice (-2) 2]
  /\ DiceBag.shake
       (Ideal.entropy_of
          (Ideal.highest_draws
             [DiceBag.dice 3 6; DiceBag.dice 1 1; DiceBag.dice (-2) 2]))
       [DiceBag.dice 3 6; DiceBag.dice 1 1; DiceBag.dice (-2) 2]
     = DiceBag.maximum [DiceBag.dice 3 6; DiceBag.dice 1 1; DiceBag.dice (-2) 2].
Proof.
  apply (shake_attains_bounds "3d6+1-2d2"); reflexivity.
Defined.

(** X11: the outcome of [shake] depends on the first draws only, as many
    as the absolute values of the quantities sum up to: two entropy
    sources that agree on these draws give the same result, or the same
    exception. *)
Theorem shake_reads_total_draws (entropy1 entropy2 : nat -> Z)
    (dice_bag : list DiceBag.Die) :
  (forall i, (i < Ideal.total_draws dice_bag)%nat -> entropy1 i = entropy2 i) ->
  DiceBag.shake entropy1 dice_bag = DiceBag.shake entropy2 dice_bag.
Proof.
  intros H. unfold DiceBag.shake.
  rewrite (ShakeFacts.shake_loop_ext entropy1 entropy2); [reflexivity |].
  intros i Hi. apply H. lia.
Qed.

Lemma shake_reads_total_draws_witness :
  DiceBag.shake (fun i => if (i <? 3)%nat then 4 else 0)
    [DiceBag.dice 2 6; DiceBag.dice (-1) 4]
  = DiceBag.shake (fun i => if (i <? 3)%nat then 4 else 5)
      [DiceBag.dice 2 6; DiceBag.dice (-1) 4].
Proof.
  apply (shake_reads_total_draws (fun i => if (i <? 3)%nat then 4 else 0)
           (fun i => if (i <? 3)%nat then 4 else 5)).
  intros i Hi. vm_compute in Hi.
  destruct i as [| [| [| i]]]; [reflexivity | reflexivity | reflexivity | lia].
Defined.

(** * Properties of cp437_to_unicode *)

(** X12: from 0x20 to 0xff the result is one glyph, the one that the codec
    gives to the byte [val]; the table of the control characters is not
    read. *)
Theorem printable_glyph (decoding_table : Z -> Z)
    (cp437_conv : Z -> option (list Z)) (val : Z) :
  32 <= val <= 255 ->
  Cp437.cp437_to_unicode decoding_table cp437_conv val
  = Cp437.Returned [decoding_table val].
Proof.
  intros Hval.
  pose proof (Cp437Facts.above_control decoding_table cp437_conv val 1
                ltac:(lia) ltac:(change (16 ^ 1) with 16;
                                 change (16 ^ (1 + 1)) with 256; lia)) as H.
  cbn [Z.odd] in H. destruct H as (bytes & -> & Hv & Hlen & _).
  destruct bytes as [| byte [| byte' bytes]]; cbn [List.length] in Hlen; try lia.
  unfold Cp437.from_bytes in Hv. cbn [fold_left] in Hv.
  cbn [map]. replace byte with val by lia. reflexivity.
Qed.

Lemma printable_glyph_witness :
  Cp437.cp437_to_unicode (fun byte => byte + 9472) (fun _ => None) 196
  = Cp437.Returned [196 + 9472].
Proof.
  apply (printable_glyph (fun byte => byte + 9472) (fun _ => None) 196). lia.
Defined.

(** X13: above the control characters the single digit that the code pads with
    a zero never occurs: a value above 0x1f has two hexadecimal digits at
    least. *)
Theorem padding_never_applies (val : Z) :
  31 < val -> String.length (Cp437.slice_from 2 (Cp437.hex val)) <> 1%nat.
Proof.
  intros Hval. rewrite Cp437Facts.slice_hex by lia.
  destruct (Cp437Facts.hex_digits_spec val ltac:(lia)) as (_ & Hup & _ & _).
  intros E. rewrite E in Hup. change (16 ^ Z.of_nat 1) with 16 in Hup. lia.
Qed.

Lemma padding_never_applies_witness :
  String.length (Cp437.slice_from 2 (Cp437.hex 32)) <> 1%nat.
Proof.
  apply (padding_never_applies 32). lia.
Defined.

(** X14: a value with an odd number of hexadecimal digits, three or more, as
    0x100 to 0xfff, is refused: [bytes.fromhex] raises ValueError. *)
Theorem odd_digits_raise (decoding_table : Z -> Z)
    (cp437_conv : Z -> option (list Z)) (val k : Z) :
  1 <= k ->
  16 ^ (2 * k) <= val < 16 ^ (2 * k + 1) ->
  Cp437.cp437_to_unicode decoding_table cp437_conv val
  = Cp437.Raised Cp437.ValueError.
Proof.
  intros Hk Hval.
  assert (H31 : 31 < val).
  { assert (16 ^ 2 <= 16 ^ (2 * k)) by (apply Z.pow_le_mono_r; lia).
    change (16 ^ 2) with 256 in *. lia. }
  pose proof (Cp437Facts.above_control decoding_table cp437_conv val (2 * k)
                H31 Hval) as H.
  rewrite Z.odd_mul in H. exact H.
Qed.

Lemma odd_digits_raise_witness :
  Cp437.cp437_to_unicode (fun byte => byte) (fun _ => None) 256
  = Cp437.Raised Cp437.ValueError.
Proof.
  apply (odd_digits_raise (fun byte => byte) (fun _ => None) 256 1);
    [lia | vm_compute; split; [discriminate | reflexivity]].
Defined.

(** X15: a value above 0x1f with an even number of hexadecimal digits is not
    refused: the result has one glyph for each byte of [val], most
    significant first, so two glyphs or more from 0x1000 on. *)
Theorem even_digits_bytes (decoding_table : Z -> Z)
    (cp437_conv : Z -> option (list Z)) (val k : Z) :
  31 < val ->
  16 ^ (2 * k + 1) <= val < 16 ^ (2 * k + 2) ->
  exists bytes,
    Cp437.cp437_to_unicode decoding_table cp437_conv val
    = Cp437.Returned (map decoding_table bytes)
    /\ Cp437.from_bytes 0 bytes = val
    /\ Z.of_nat (List.length bytes) = k + 1
    /\ Forall (fun byte => 0 <= byte < 256) bytes.
Proof.
  intros H31 Hval.
  replace (2 * k + 2) with (2 * k + 1 + 1) in Hval by lia.
  pose proof (Cp437Facts.above_control decoding_table cp437_conv val (2 * k + 1)
                H31 Hval) as H.
  replace (Z.odd (2 * k + 1)) with true in H
    by (symmetry; rewrite Z.add_1_r, Z.odd_succ, Z.even_mul; reflexivity).
  destruct H as (bytes & E & Hv & Hlen & Hall).
  exists bytes. repeat split; auto. lia.
Qed.

Lemma even_digits_bytes_witness :
  exists bytes,
    Cp437.cp437_to_unicode (fun byte => byte) (fun _ => None) 4096
    = Cp437.Returned (map (fun byte => byte) bytes)
    /\ Cp437.from_bytes 0 bytes = 4096
    /\ Z.of_nat (List.length bytes) = 1 + 1
    /\ Forall (fun byte => 0 <= byte < 256) bytes.
Proof.
  apply (even_digits_bytes (fun byte => byte) (fun _ => None) 4096 1);
    [lia | vm_compute; split; [discriminate | reflexivity]].
Defined.
